(** * Latency metrics and the Berard speech-translation model of
    examples/simultaneous_translation, embedded in Rocq.

    Numeric tensors of the latency metrics are modelled over exact rationals
    [Q] (the metrics' floating-point arithmetic idealised); the attention
    module is modelled over the reals [R]. A 2-D tensor is its shape together
    with its entry function, so that broadcasting, transposition and the
    reductions of the tensor library read as they act on indices. *)

From Stdlib Require Import QArith Qminmax Qround ZArith Lia List Bool String.
From Stdlib Require Import Reals Lra.
Import ListNotations.

(** ** Python execution: results and exceptions *)

Inductive exn :=
| AssertionError
| UnboundLocalError
| RuntimeError      (* shape errors raised by the tensor library *)
| IndexError.

Inductive result (A : Type) :=
| Ok (a : A)
| Err (e : exn).
Arguments Ok {A} a.
Arguments Err {A} e.

Definition bind {A B} (m : result A) (k : A -> result B) : result B :=
  match m with Ok a => k a | Err e => Err e end.

Declare Scope py_scope.
Notation "x <- m ;; k" := (bind m (fun x => k))
  (at level 61, m at next level, right associativity) : py_scope.
Open Scope py_scope.

Definition py_assert (b : bool) : result unit :=
  if b then Ok tt else Err AssertionError.

(** ** 2-D tensors *)

Module Tensor.

Record tensor (A : Type) := mkT { rows : nat; cols : nat; ent : nat -> nat -> A }.
Arguments mkT {A} rows cols ent.
Arguments rows {A} t.
Arguments cols {A} t.
Arguments ent {A} t _ _.

(** [t.size()] *)
Definition size {A} (t : tensor A) : nat * nat := (rows t, cols t).

Definition tmap {A B} (f : A -> B) (t : tensor A) : tensor B :=
  mkT (rows t) (cols t) (fun i j => f (ent t i j)).

(** [t.t()] *)
Definition transpose {A} (t : tensor A) : tensor A :=
  mkT (cols t) (rows t) (fun i j => ent t j i).

(** Broadcasting of one dimension: equal sizes, or one of them is 1. *)
Definition bdim (a b : nat) : option nat :=
  if a =? b then Some a
  else if a =? 1 then Some b
  else if b =? 1 then Some a
  else None.

(** Index into a dimension of size [n] that may be broadcast. *)
Definition bidx (n i : nat) : nat := if n =? 1 then 0 else i.

(** Element-wise binary operation with broadcasting. *)
Definition bcast {A B C} (f : A -> B -> C) (x : tensor A) (y : tensor B)
  : result (tensor C) :=
  match bdim (rows x) (rows y), bdim (cols x) (cols y) with
  | Some r, Some c =>
      Ok (mkT r c (fun i j =>
            f (ent x (bidx (rows x) i) (bidx (cols x) j))
              (ent y (bidx (rows y) i) (bidx (cols y) j))))
  | _, _ => Err RuntimeError
  end.

(** [x.expand(r, c)] / [x.expand_as(y)] *)
Definition expand {A} (x : tensor A) (r c : nat) : result (tensor A) :=
  if ((rows x =? r) || (rows x =? 1)) && ((cols x =? c) || (cols x =? 1))
  then Ok (mkT r c (fun i j => ent x (bidx (rows x) i) (bidx (cols x) j)))
  else Err RuntimeError.

(** [x.masked_fill(mask, v)] *)
Definition masked_fill {A} (x : tensor A) (m : tensor bool) (v : A)
  : result (tensor A) :=
  bcast (fun (a : A) (b : bool) => if b then v else a) x m.

(** [t[i]] followed by [.unsqueeze(0)]: row [i] as a [1 x cols] tensor. *)
Definition get_row {A} (t : tensor A) (i : nat) : tensor A :=
  mkT 1 (cols t) (fun _ j => ent t i j).

(** [torch.cat([x, y], dim=0)] *)
Definition cat0 {A} (x y : tensor A) : result (tensor A) :=
  if cols x =? cols y
  then Ok (mkT (rows x + rows y) (cols x)
             (fun i j => if i <? rows x then ent x i j else ent y (i - rows x) j))
  else Err RuntimeError.

(** [t[i] = v] for a [1 x c] tensor [v], broadcast along the row. *)
Definition set_row {A} (t : tensor A) (i : nat) (v : tensor A) : result (tensor A) :=
  if negb (i <? rows t) then Err IndexError
  else if (cols v =? cols t) || (cols v =? 1)
  then Ok (mkT (rows t) (cols t)
             (fun a b => if a =? i then ent v 0 (bidx (cols v) b) else ent t a b))
  else Err RuntimeError.

End Tensor.
Import Tensor.

(** ** Rational helpers *)

Open Scope Q_scope.

Definition qnat (n : nat) : Q := inject_Z (Z.of_nat n).

(** [sum_{i < n} f i] *)
Fixpoint qsum (n : nat) (f : nat -> Q) : Q :=
  match n with
  | O => 0
  | S k => qsum k f + f k
  end.

(** [x.sum(dim=0, keepdim=True)] *)
Definition sum0 (t : tensor Q) : tensor Q :=
  mkT 1 (cols t) (fun _ j => qsum (rows t) (fun i => ent t i j)).

(** [x.max(dim=0)[0]] (unsqueezed back to [1 x cols]); the reduction of an
    empty dimension is an error. *)
Fixpoint qmax_upto (n : nat) (f : nat -> Q) : Q :=
  match n with
  | O => f O
  | S k => Qmax (qmax_upto k f) (f (S k))
  end.

Definition max0 (t : tensor Q) : result (tensor Q) :=
  match rows t with
  | O => Err RuntimeError
  | S k => Ok (mkT 1 (cols t) (fun _ j => qmax_upto k (fun i => ent t i j)))
  end.

Definition b2q (b : bool) : Q := if b then 1 else 0.

(** ** utils/latency.py *)

Module Latency.

Fixpoint zsum (n : nat) (f : nat -> Z) : Z :=
  match n with
  | O => 0%Z
  | S k => (zsum k f + f k)%Z
  end.

(** [LatencyMetric.length_from_padding_mask]: [size(dim) - sum(dim, keepdim)]. *)
Definition length_from_padding_mask (padding_mask : tensor bool) (batch_first : bool)
  : tensor Z :=
  if batch_first then
    mkT (rows padding_mask) 1 (fun i _ =>
      (Z.of_nat (cols padding_mask)
       - zsum (cols padding_mask) (fun j => Z.b2z (ent padding_mask i j)))%Z)
  else
    mkT 1 (cols padding_mask) (fun _ j =>
      (Z.of_nat (rows padding_mask)
       - zsum (rows padding_mask) (fun i => Z.b2z (ent padding_mask i j)))%Z).

(** [.float()] *)
Definition to_float (t : tensor Z) : tensor Q := tmap inject_Z t.

(** The four values returned by [prepare_latency_metric]. *)
Record prepared := Prepared {
  p_delays : tensor Q;
  p_src_lens : tensor Q;
  p_tgt_lens : tensor Q;
  p_mask : option (tensor bool) }.

(** [LatencyMetric.prepare_latency_metric]. The assertions on
    [len(x.size()) == 2] hold of every 2-D tensor. The locals
    [tgt_len, bsz, bsz_1] are bound only inside the [batch_first] branch:
    [None] stands for the branch not taken, so that [assert bsz == bsz_1]
    reads unbound locals. *)
Definition prepare_latency_metric (delays src_lens : tensor Q)
    (target_padding_mask : option (tensor bool))
    (batch_first start_from_zero : bool) : result prepared :=
  let delays := if start_from_zero then tmap (fun d => d + 1) delays else delays in
  br <- (if batch_first then
           let delays := transpose delays in
           let src_lens := transpose src_lens in
           let '(tgt_len, bsz) := size delays in
           let '(_, bsz_1) := size src_lens in
           match target_padding_mask with
           | Some m =>
               let m := transpose m in
               let '(tgt_len_1, bsz_2) := size m in
               _ <- py_assert (tgt_len =? tgt_len_1)%nat ;;
               _ <- py_assert (bsz =? bsz_2)%nat ;;
               Ok (delays, src_lens, Some m, Some (tgt_len, bsz, bsz_1))
           | None => Ok (delays, src_lens, None, Some (tgt_len, bsz, bsz_1))
           end
         else Ok (delays, src_lens, target_padding_mask, None)) ;;
  let '(delays, src_lens, target_padding_mask, locals) := br in
  match locals with
  | None => Err UnboundLocalError
  | Some (tgt_len, bsz, bsz_1) =>
      _ <- py_assert (bsz =? bsz_1)%nat ;;
      match target_padding_mask with
      | None =>
          Ok (Prepared delays src_lens (mkT 1 bsz (fun _ _ => qnat tgt_len * 1)) None)
      | Some m =>
          let tgt_lens := to_float (length_from_padding_mask m false) in
          delays <- masked_fill delays m 0 ;;
          Ok (Prepared delays src_lens tgt_lens (Some m))
      end
  end.

(** [AverageProportion.cal_metric] *)
Definition ap_cal_metric (delays src_lens tgt_lens : tensor Q)
    (target_padding_mask : option (tensor bool)) : result (tensor Q) :=
  AP <- match target_padding_mask with
        | Some m => x <- masked_fill delays m 0 ;; Ok (sum0 x)
        | None => Ok (sum0 delays)
        end ;;
  den <- bcast Qmult src_lens tgt_lens ;;
  bcast Qdiv AP den.

(** [torch.arange(n).unsqueeze(1)] *)
Definition arange_col (n : nat) : tensor Q := mkT n 1 (fun i _ => qnat i).

(** [torch.nn.functional.pad(x, (1, 0))]: one [False] column on the left. *)
Definition pad_left1 (x : tensor bool) : tensor bool :=
  mkT (rows x) (S (cols x))
    (fun i j => match j with O => false | S j' => ent x i j' end).

(** [x[:-1, :]] *)
Definition drop_last_row {A} (x : tensor A) : tensor A :=
  mkT (rows x - 1) (cols x) (ent x).

(** [AverageLagging.cal_metric] *)
Definition al_cal_metric (delays src_lens tgt_lens : tensor Q)
    (target_padding_mask : option (tensor bool)) : result (tensor Q) :=
  lpm <- bcast (fun a b => Qle_bool b a) delays src_lens ;;
  let lpm := drop_last_row (transpose (pad_left1 (transpose lpm))) in
  gamma <- bcast Qdiv tgt_lens src_lens ;;
  ar <- expand (arange_col (rows delays)) (rows delays) (cols delays) ;;
  q <- bcast Qdiv ar gamma ;;
  lagging <- bcast Qminus delays q ;;
  lagging <- masked_fill lagging lpm 0 ;;
  let tau := sum0 (tmap (fun b => 1 - b2q b) lpm) in
  bcast Qdiv (sum0 lagging) tau.

Definition zeros_like (t : tensor Q) : tensor Q := mkT (rows t) (cols t) (fun _ _ => 0).

(** [1 / gamma] *)
Definition recip (g : tensor Q) : tensor Q := tmap (fun x => 1 / x) g.

(** One iteration [i] of the loop of [DifferentiableAverageLagging.cal_metric]. *)
Definition dal_body (delays gamma new_delays : tensor Q) (i : nat) : result (tensor Q) :=
  if (i =? 0)%nat then set_row new_delays 0 (get_row delays 0)
  else
    a <- bcast Qplus (get_row new_delays (i - 1)) (recip gamma) ;;
    c <- cat0 a (get_row delays i) ;;
    mx <- max0 c ;;
    set_row new_delays i mx.

(** The first [k] iterations of that loop. *)
Fixpoint dal_loop (delays gamma : tensor Q) (k : nat) : result (tensor Q) :=
  match k with
  | O => Ok (zeros_like delays)
  | S k' => nd <- dal_loop delays gamma k' ;; dal_body delays gamma nd k'
  end.

(** [DifferentiableAverageLagging.cal_metric] *)
Definition dal_cal_metric (delays src_lens tgt_lens : tensor Q)
    (target_padding_mask : option (tensor bool)) : result (tensor Q) :=
  gamma <- bcast Qdiv tgt_lens src_lens ;;
  new_delays <- dal_loop delays gamma (rows delays) ;;
  ar <- expand (arange_col (rows delays)) (rows delays) (cols delays) ;;
  q <- bcast Qdiv ar gamma ;;
  DAL <- bcast Qminus new_delays q ;;
  DAL <- match target_padding_mask with
         | Some m => masked_fill DAL m 0
         | None => Ok DAL
         end ;;
  bcast Qdiv (sum0 DAL) tgt_lens.

Inductive metric :=
| AverageProportion
| AverageLagging
| DifferentiableAverageLagging.

Definition cal_metric (M : metric) :=
  match M with
  | AverageProportion => ap_cal_metric
  | AverageLagging => al_cal_metric
  | DifferentiableAverageLagging => dal_cal_metric
  end.

(** [LatencyMetric.__call__] *)
Definition metric_call (M : metric) (delays src_lens : tensor Q)
    (target_padding_mask : option (tensor bool))
    (batch_first start_from_zero : bool) : result (tensor Q) :=
  p <- prepare_latency_metric delays src_lens target_padding_mask
         batch_first start_from_zero ;;
  cal_metric M (p_delays p) (p_src_lens p) (p_tgt_lens p) (p_mask p).

End Latency.

Module Inference.
Import Latency.
Local Open Scope string_scope.

(** A 3-D tensor [(bsz, m, tgt_len)]: [monotonic_step] after
    [.view(monotonic_step.size(0), -1, monotonic_step.size(-1))]. *)
Record tensor3 (A : Type) := mkT3 { dim0 : nat; dim1 : nat; dim2 : nat;
                                    ent3 : nat -> nat -> nat -> A }.
Arguments mkT3 {A} dim0 dim1 dim2 ent3.
Arguments dim0 {A} t.
Arguments dim1 {A} t.
Arguments dim2 {A} t.
Arguments ent3 {A} t _ _ _.

Fixpoint zmax_upto (n : nat) (f : nat -> Z) : Z :=
  match n with
  | O => f O
  | S k => Z.max (zmax_upto k f) (f (S k))
  end.

(** [.max(dim=1)[0]]; the reduction of an empty dimension is an error. *)
Definition max_dim1 (x : tensor3 Z) : result (tensor Z) :=
  match dim1 x with
  | O => Err RuntimeError
  | S k => Ok (mkT (dim0 x) (dim2 x) (fun b t => zmax_upto k (fun m => ent3 x b m t)))
  end.

Definition metric_calculator : list (string * metric) :=
  [("differentiable_average_lagging", DifferentiableAverageLagging);
   ("average_lagging", AverageLagging);
   ("average_proportion", AverageProportion)].

(** The loop filling [return_dict], in the insertion order of
    [self.metric_calculator]. *)
Fixpoint fill_dict (calc : list (string * metric)) (delays src_lens : tensor Q)
  : result (list (string * tensor Q)) :=
  match calc with
  | [] => Ok []
  | (key, func) :: rest =>
      v <- metric_call func delays src_lens None true true ;;
      d <- fill_dict rest delays src_lens ;;
      Ok ((key, transpose v) :: d)
  end.

(** [LatencyInference(start_from_zero).__call__(monotonic_step, src_lens)] *)
Definition latency_inference (start_from_zero : bool)
    (monotonic_step : tensor3 Z) (src_lens : tensor Z)
  : result (list (string * tensor Q)) :=
  let monotonic_step :=
    if start_from_zero then monotonic_step
    else mkT3 (dim0 monotonic_step) (dim1 monotonic_step) (dim2 monotonic_step)
           (fun a b c => (ent3 monotonic_step a b c - 1)%Z) in
  delays <- max_dim1 monotonic_step ;;
  ge <- bcast (fun a b => Z.leb b a) delays src_lens ;;
  kept <- masked_fill delays ge 0%Z ;;
  lt <- bcast Z.ltb delays src_lens ;;
  last <- expand (tmap (fun s => (s - 1)%Z) src_lens) (rows delays) (cols delays) ;;
  last <- masked_fill last lt 0%Z ;;
  delays <- bcast Z.add kept last ;;
  fill_dict metric_calculator (to_float delays) (to_float src_lens).

End Inference.

(** ** Spec-side definitions: the metrics' formulas as the claims state them *)

Module LatencySpec.
Import Latency.

(** [delays + 1] when [start_from_zero]. *)
Definition shift (start_from_zero : bool) (d : Q) : Q :=
  if start_from_zero then d + 1 else d.

(** Whether position [(i, j)] is masked by the target padding mask. *)
Definition masked (m : option (tensor bool)) (i j : nat) : bool :=
  match m with Some m => ent m i j | None => false end.

(** |y| of batch element [j]: [tgt_len] without a mask, else the number of
    its unmasked positions. *)
Definition tgt_length (m : option (tensor bool)) (tgt_len j : nat) : Q :=
  match m with
  | None => qnat tgt_len
  | Some m => qsum tgt_len (fun i => b2q (negb (ent m i j)))
  end.

(** The first (0-based) position [i < n] whose delay reaches [x]. *)
Fixpoint first_reach (n : nat) (d : nat -> Q) (x : Q) : option nat :=
  match n with
  | O => None
  | S k =>
      match first_reach k d x with
      | Some i => Some i
      | None => if Qle_bool x (d k) then Some k else None
      end
  end.

(** [tau] of Average Lagging: the 1-based index of the first delay reaching
    [|x|], or [tgt_len] if none does. *)
Definition al_tau (n : nat) (d : nat -> Q) (x : Q) : nat :=
  match first_reach n d x with Some k => S k | None => n end.

(** The adjusted delays of Differentiable Average Lagging, as the claim
    states them: [delays'_0 = delays_0],
    [delays'_i = max(delays_i, delays'_(i-1) + 1 / gamma)]. *)
Fixpoint dal_adjusted (d : nat -> Q) (gamma : Q) (i : nat) : Q :=
  match i with
  | O => d O
  | S k => Qmax (d (S k)) (dal_adjusted d gamma k + 1 / gamma)
  end.

(** Two tensors are equal as the program observes them: same shape, same
    entries at every in-range index. *)
Definition teq {A} (x y : tensor A) : Prop :=
  rows x = rows y /\ cols x = cols y /\
  forall i j, (i < rows x)%nat -> (j < cols x)%nat -> ent x i j = ent y i j.

(** Lifting of a relation to results: both succeed with related values, or
    both raise the same exception. *)
Definition rrel {A B} (R : A -> B -> Prop) (r1 : result A) (r2 : result B) : Prop :=
  match r1, r2 with
  | Ok a, Ok b => R a b
  | Err e1, Err e2 => e1 = e2
  | _, _ => False
  end.

(** The delays [LatencyInference] is described to compute: the maximum of
    [monotonic_step] over its middle dimension, replaced by [src_len - 1]
    where it reaches [src_len]. *)
Definition clamped_delays (ms : Inference.tensor3 Z) (src_lens : tensor Z) : tensor Z :=
  mkT (Inference.dim0 ms) (Inference.dim2 ms) (fun b t =>
    let d := Inference.zmax_upto (Inference.dim1 ms - 1)
               (fun m => Inference.ent3 ms b m t) in
    if (ent src_lens b 0 <=? d)%Z then (ent src_lens b 0 - 1)%Z else d).

End LatencySpec.

Module LatencyViews.
Import Latency.

(** Entry [(i, j)] of [lagging_padding_mask] in [AverageLagging.cal_metric]
    after the shift of line 117 ([pad] by one [False] in front, last row
    dropped): [False] at [i = 0], else [delays[i-1, j] >= src_lens[0, j]]. *)
Definition lagging_padding_mask (delays src_lens : tensor Q) (i j : nat) : bool :=
  match i with
  | O => false
  | S i' => Qle_bool (ent src_lens 0 j) (ent delays i' j)
  end.

End LatencyViews.

(** ** models/berard.py *)

(** The padding mask of [BerardEncoder.forward], from the output lengths of
    [pad_packed_sequence] (a 1-D tensor, here a list). *)
Module BerardEncoder.

(** [output_lengths.view(bsz, 1)] *)
Definition view_col (l : list Z) (bsz : nat) : result (tensor Z) :=
  if List.length l =? bsz then Ok (mkT bsz 1 (fun b _ => nth b l 0%Z))
  else Err RuntimeError.

(** [(torch.arange(output_seq_len).view(1, output_seq_len).expand(bsz, -1)
      >= output_lengths.view(bsz, 1).expand(-1, output_seq_len)).t()] *)
Definition encoder_padding_mask (output_seq_len bsz : nat) (output_lengths : list Z)
  : result (tensor bool) :=
  a <- expand (mkT 1 output_seq_len (fun _ t => Z.of_nat t)) bsz output_seq_len ;;
  l <- view_col output_lengths bsz ;;
  l <- expand l bsz output_seq_len ;;
  m <- bcast (fun x y => Z.leb y x) a l ;;
  Ok (transpose m).

End BerardEncoder.

(** The shape arithmetic of [BerardEncoder]: the LSTM input size computed by
    [__init__], the sizes the conv layers produce, and the input lengths that
    [forward] hands to [pack_padded_sequence]. *)
Module EncoderShapes.

(** An entry of [conv_layers]: [(out_channels, conv_kernel_size, conv_stride)]. *)
Definition conv_layer : Type := (nat * nat * nat)%type.

(** [l[-1]] on a Python list. *)
Definition py_last {A} (l : list A) : result A :=
  match rev l with [] => Err IndexError | x :: _ => Ok x end.

(** The size along one spatial dimension of the output of
    [nn.Conv2d(_, _, k, stride=s, padding=k // 2)] on an input of size [L]:
    [(L + 2 * (k // 2) - k) // s + 1]; PyTorch raises when the stride is not
    positive or the padded input is smaller than the kernel. *)
Definition conv_out (L k s : nat) : result nat :=
  if (s =? 0)%nat || (L + 2 * (k / 2) <? k)%nat then Err RuntimeError
  else Ok ((L + 2 * (k / 2) - k) / s + 1)%nat.

(** [for conv_layer in self.conv_layers: x = conv_layer(x)], along one
    spatial dimension. *)
Fixpoint conv_stack (L : nat) (convs : list conv_layer) : result nat :=
  match convs with
  | [] => Ok L
  | (_, k, s) :: rest => L' <- conv_out L k s ;; conv_stack L' rest
  end.

(** The channels of [x] after the conv layers. *)
Fixpoint out_channels_of (in_channels : nat) (convs : list conv_layer) : nat :=
  match convs with
  | [] => in_channels
  | (c, _, _) :: rest => out_channels_of c rest
  end.

(** The last dimension of [x] after
    [x.transpose(1, 2).transpose(0, 1).contiguous().view(output_seq_len, bsz, -1)]:
    channels times the feature size the conv layers leave of [feat], the
    size of the last input layer. *)
Definition conv_feature_dim (in_channels feat : nat) (convs : list conv_layer) : result nat :=
  w <- conv_stack feat convs ;;
  Ok (out_channels_of in_channels convs * w)%nat.

(** [lstm_input_dim] of [BerardEncoder.__init__]:
    [input_layers[-1]], divided ([//]) by each conv stride, times
    [conv_layers[-1][0]]. A stride 0 raises [ZeroDivisionError] in Python;
    the statements below assume positive strides. *)
Definition init_lstm_input_dim (input_layers : list nat) (conv_layers : list conv_layer)
  : result nat :=
  lstm_input_dim <- py_last input_layers ;;
  let lstm_input_dim :=
    fold_left (fun w (cl : conv_layer) => let '(_, _, s) := cl in (w / s)%nat)
      conv_layers lstm_input_dim in
  last_conv <- py_last conv_layers ;;
  let '(c, _, _) := last_conv in
  Ok (lstm_input_dim * c)%nat.

(** Each conv layer has an odd kernel and a stride dividing the feature size
    it receives. *)
Fixpoint exact_convs (w : nat) (convs : list conv_layer) : bool :=
  match convs with
  | [] => true
  | (_, k, s) :: rest => Nat.odd k && (w mod s =? 0)%nat && exact_convs (w / s) rest
  end.

(** [subsampling_factor = int(max_seq_len * 1.0 / output_seq_len + 0.5)],
    over exact rationals ([int] truncates a non-negative value). *)
Definition subsampling_factor (max_seq_len output_seq_len : nat) : Z :=
  Qfloor (qnat max_seq_len * 1 / qnat output_seq_len + (1 # 2)).

(** [(src_lengths.float() / subsampling_factor).ceil().long()], one entry. *)
Definition input_length (src_length factor : Z) : Z :=
  Qceiling (inject_Z src_length / inject_Z factor).

(** [output_seq_len] and [input_lengths] of [BerardEncoder.forward] for a
    batch padded to [max_seq_len] frames. *)
Definition input_lengths (convs : list conv_layer) (max_seq_len : nat) (src_lengths : list Z)
  : result (nat * list Z) :=
  output_seq_len <- conv_stack max_seq_len convs ;;
  let f := subsampling_factor max_seq_len output_seq_len in
  Ok (output_seq_len, map (fun l => input_length l f) src_lengths).

(** The [conv_layers] default of [berard_ast] and [berard_enconly]:
    ["[(16, 3, 2), (16, 3, 2)]"]. *)
Definition default_conv_layers : list conv_layer := [(16, 3, 2); (16, 3, 2)]%nat.

End EncoderShapes.

(** [MLPAttention.forward], over the reals. *)
Module Attention.
Import Inference.
Local Open Scope R_scope.

Fixpoint rsum (n : nat) (f : nat -> R) : R :=
  match n with
  | O => 0
  | S k => rsum k f + f k
  end.

(** An entry of the scores after [masked_fill_(mask, float("-inf"))]. *)
Inductive xreal := Fin (r : R) | NegInf.

(** A float that may be NaN ([None]). *)
Definition fl := option R.

(** The parameters of an [MLPAttention] module: [encoder_proj] (weight
    [attention_dim x context_dim] and bias), [decoder_proj] (weight
    [attention_dim x decoder_hidden_state_dim], no bias) and [to_scores]
    (weight [1 x attention_dim], no bias). *)
Record mlp_attention := MLPAttention {
  decoder_hidden_state_dim : nat;
  context_dim : nat;
  attention_dim : nat;
  encoder_proj_weight : nat -> nat -> R;
  encoder_proj_bias : nat -> R;
  decoder_proj_weight : nat -> nat -> R;
  to_scores_weight : nat -> nat -> R }.

(** [nn.Linear(in_features, out_features)] on the rows of [x]:
    [y[r][o] = sum_i x[r][i] * W[o][i] + b[o]]. *)
Definition linear (in_features out_features : nat) (w : nat -> nat -> R)
    (b : option (nat -> R)) (x : tensor R) : result (tensor R) :=
  if (cols x =? in_features)%nat
  then Ok (mkT (rows x) out_features (fun r o =>
         rsum in_features (fun i => ent x r i * w o i)
         + match b with Some b => b o | None => 0 end))
  else Err RuntimeError.

(** Row-major (contiguous) flat indexing, which [view] reinterprets. *)
Definition flat2 {A} (x : tensor A) (k : nat) : A :=
  ent x (k / cols x) (k mod cols x).

Definition flat3 {A} (x : tensor3 A) (k : nat) : A :=
  ent3 x (k / (dim1 x * dim2 x)) ((k / dim2 x) mod dim1 x) (k mod dim2 x).

Definition numel3 {A} (x : tensor3 A) : nat := (dim0 x * dim1 x * dim2 x)%nat.

(** [x.view(-1, c)] of a 3-D tensor. *)
Definition view3_2 {A} (x : tensor3 A) (c : nat) : result (tensor A) :=
  if (c =? 0)%nat || negb (numel3 x mod c =? 0)%nat then Err RuntimeError
  else Ok (mkT (numel3 x / c) c (fun r j => flat3 x (r * c + j))).

(** [x.view(a, b, c)] of a 2-D tensor. *)
Definition view2_3 {A} (x : tensor A) (a b c : nat) : result (tensor3 A) :=
  if (rows x * cols x =? a * b * c)%nat
  then Ok (mkT3 a b c (fun i j k => flat2 x ((i * b + j) * c + k)))
  else Err RuntimeError.

(** [x.view(a, b)] of a 2-D tensor. *)
Definition view2_2 {A} (x : tensor A) (a b : nat) : result (tensor A) :=
  if (rows x * cols x =? a * b)%nat
  then Ok (mkT a b (fun i j => flat2 x (i * b + j)))
  else Err RuntimeError.

(** [x.unsqueeze(0)] and [x.unsqueeze(2)] *)
Definition unsqueeze0 {A} (x : tensor A) : tensor3 A :=
  mkT3 1 (rows x) (cols x) (fun _ i j => ent x i j).

Definition unsqueeze2 {A} (x : tensor A) : tensor3 A :=
  mkT3 (rows x) (cols x) 1 (fun i j _ => ent x i j).

(** Broadcasting elementwise operation on 3-D tensors. *)
Definition bcast3 {A B C} (f : A -> B -> C) (x : tensor3 A) (y : tensor3 B)
  : result (tensor3 C) :=
  match bdim (dim0 x) (dim0 y), bdim (dim1 x) (dim1 y), bdim (dim2 x) (dim2 y) with
  | Some a, Some b, Some c =>
      Ok (mkT3 a b c (fun i j k =>
            f (ent3 x (bidx (dim0 x) i) (bidx (dim1 x) j) (bidx (dim2 x) k))
              (ent3 y (bidx (dim0 y) i) (bidx (dim1 y) j) (bidx (dim2 y) k))))
  | _, _, _ => Err RuntimeError
  end.

Definition map3 {A B} (f : A -> B) (x : tensor3 A) : tensor3 B :=
  mkT3 (dim0 x) (dim1 x) (dim2 x) (fun i j k => f (ent3 x i j k)).

Definition xexp (x : xreal) : R :=
  match x with Fin r => exp r | NegInf => 0 end.

Definition is_neginf (x : xreal) : bool :=
  match x with Fin _ => false | NegInf => true end.

Fixpoint all_upto (n : nat) (p : nat -> bool) : bool :=
  match n with
  | O => true
  | S k => all_upto k p && p k
  end.

(** [F.softmax(x, dim=0)]: [exp x_i / sum_k exp x_k], with [exp(-inf) = 0];
    a column of [-inf] only gives NaN. *)
Definition softmax0 (x : tensor xreal) : tensor fl :=
  mkT (rows x) (cols x) (fun i j =>
    if all_upto (rows x) (fun k => is_neginf (ent x k j)) then None
    else Some (xexp (ent x i j) / rsum (rows x) (fun k => xexp (ent x k j)))).

Definition fmul (a : R) (b : fl) : fl := option_map (fun b => a * b) b.

Fixpoint fsum (n : nat) (f : nat -> fl) : fl :=
  match n with
  | O => Some 0
  | S k => match fsum k f, f k with
           | Some a, Some b => Some (a + b)
           | _, _ => None
           end
  end.

(** [x.sum(dim=0)] of a 3-D tensor. *)
Definition sum_dim0 (x : tensor3 fl) : tensor fl :=
  mkT (dim1 x) (dim2 x) (fun j k => fsum (dim0 x) (fun i => ent3 x i j k)).

(** [MLPAttention.forward(decoder_state, source_hids, encoder_padding_mask)];
    returns [(attn_weighted_context, normalized_masked_attn_scores)]. *)
Definition forward (self : mlp_attention) (decoder_state : tensor R)
    (source_hids : tensor3 R) (encoder_padding_mask : option (tensor bool))
  : result (tensor fl * tensor fl) :=
  let src_len := dim0 source_hids in
  let bsz := dim1 source_hids in
  flat_source_hids <- view3_2 source_hids (context_dim self) ;;
  encoder_component <- linear (context_dim self) (attention_dim self)
                         (encoder_proj_weight self) (Some (encoder_proj_bias self))
                         flat_source_hids ;;
  encoder_component <- view2_3 encoder_component src_len bsz (attention_dim self) ;;
  decoder_component <- linear (decoder_hidden_state_dim self) (attention_dim self)
                         (decoder_proj_weight self) None decoder_state ;;
  let decoder_component := unsqueeze0 decoder_component in
  s <- bcast3 Rplus decoder_component encoder_component ;;
  s <- view3_2 s (attention_dim self) ;;
  let hidden_att := tmap tanh s in
  attn_scores <- linear (attention_dim self) 1 (to_scores_weight self) None hidden_att ;;
  attn_scores <- view2_2 attn_scores src_len bsz ;;
  let attn_scores := tmap Fin attn_scores in
  attn_scores <- match encoder_padding_mask with
                 | Some m => masked_fill attn_scores m NegInf
                 | None => Ok attn_scores
                 end ;;
  let normalized_masked_attn_scores := softmax0 attn_scores in
  w <- bcast3 fmul source_hids (unsqueeze2 normalized_masked_attn_scores) ;;
  Ok (sum_dim0 w, normalized_masked_attn_scores).

End Attention.

(** The attention as the docstring of [MLPAttention] writes it. *)
Module AttentionSpec.
Import Inference Attention.
Local Open Scope R_scope.

Definition is_masked (m : option (tensor bool)) (i b : nat) : bool :=
  match m with Some m => ent m i b | None => false end.

(** [alpha_ij = V_a * tanh(W_ae * enc_i + W_ad * dec_j + b_a)] for source
    position [i] and batch element [b]. *)
Definition score (self : mlp_attention) (dec : tensor R) (enc : tensor3 R) (i b : nat) : R :=
  rsum (attention_dim self) (fun a =>
    to_scores_weight self 0 a *
    tanh (rsum (context_dim self) (fun c => encoder_proj_weight self a c * ent3 enc i b c)
          + rsum (decoder_hidden_state_dim self) (fun d => decoder_proj_weight self a d * ent dec b d)
          + encoder_proj_bias self a)).

(** The softmax over source positions of the scores, the masked positions
    set to [-inf]. *)
Definition weight (self : mlp_attention) (dec : tensor R) (enc : tensor3 R)
    (m : option (tensor bool)) (i b : nat) : R :=
  if is_masked m i b then 0
  else exp (score self dec enc i b) /
       rsum (dim0 enc) (fun k => if is_masked m k b then 0 else exp (score self dec enc k b)).

End AttentionSpec.

(** [BerardEncoder.reorder_encoder_out] *)

Module Reorder.
Import Inference Attention.




(** The dict returned by [BerardEncoder.forward]: ["encoder_out"] of shape
    [(T, B, C)] and ["encoder_padding_mask"] of shape [(T, B)]. *)
Record encoder_out := EncoderOut {
  eo_encoder_out : tensor3 R;
  eo_encoder_padding_mask : tensor bool }.


End Reorder.

(** [LSTMDecoder.forward]. The cells, the attention, the embedding, the
    dropout and the output layers are left abstract; [V] is the type of a
    batch of vectors at one time step, [Tok] of a column of target tokens,
    [Enc] of [encoder_out] (its [encoder_out] and [encoder_padding_mask]). *)
Module Decoder.

Record lstm_decoder (Tok V Enc : Type) := LSTMDecoder {
  embed_tokens : Tok -> V;
  (** [self.dropout]: [None] when the dropout probability is 0 *)
  dropout : option (V -> V);
  (** [self.layers]: [nn.LSTMCell]s, [input, (h, c) -> (h', c')] *)
  layers : list (V -> V * V -> V * V);
  (** [x.new_zeros(bsz, self.hidden_size)] *)
  new_zeros : V;
  (** [self.attention(hidden, encoder_outs, encoder_padding_mask)] *)
  attention : V -> Enc -> V * V;
  (** [self.deep_output_layer] on [torch.cat((x, attention_outs_concat,
      embeddings), dim=2)], position by position *)
  deep_output_layer : V -> V -> V -> V;
  vtanh : V -> V;
  output_projection : V -> V }.
Arguments LSTMDecoder {Tok V Enc}.
Arguments embed_tokens {Tok V Enc} _ _.
Arguments dropout {Tok V Enc} _.
Arguments layers {Tok V Enc} _.
Arguments new_zeros {Tok V Enc} _.
Arguments attention {Tok V Enc} _ _ _.
Arguments deep_output_layer {Tok V Enc} _ _ _ _.
Arguments vtanh {Tok V Enc} _ _.
Arguments output_projection {Tok V Enc} _ _.

(** The function-level locals that the loops update. [hidden] is [None]
    while unbound. *)
Record fstate (V : Type) := FState {
  prev_hiddens : list V;
  prev_cells : list V;
  hidden : option V;
  outs : list V;
  attention_outs : list V }.
Arguments FState {V}.
Arguments prev_hiddens {V}.
Arguments prev_cells {V}.
Arguments hidden {V}.
Arguments outs {V}.
Arguments attention_outs {V}.

(** The cached state: [(prev_hiddens, prev_cells)]. *)
Definition cache (V : Type) : Type := (list V * list V)%type.

Section Forward.
Context {Tok V Enc : Type}.
Variable self : lstm_decoder Tok V Enc.
Variable encoder_out : Enc.

Definition num_layers : nat := List.length (layers self).

Definition apply_dropout (x : V) : V :=
  match dropout self with Some f => f x | None => x end.

(** [l[i]] and [l[i] = v] on a Python list. *)
Definition list_get (l : list V) (i : nat) : result V :=
  match nth_error l i with Some v => Ok v | None => Err IndexError end.

Definition list_set (l : list V) (i : nat) (v : V) : result (list V) :=
  if (i <? List.length l)%nat then Ok (firstn i l ++ v :: skipn (S i) l)
  else Err IndexError.

(** [(i - 1) % self.num_layers], Python's modulo. *)
Definition prev_layer (i : nat) : nat :=
  Z.to_nat (Z.modulo (Z.of_nat i - 1) (Z.of_nat num_layers)).

(** [for i, layer in enumerate(self.layers): ...], from layer [i] on. *)
Fixpoint layer_loop (ls : list (V -> V * V -> V * V)) (i : nat)
    (input : V) (attention_out : option V) (st : fstate V) : result (fstate V) :=
  match ls with
  | [] => Ok st
  | layer :: rest =>
      ph <- list_get (prev_hiddens st) (prev_layer i) ;;
      pc <- list_get (prev_cells st) (prev_layer i) ;;
      let '(h, cell) := layer input (ph, pc) in
      let h := apply_dropout h in
      phs <- list_set (prev_hiddens st) i h ;;
      pcs <- list_set (prev_cells st) i cell ;;
      let '(ao, aouts) :=
        match attention_out with
        | None =>
            let '(a, _) := attention self h encoder_out in
            let a := apply_dropout a in
            (a, attention_outs st ++ [a])
        | Some a => (a, attention_outs st)
        end in
      layer_loop rest (S i) ao (Some ao) (FState phs pcs (Some h) (outs st) aouts)
  end.

(** [for j in range(seqlen): ...] *)
Fixpoint time_loop (xs : list V) (st : fstate V) : result (fstate V) :=
  match xs with
  | [] => Ok st
  | x :: xs' =>
      st <- layer_loop (layers self) 0 x None st ;;
      h <- match hidden st with Some h => Ok h | None => Err UnboundLocalError end ;;
      time_loop xs' (FState (prev_hiddens st) (prev_cells st) (hidden st)
                            (outs st ++ [h]) (attention_outs st))
  end.

(** [torch.cat(l, dim=0)]: the empty list raises. *)
Definition py_cat (l : list V) : result (list V) :=
  match l with [] => Err RuntimeError | _ => Ok l end.

Fixpoint zip3 {A B C D} (f : A -> B -> C -> D) (xs : list A) (ys : list B) (zs : list C)
  : list D :=
  match xs, ys, zs with
  | x :: xs, y :: ys, z :: zs => f x y z :: zip3 f xs ys zs
  | _, _, _ => []
  end.

(** [LSTMDecoder.forward(prev_output_tokens, encoder_out, incremental_state)].
    [prev_output_tokens] is the list of its columns. [incremental_state] is
    [None] when not given, else the cached state ([None] before the first
    call); the function returns the logits of each processed position with
    the incremental state after the call. *)
Definition forward (prev_output_tokens : list Tok)
    (incremental_state : option (option (cache V)))
  : result (list V * option (option (cache V))) :=
  let prev_output_tokens :=
    match incremental_state with
    | Some _ => skipn (List.length prev_output_tokens - 1) prev_output_tokens
    | None => prev_output_tokens
    end in
  let seqlen := List.length prev_output_tokens in
  let embeddings := map (embed_tokens self) prev_output_tokens in
  let x := map apply_dropout embeddings in
  let cached_state := match incremental_state with Some c => c | None => None end in
  (* the locals [prev_hiddens, prev_cells] *)
  let '(hs0, cs0) :=
    match cached_state with
    | Some c => c
    | None => (repeat (new_zeros self) num_layers, repeat (new_zeros self) num_layers)
    end in
  st <- time_loop x (FState hs0 cs0 None [] []) ;;
  let incremental_state :=
    option_map (fun _ => Some (prev_hiddens st, prev_cells st)) incremental_state in
  xs <- py_cat (outs st) ;;
  aos <- py_cat (attention_outs st) ;;
  if negb (List.length aos =? seqlen)%nat then Err RuntimeError
  else
    Ok (zip3 (fun h a e =>
              output_projection self (apply_dropout (vtanh self (deep_output_layer self h a e))))
             xs aos embeddings,
        incremental_state).

(** Incremental decoding: [forward] on the growing prefix [done ++ [t]],
    threading [incremental_state] from call to call. *)
Fixpoint incremental_decode (done rest : list Tok) (incremental_state : option (option (cache V)))
  : result (list (list V)) :=
  match rest with
  | [] => Ok []
  | t :: rest' =>
      r <- forward (done ++ [t]) incremental_state ;;
      ys <- incremental_decode (done ++ [t]) rest' (snd r) ;;
      Ok (fst r :: ys)
  end.

End Forward.
End Decoder.

(** The wiring of the stacked cells as the documentation describes it. *)
Module DecoderSpec.
Import Decoder.

Section Spec.
Context {Tok V Enc : Type}.
Variable self : lstm_decoder Tok V Enc.
Variable encoder_out : Enc.

(** Layers above the first: each takes the context as input and, as its
    previous state, the state just emitted by the layer below. *)
Fixpoint upper_layers (ls : list (V -> V * V -> V * V)) (ctx : V) (below : V * V)
  : list (V * V) :=
  match ls with
  | [] => []
  | l :: ls' =>
      let '(h, c) := l ctx below in
      let h := apply_dropout self h in
      (h, c) :: upper_layers ls' ctx (h, c)
  end.

(** One time step: the first layer takes the input and the state of the top
    layer at the previous update; the context is computed from its new
    hidden state. Returns the new hidden and cell states of all layers, the
    context and the output (the top hidden state). *)
Definition step_spec (l0 : V -> V * V -> V * V) (ls : list (V -> V * V -> V * V))
    (x : V) (hs cs : list V) : list V * list V * V * V :=
  let n := S (List.length ls) in
  let '(h0, c0) := l0 x (nth (n - 1) hs (new_zeros self), nth (n - 1) cs (new_zeros self)) in
  let h0 := apply_dropout self h0 in
  let ctx := apply_dropout self (fst (attention self h0 encoder_out)) in
  let up := upper_layers ls ctx (h0, c0) in
  let hs' := h0 :: map fst up in
  (hs', c0 :: map snd up, ctx, last hs' h0).

Definition timestep_spec (x : V) (hs cs : list V) : option (list V * list V * V * V) :=
  match layers self with
  | [] => None
  | l0 :: ls => Some (step_spec l0 ls x hs cs)
  end.

(** The time steps in sequence: final states, outputs and contexts. *)
Fixpoint steps_spec (l0 : V -> V * V -> V * V) (ls : list (V -> V * V -> V * V))
    (xs : list V) (hs cs : list V) : list V * list V * list V * list V :=
  match xs with
  | [] => (hs, cs, [], [])
  | x :: xs' =>
      let '(hs1, cs1, ctx, y) := step_spec l0 ls x hs cs in
      let '(hs2, cs2, ys, ctxs) := steps_spec l0 ls xs' hs1 cs1 in
      (hs2, cs2, y :: ys, ctx :: ctxs)
  end.

End Spec.
End DecoderSpec.

(** ** Lemmas on the tensor model *)

Module TensorFacts.

Lemma bidx_lt (n i : nat) : (i < n)%nat -> bidx n i = i.
Proof.
  unfold bidx; intros H; destruct (Nat.eqb_spec n 1); lia.
Qed.

Lemma bidx_1 (i : nat) : bidx 1 i = 0%nat.
Proof. reflexivity. Qed.

Lemma bdim_same (n : nat) : bdim n n = Some n.
Proof. unfold bdim; now rewrite Nat.eqb_refl. Qed.

Lemma bdim_1l (n : nat) : bdim 1 n = Some n.
Proof. unfold bdim; destruct (Nat.eqb_spec 1 n); subst; reflexivity. Qed.

Lemma bdim_1r (n : nat) : bdim n 1 = Some n.
Proof.
  unfold bdim; destruct (Nat.eqb_spec n 1); [now subst|].
  destruct (Nat.eqb_spec n 1); [contradiction|reflexivity].
Qed.

Lemma bcast_ok {A B C} (f : A -> B -> C) (x : tensor A) (y : tensor B) r c :
  bdim (rows x) (rows y) = Some r -> bdim (cols x) (cols y) = Some c ->
  bcast f x y =
  Ok (mkT r c (fun i j =>
        f (ent x (bidx (rows x) i) (bidx (cols x) j))
          (ent y (bidx (rows y) i) (bidx (cols y) j)))).
Proof. intros Hr Hc; unfold bcast; now rewrite Hr, Hc. Qed.

Lemma qsum_ext (n : nat) (f g : nat -> Q) :
  (forall i, (i < n)%nat -> f i = g i) -> qsum n f = qsum n g.
Proof.
  induction n as [|n IH]; intros H; simpl; [reflexivity|].
  rewrite IH by (intros; apply H; lia). now rewrite H by lia.
Qed.

Lemma qsum_ext_eq (n : nat) (f g : nat -> Q) :
  (forall i, (i < n)%nat -> f i == g i) -> qsum n f == qsum n g.
Proof.
  induction n as [|n IH]; intros H; simpl; [reflexivity|].
  rewrite IH by (intros; apply H; lia). now rewrite H by lia.
Qed.

Lemma zsum_ext (n : nat) (f g : nat -> Z) :
  (forall i, (i < n)%nat -> f i = g i) -> Latency.zsum n f = Latency.zsum n g.
Proof.
  induction n as [|n IH]; intros H; simpl; [reflexivity|].
  rewrite IH by (intros; apply H; lia). now rewrite H by lia.
Qed.

Lemma inject_Z_zsum (n : nat) (f : nat -> Z) :
  inject_Z (Latency.zsum n f) == qsum n (fun i => inject_Z (f i)).
Proof.
  induction n as [|n IH]; simpl; [reflexivity|].
  now rewrite inject_Z_plus, IH.
Qed.

Lemma zsum_count (n : nat) (f : nat -> bool) :
  (Z.of_nat n - Latency.zsum n (fun i => Z.b2z (f i)))%Z
  = Latency.zsum n (fun i => Z.b2z (negb (f i))).
Proof.
  induction n as [|n IH]; cbn [Latency.zsum]; [reflexivity|].
  rewrite <- IH, Nat2Z.inj_succ. destruct (f n); cbn [Z.b2z negb]; lia.
Qed.

End TensorFacts.
Import TensorFacts.

(** ** The metrics against their formulas *)

Module LatencyFacts.
Import Latency LatencySpec.

Ltac solve_bdim :=
  simpl;
  repeat match goal with
  | H : rows ?x = _ |- context [rows ?x] => rewrite H
  | H : cols ?x = _ |- context [cols ?x] => rewrite H
  end;
  rewrite ?Nat.sub_0_r;
  first [apply bdim_same | apply bdim_1r | apply bdim_1l].

Ltac case_asserts H :=
  repeat match type of H with
  | context [Nat.eqb ?a ?b] =>
      let E := fresh "E" in
      destruct (Nat.eqb_spec a b) as [E|E]; simpl in H; [|discriminate H]
  end.

Lemma prepare_spec d0 s0 mask bf sfz p :
  prepare_latency_metric d0 s0 mask bf sfz = Ok p ->
  bf = true /\ rows s0 = rows d0 /\
  p_src_lens p = transpose s0 /\
  p_mask p = option_map transpose mask /\
  (forall m, mask = Some m -> rows m = rows d0 /\ cols m = cols d0) /\
  rows (p_delays p) = cols d0 /\ cols (p_delays p) = rows d0 /\
  rows (p_tgt_lens p) = 1%nat /\ cols (p_tgt_lens p) = rows d0 /\
  (forall j, (j < rows d0)%nat ->
     ent (p_tgt_lens p) 0 j == tgt_length (p_mask p) (cols d0) j) /\
  (forall i j, (i < cols d0)%nat -> (j < rows d0)%nat ->
     ent (p_delays p) i j =
     if masked (p_mask p) i j then 0 else shift sfz (ent d0 j i)).
Proof.
  intros H.
  destruct bf; [|destruct sfz; discriminate H].
  assert (Hd : exists d1, (if sfz then tmap (fun d => d + 1) d0 else d0) = d1
            /\ rows d1 = rows d0 /\ cols d1 = cols d0
            /\ forall i j, ent d1 i j = shift sfz (ent d0 i j))
    by (destruct sfz; eexists; repeat split; reflexivity).
  destruct Hd as (d1 & Ed1 & Hr & Hc & He).
  unfold prepare_latency_metric in H; rewrite Ed1 in H.
  destruct mask as [m|]; simpl in H; rewrite ?Hr, ?Hc in H.
  - case_asserts H. unfold masked_fill in H.
    rewrite (bcast_ok _ _ _ (cols d0) (rows d0)) in H
      by (simpl; rewrite ?Hr, ?Hc, <- ?E, <- ?E0; apply bdim_same).
    simpl in H. injection H as <-. simpl.
    repeat split; auto; try congruence.
    + intros j Hj. unfold to_float, tmap, length_from_padding_mask; simpl.
      rewrite zsum_count, inject_Z_zsum, E.
      apply qsum_ext_eq; intros i _; now destruct (ent m j i).
    + intros i j Hi Hj. rewrite Hr, Hc, <- E, <- E0, !bidx_lt by lia.
      now rewrite He.
  - case_asserts H.
    injection H as <-. simpl.
    repeat split; auto; try congruence.
    + intros j Hj. unfold qnat; ring.
Qed.

Lemma first_reach_none n d x :
  first_reach n d x = None -> forall i, (i < n)%nat -> ~ x <= d i.
Proof.
  induction n as [|n IH]; intros H i Hi Hx; [lia|]. simpl in H.
  destruct (first_reach n d x); [discriminate|].
  destruct (Qle_bool x (d n)) eqn:Hle; [discriminate|].
  destruct (Nat.eq_dec i n) as [->|].
  - apply Qle_bool_iff in Hx. congruence.
  - exact (IH eq_refl i ltac:(lia) Hx).
Qed.

Lemma first_reach_some n d x k :
  first_reach n d x = Some k ->
  (k < n)%nat /\ x <= d k /\ forall i, (i < k)%nat -> ~ x <= d i.
Proof.
  revert k; induction n as [|n IH]; intros k H; simpl in H; [discriminate|].
  destruct (first_reach n d x) as [k'|] eqn:E.
  - injection H as <-. destruct (IH k' eq_refl) as (? & ? & ?). split; [lia|auto].
  - destruct (Qle_bool x (d n)) eqn:Hle; [|discriminate].
    injection H as <-. apply Qle_bool_iff in Hle. repeat split; auto.
    exact (first_reach_none _ _ _ E).
Qed.

(** Truncating a sum at [tau <= n]. *)
Lemma qsum_cut n tau (f : nat -> Q) :
  (tau <= n)%nat ->
  qsum n (fun i => if (tau <=? i)%nat then 0 else f i) == qsum tau f.
Proof.
  induction n as [|n IH]; intros H.
  - now replace tau with 0%nat by lia.
  - destruct (Nat.eq_dec tau (S n)) as [->|Hne].
    + cbn [qsum]. apply Qplus_comp; [|now rewrite (proj2 (Nat.leb_gt (S n) n)) by lia].
      apply qsum_ext_eq. intros i Hi. now rewrite (proj2 (Nat.leb_gt (S n) i)) by lia.
    + cbn [qsum]. rewrite IH by lia. rewrite (proj2 (Nat.leb_le tau n)) by lia. ring.
Qed.

(** The shifted mask of [AverageLagging] is [i >= tau] on monotone delays. *)
Lemma al_mask_tau n (d : nat -> Q) x :
  (forall i, (S i < n)%nat -> d i <= d (S i)) ->
  (al_tau n d x <= n)%nat /\
  forall i, (i < n)%nat ->
    match i with O => false | S i' => Qle_bool x (d i') end = (al_tau n d x <=? i)%nat.
Proof.
  intros Hmono. unfold al_tau.
  destruct (first_reach n d x) as [k|] eqn:E.
  - destruct (first_reach_some _ _ _ _ E) as (Hk & Hxk & Hbefore).
    split; [lia|]. intros [|i] Hi; [reflexivity|].
    destruct (Nat.leb_spec (S k) (S i)) as [Hle|Hgt].
    + apply Qle_bool_iff. apply Qle_trans with (d k); [assumption|].
      assert (Hm : forall m, (k + m < n)%nat -> d k <= d (k + m)%nat).
      { induction m as [|m IHm]; intros Hm.
        - rewrite Nat.add_0_r. apply Qle_refl.
        - apply Qle_trans with (d (k + m)%nat); [apply IHm; lia|].
          replace (k + S m)%nat with (S (k + m)) by lia. apply Hmono; lia. }
      replace i with (k + (i - k))%nat by lia. apply Hm; lia.
    + destruct (Qle_bool x (d i)) eqn:Hq; [|reflexivity].
      apply Qle_bool_iff in Hq. exfalso. exact (Hbefore i ltac:(lia) Hq).
  - split; [lia|]. intros [|i] Hi; [now destruct n|].
    rewrite (proj2 (Nat.leb_gt n (S i))) by lia.
    destruct (Qle_bool x (d i)) eqn:Hq; [|reflexivity].
    apply Qle_bool_iff in Hq. exfalso. exact (first_reach_none _ _ _ E i ltac:(lia) Hq).
Qed.

(** C5: with [batch_first=False] (the default), any of the three metrics
    raises before computing anything, since [assert bsz == bsz_1] reads
    locals bound only in the [batch_first] branch; a metric returns
    normally only when called with [batch_first=True] and with [delays] and
    [src_lens] of the same batch size. *)
Theorem metric_call_batch_first : forall M d0 s0 mask sfz,
  prepare_latency_metric d0 s0 mask false sfz = Err UnboundLocalError /\
  metric_call M d0 s0 mask false sfz = Err UnboundLocalError /\
  (forall bf r, metric_call M d0 s0 mask bf sfz = Ok r ->
     bf = true /\ rows d0 = rows s0).
Proof.
  intros M d0 s0 mask sfz.
  assert (Hp : prepare_latency_metric d0 s0 mask false sfz = Err UnboundLocalError)
    by (destruct sfz; reflexivity).
  split; [exact Hp|]. split.
  - unfold metric_call; now rewrite Hp.
  - intros bf r H. unfold metric_call in H.
    destruct (prepare_latency_metric d0 s0 mask bf sfz) as [p|e] eqn:Ep;
      [|discriminate H].
    apply prepare_spec in Ep. destruct Ep as (-> & Hrows & _). auto.
Qed.

(** C1: on the delays, source lengths and target lengths produced by
    [prepare_latency_metric], [AverageProportion.cal_metric] returns for each
    batch element [j] the value [AP = 1 / (|x| |y|) * sum_i delays_i], the
    positions masked by the target padding mask contributing 0; [|x|] is the
    source length of [j] and [|y|] its target length (the number of unmasked
    positions, or [tgt_len] without a mask). *)
Theorem average_proportion_cal_metric : forall d0 s0 mask bf sfz p,
  cols s0 = 1%nat ->
  prepare_latency_metric d0 s0 mask bf sfz = Ok p ->
  exists R,
    ap_cal_metric (p_delays p) (p_src_lens p) (p_tgt_lens p) (p_mask p) = Ok R /\
    rows R = 1%nat /\ cols R = rows d0 /\
    forall j, (j < rows d0)%nat ->
      ent R 0 j ==
      1 / (ent s0 j 0 * tgt_length (p_mask p) (cols d0) j)
        * qsum (cols d0) (fun i => if masked (p_mask p) i j then 0 else ent (p_delays p) i j).
Proof.
  intros d0 s0 mask bf sfz p Hs1 Hp.
  pose proof (prepare_spec _ _ _ _ _ _ Hp) as
    (_ & Hsr & Hsrc & Hm & Hmask & Hdr & Hdc & Htr & Htc & Ht & _).
  destruct p as [d s t pm]; simpl in *; subst s.
  assert (Hsum : exists A, (match pm with
                            | Some m => x <- masked_fill d m 0 ;; Ok (sum0 x)
                            | None => Ok (sum0 d)
                            end) = Ok A /\ rows A = 1%nat /\ cols A = rows d0 /\
                 forall j, (j < rows d0)%nat -> ent A 0 j =
                   qsum (cols d0) (fun i => if masked pm i j then 0 else ent d i j)).
  { destruct pm as [m|].
    - destruct mask as [m0|]; [|discriminate Hm].
      injection Hm as ->. destruct (Hmask m0 eq_refl) as [Hmr Hmc].
      unfold masked_fill.
      rewrite (bcast_ok _ _ _ (cols d0) (rows d0))
        by (simpl; rewrite ?Hdr, ?Hdc, ?Hmr, ?Hmc; apply bdim_same).
      eexists; split; [reflexivity|]. simpl. repeat split; try assumption.
      intros j Hj. apply qsum_ext; intros i Hi. simpl.
      rewrite Hdr, Hdc, Hmr, Hmc, !bidx_lt by lia. reflexivity.
    - eexists; split; [reflexivity|]. simpl. repeat split; try assumption.
      intros j Hj. now rewrite Hdr. }
  destruct Hsum as (A & EA & HAr & HAc & HAe).
  unfold ap_cal_metric. rewrite EA. simpl.
  rewrite (bcast_ok _ _ _ 1 (rows d0))
    by (simpl; rewrite ?Hs1, ?Htr, ?Htc, ?Hsr; apply bdim_same).
  simpl.
  rewrite (bcast_ok _ _ _ 1 (rows d0))
    by (simpl; rewrite ?HAr, ?HAc, ?Hs1; apply bdim_same).
  eexists; split; [reflexivity|]. simpl. repeat split.
  intros j Hj. rewrite HAr, HAc, Hs1, Hsr, Htr, Htc, !bidx_lt by lia. simpl.
  rewrite HAe, Ht by assumption.
  unfold Qdiv; ring.
Qed.

(** C2: on delays that are non-decreasing and lie in [[1, |x|]] for batch
    element [j], [AverageLagging.cal_metric] returns
    [AL = 1 / tau * sum_{i < tau} (delays_i - i / gamma)] (the 0-based [i] is
    the claim's [i - 1]), where [gamma = |y| / |x|] and [tau] is the 1-based
    index of the first delay reaching [|x|], that position included, or
    [tgt_len] if no delay reaches [|x|]. *)
Theorem average_lagging_cal_metric : forall (d s t : tensor Q) m j,
  rows s = 1%nat -> rows t = 1%nat -> cols s = cols d -> cols t = cols d ->
  (j < cols d)%nat ->
  (forall i, (S i < rows d)%nat -> ent d i j <= ent d (S i) j) ->
  (forall i, (i < rows d)%nat -> 1 <= ent d i j /\ ent d i j <= ent s 0 j) ->
  exists R, al_cal_metric d s t m = Ok R /\ rows R = 1%nat /\ cols R = cols d /\
    let tau := al_tau (rows d) (fun i => ent d i j) (ent s 0 j) in
    let gamma := ent t 0 j / ent s 0 j in
    ent R 0 j == 1 / qnat tau * qsum tau (fun i => ent d i j - qnat i / gamma).
Proof.
  intros d s t m j Hsr Htr Hsc Htc Hj Hmono _.
  unfold al_cal_metric.
  rewrite (bcast_ok _ _ _ (rows d) (cols d)) by solve_bdim. simpl.
  rewrite (bcast_ok _ _ _ 1 (cols d)) by solve_bdim. simpl.
  unfold expand; simpl. rewrite Nat.eqb_refl, orb_true_r. simpl.
  rewrite (bcast_ok _ _ _ (rows d) (cols d)) by solve_bdim. simpl.
  rewrite (bcast_ok _ _ _ (rows d) (cols d)) by solve_bdim. simpl.
  unfold masked_fill.
  rewrite (bcast_ok _ _ _ (rows d) (cols d)) by solve_bdim. simpl.
  rewrite (bcast_ok _ _ _ 1 (cols d)) by solve_bdim.
  set (n := rows d) in *. set (b := cols d) in *.
  eexists; split; [reflexivity|]. simpl. repeat split.
  set (tau := al_tau n (fun i => ent d i j) (ent s 0 j)).
  set (gamma := ent t 0 j / ent s 0 j).
  rewrite Nat.sub_0_r, Hsr, Htr, Hsc, Htc, !(bidx_lt b j Hj).
  change (bidx 1) with (fun _ : nat => 0%nat); cbv beta.
  destruct (al_mask_tau n (fun i => ent d i j) (ent s 0 j) Hmono) as [Htau Hmask].
  fold tau in Htau, Hmask.
  assert (Hbi : forall i, (i < n)%nat -> bidx n i = i) by (intros; now apply bidx_lt).
  rewrite (qsum_ext_eq n _ (fun i => if (tau <=? i)%nat then 0
                                     else ent d i j - qnat i / gamma)).
  2:{ intros i Hi. try rewrite !(Hbi i Hi).
      specialize (Hmask i Hi). simpl in Hmask.
      destruct i as [|i].
      - rewrite <- Hmask. reflexivity.
      - rewrite (Hbi i) by lia. rewrite Hmask. reflexivity. }
  rewrite qsum_cut by assumption.
  rewrite (qsum_ext_eq n _ (fun i => if (tau <=? i)%nat then 0 else 1)).
  2:{ intros i Hi. try rewrite !(Hbi i Hi).
      specialize (Hmask i Hi). simpl in Hmask.
      destruct i as [|i].
      - rewrite <- Hmask. unfold b2q. ring.
      - rewrite (Hbi i) by lia. rewrite Hmask.
        destruct (tau <=? S i)%nat; unfold b2q; ring. }
  rewrite qsum_cut by assumption.
  assert (Hq : forall k, qsum k (fun _ => 1) == qnat k).
  { induction k as [|k IH]; [reflexivity|]. cbn [qsum]. rewrite IH.
    unfold qnat. rewrite Nat2Z.inj_succ, <- Z.add_1_r, inject_Z_plus. reflexivity. }
  rewrite Hq. unfold Qdiv. ring.
Qed.

Lemma opt_masked_fill_ok (X : tensor Q) (m : option (tensor bool)) :
  (forall mm, m = Some mm -> rows mm = rows X /\ cols mm = cols X) ->
  exists D, match m with Some mm => masked_fill X mm 0 | None => Ok X end = Ok D /\
    rows D = rows X /\ cols D = cols X /\
    forall i j, (i < rows X)%nat -> (j < cols X)%nat ->
      ent D i j = if masked m i j then 0 else ent X i j.
Proof.
  intros Hm. destruct m as [mm|].
  - destruct (Hm mm eq_refl) as [Hmr Hmc]. unfold masked_fill.
    rewrite (bcast_ok _ _ _ (rows X) (cols X)) by solve_bdim.
    eexists; repeat split. intros i j Hi Hj. simpl.
    rewrite Hmr, Hmc, !(bidx_lt (rows X) i Hi), !(bidx_lt (cols X) j Hj).
    reflexivity.
  - eexists; repeat split.
Qed.

(** The loop of [DifferentiableAverageLagging.cal_metric] computes the
    adjusted delays row by row. *)
Lemma dal_loop_spec (d gamma : tensor Q) k :
  rows gamma = 1%nat -> cols gamma = cols d -> (k <= rows d)%nat ->
  exists ND, dal_loop d gamma k = Ok ND /\ rows ND = rows d /\ cols ND = cols d /\
    forall i j, (i < k)%nat -> (j < cols d)%nat ->
      ent ND i j == dal_adjusted (fun i => ent d i j) (ent gamma 0 j) i.
Proof.
  intros Hgr Hgc. induction k as [|k IH]; intros Hk.
  - exists (zeros_like d). repeat split. intros i j Hi; lia.
  - destruct (IH ltac:(lia)) as (ND & EN & HNr & HNc & HNe).
    simpl. rewrite EN. simpl. unfold dal_body.
    destruct (Nat.eqb_spec k 0) as [->|Hk0].
    + unfold set_row. simpl. rewrite HNr, HNc.
      rewrite (proj2 (Nat.ltb_lt 0 (rows d))) by lia. rewrite Nat.eqb_refl. simpl.
      eexists; repeat split; try assumption.
      intros i j Hi Hj. replace i with 0%nat by lia. simpl.
      rewrite bidx_lt by assumption. reflexivity.
    + rewrite (bcast_ok _ _ _ 1 (cols d)) by (unfold recip, tmap; solve_bdim).
      unfold cat0. simpl. rewrite Nat.eqb_refl. simpl.
      unfold set_row. simpl. rewrite HNr, HNc.
      rewrite (proj2 (Nat.ltb_lt k (rows d))) by lia. rewrite Nat.eqb_refl. simpl.
      eexists; repeat split; try assumption.
      intros i j Hi Hj.
      destruct (Nat.eqb_spec i k) as [->|Hik];
        [|simpl; rewrite (proj2 (Nat.eqb_neq i k) Hik); apply HNe; lia].
      simpl. rewrite Nat.eqb_refl, Hgr, Hgc, !(bidx_lt (cols d) j Hj), bidx_1.
      destruct k as [|k]; [contradiction|]. simpl Nat.sub.
      rewrite Nat.sub_0_r. cbn [dal_adjusted].
      rewrite (HNe k j) by lia. apply Q.max_comm.
Qed.

(** C3: [DifferentiableAverageLagging.cal_metric] returns, for each batch
    element [j], [DAL = 1 / |y| * sum_i (delays'_i - i / gamma)] (the 0-based
    [i] is the claim's [i - 1]) over all target positions, the masked ones
    contributing 0, where [gamma = |y| / |x|] and [delays'] are the adjusted
    delays of [dal_adjusted]. *)
Theorem differentiable_average_lagging_cal_metric : forall (d s t : tensor Q) m,
  rows s = 1%nat -> rows t = 1%nat -> cols s = cols d -> cols t = cols d ->
  (forall mm, m = Some mm -> rows mm = rows d /\ cols mm = cols d) ->
  exists R, dal_cal_metric d s t m = Ok R /\ rows R = 1%nat /\ cols R = cols d /\
    forall j, (j < cols d)%nat ->
      ent R 0 j ==
      1 / ent t 0 j *
      qsum (rows d) (fun i =>
        if masked m i j then 0
        else dal_adjusted (fun i => ent d i j) (ent t 0 j / ent s 0 j) i
             - qnat i / (ent t 0 j / ent s 0 j)).
Proof.
  intros d s t m Hsr Htr Hsc Htc Hm.
  unfold dal_cal_metric.
  rewrite (bcast_ok _ _ _ 1 (cols d)) by solve_bdim. simpl.
  match goal with |- context [dal_loop d ?g (rows d)] => set (gamma := g) end.
  destruct (dal_loop_spec d gamma (rows d) eq_refl ltac:(simpl; congruence) (le_n _))
    as (ND & EN & HNr & HNc & HNe).
  rewrite EN. simpl.
  unfold expand; simpl. rewrite Nat.eqb_refl, orb_true_r. simpl.
  rewrite (bcast_ok _ _ _ (rows d) (cols d)) by (unfold gamma; solve_bdim). simpl.
  rewrite (bcast_ok _ _ _ (rows d) (cols d)) by solve_bdim. simpl.
  match goal with
  | |- context [match m with Some mm => masked_fill ?X mm 0 | None => Ok ?X end] =>
      destruct (opt_masked_fill_ok X m ltac:(simpl; exact Hm)) as (D & ED & HDr & HDc & HDe)
  end.
  rewrite ED. simpl. simpl in HDr, HDc.
  rewrite (bcast_ok _ _ _ 1 (cols d)) by solve_bdim.
  eexists; repeat split. intros j Hj. simpl.
  rewrite HDc, Htr, Htc, !(bidx_lt (cols d) j Hj), bidx_1.
  rewrite HDr.
  rewrite (qsum_ext_eq (rows d) _ (fun i => if masked m i j then 0
      else dal_adjusted (fun i => ent d i j) (ent t 0 j / ent s 0 j) i
           - qnat i / (ent t 0 j / ent s 0 j))).
  - unfold Qdiv. ring.
  - intros i Hi. rewrite HDe by assumption.
    destruct (masked m i j); [reflexivity|]. simpl.
    rewrite HNr, HNc, !(bidx_lt (rows d) i Hi), !(bidx_lt (cols d) j Hj), bidx_1.
    rewrite HNe by assumption. unfold gamma; simpl.
    rewrite Hsr, Htr, Hsc, Htc, !bidx_1, !(bidx_lt (cols d) j Hj). reflexivity.
Qed.

Lemma Qlt_add_pos (a b : Q) : 0 < b -> a < a + b.
Proof.
  intros H. apply Qle_lt_trans with (a + 0).
  - rewrite Qplus_0_r. apply Qle_refl.
  - exact (proj2 (Qplus_lt_r 0 b a) H).
Qed.

(** C10: for every input delays and every batch element whose
    [gamma = |y| / |x|] is positive, the adjusted delays computed by the loop
    of [DifferentiableAverageLagging.cal_metric] satisfy
    [delays'_i >= delays_i] and, for [i > 0],
    [delays'_i >= delays'_(i-1) + 1 / gamma], so that they are strictly
    increasing. *)
Theorem dal_adjusted_delays_step : forall (d s t : tensor Q),
  rows s = 1%nat -> rows t = 1%nat -> cols s = cols d -> cols t = cols d ->
  exists gamma ND,
    bcast Qdiv t s = Ok gamma /\ dal_loop d gamma (rows d) = Ok ND /\
    forall j, (j < cols d)%nat -> 0 < ent gamma 0 j ->
    forall i, (i < rows d)%nat ->
      ent d i j <= ent ND i j /\
      ((0 < i)%nat ->
         ent ND (i - 1) j + 1 / ent gamma 0 j <= ent ND i j /\
         ent ND (i - 1) j < ent ND i j).
Proof.
  intros d s t Hsr Htr Hsc Htc.
  rewrite (bcast_ok _ _ _ 1 (cols d)) by solve_bdim.
  match goal with |- context [Ok ?g] => set (gamma := g) end.
  destruct (dal_loop_spec d gamma (rows d) eq_refl ltac:(simpl; congruence) (le_n _))
    as (ND & EN & HNr & HNc & HNe).
  exists gamma, ND. split; [reflexivity|]. split; [exact EN|].
  intros j Hj Hg i Hi.
  set (g := ent gamma 0 j) in *.
  assert (Hpos : 0 < 1 / g)
    by (unfold Qdiv; rewrite Qmult_1_l; apply Qinv_lt_0_compat; exact Hg).
  rewrite (HNe i j Hi Hj). split.
  - destruct i as [|i]; simpl; [apply Qle_refl | apply Q.le_max_l].
  - intros Hi0. destruct i as [|i]; [lia|].
    replace (S i - 1)%nat with i by lia.
    rewrite (HNe i j ltac:(lia) Hj). cbn [dal_adjusted].
    assert (Hstep : dal_adjusted (fun i => ent d i j) g i + 1 / g
                    <= Qmax (ent d (S i) j) (dal_adjusted (fun i => ent d i j) g i + 1 / g))
      by apply Q.le_max_r.
    split; [exact Hstep|].
    apply Qlt_le_trans with (2 := Hstep).
    apply Qlt_add_pos. exact Hpos.
Qed.

End LatencyFacts.

(** ** LatencyInference *)

Module InferenceFacts.
Import Latency Inference LatencySpec LatencyFacts.

Lemma bind_rrel {A B C D} (R : A -> B -> Prop) (S : C -> D -> Prop)
    (m : result A) (m' : result B) k k' :
  rrel R m m' -> (forall a b, R a b -> rrel S (k a) (k' b)) ->
  rrel S (bind m k) (bind m' k').
Proof.
  destruct m, m'; simpl; intros H Hk; try contradiction; auto.
Qed.

Lemma bdim_bidx a b r i :
  bdim a b = Some r -> (i < r)%nat -> (bidx a i < a)%nat /\ (bidx b i < b)%nat.
Proof.
  unfold bdim, bidx; intros Hb Hi.
  destruct (Nat.eqb_spec a 1) as [Ea|Ea], (Nat.eqb_spec b 1) as [Eb|Eb],
    (Nat.eqb_spec a b) as [Eab|Eab]; injection Hb as <- || discriminate Hb;
    split; lia.
Qed.

Lemma teq_refl {A} (x : tensor A) : teq x x.
Proof. repeat split. Qed.

Lemma bcast_teq {A B C} (f : A -> B -> C) x x' y y' :
  teq x x' -> teq y y' -> rrel teq (bcast f x y) (bcast f x' y').
Proof.
  intros (Hxr & Hxc & Hx) (Hyr & Hyc & Hy). unfold bcast.
  rewrite <- Hxr, <- Hxc, <- Hyr, <- Hyc.
  destruct (bdim (rows x) (rows y)) as [r|] eqn:Er; [|reflexivity].
  destruct (bdim (cols x) (cols y)) as [c|] eqn:Ec; [|reflexivity].
  simpl. repeat split. simpl. intros i j Hi Hj.
  destruct (bdim_bidx _ _ _ i Er Hi), (bdim_bidx _ _ _ j Ec Hj).
  now rewrite Hx, Hy.
Qed.

Lemma masked_fill_teq {A} (x x' : tensor A) m m' v :
  teq x x' -> teq m m' -> rrel teq (masked_fill x m v) (masked_fill x' m' v).
Proof. apply bcast_teq. Qed.

Lemma tmap_teq {A B} (f : A -> B) x x' : teq x x' -> teq (tmap f x) (tmap f x').
Proof. intros (Hr & Hc & H); repeat split; simpl; auto. intros; now rewrite H. Qed.

Lemma transpose_teq {A} (x x' : tensor A) : teq x x' -> teq (transpose x) (transpose x').
Proof. intros (Hr & Hc & H); repeat split; simpl; auto. Qed.

Lemma expand_teq {A} (x x' : tensor A) r c :
  teq x x' -> rrel teq (expand x r c) (expand x' r c).
Proof.
  intros (Hr & Hc & H). unfold expand. rewrite <- Hr, <- Hc.
  destruct (((rows x =? r) || (rows x =? 1)) && ((cols x =? c) || (cols x =? 1)))%nat
    eqn:E; [|reflexivity].
  simpl. repeat split. simpl. intros i j Hi Hj.
  apply H; unfold bidx;
    destruct (Nat.eqb_spec (rows x) r), (Nat.eqb_spec (rows x) 1),
      (Nat.eqb_spec (cols x) c), (Nat.eqb_spec (cols x) 1);
    simpl in E; try discriminate E; lia.
Qed.

Lemma sum0_teq x x' : teq x x' -> teq (sum0 x) (sum0 x').
Proof.
  intros (Hr & Hc & H); repeat split; simpl; auto.
  intros i j _ Hj. rewrite <- Hr. apply qsum_ext. intros k Hk. now apply H.
Qed.

Lemma pad_left1_teq x x' : teq x x' -> teq (pad_left1 x) (pad_left1 x').
Proof.
  intros (Hr & Hc & H); repeat split; simpl; auto.
  intros i [|j] Hi Hj; [reflexivity|]. apply H; lia.
Qed.

Lemma drop_last_row_teq {A} (x x' : tensor A) :
  teq x x' -> teq (drop_last_row x) (drop_last_row x').
Proof.
  intros (Hr & Hc & H); repeat split; simpl; auto.
  intros i j Hi Hj. apply H; lia.
Qed.

Lemma get_row_teq {A} (x x' : tensor A) i :
  (i < rows x)%nat -> teq x x' -> teq (get_row x i) (get_row x' i).
Proof.
  intros Hi (Hr & Hc & H); repeat split; simpl; auto.
Qed.

Lemma cat0_teq {A} (x x' y y' : tensor A) :
  teq x x' -> teq y y' -> rrel teq (cat0 x y) (cat0 x' y').
Proof.
  intros (Hxr & Hxc & Hx) (Hyr & Hyc & Hy). unfold cat0.
  rewrite <- Hxc, <- Hyc. destruct (cols x =? cols y)%nat eqn:E; [|reflexivity].
  apply Nat.eqb_eq in E.
  simpl. repeat split; simpl; try congruence.
  intros i j Hi Hj. rewrite <- Hxr.
  destruct (Nat.ltb_spec i (rows x)); [now apply Hx|].
  apply Hy; lia.
Qed.

Lemma qmax_upto_ext n (f g : nat -> Q) :
  (forall i, (i <= n)%nat -> f i = g i) -> qmax_upto n f = qmax_upto n g.
Proof.
  induction n as [|n IH]; intros H; simpl; [apply H; lia|].
  rewrite IH by (intros; apply H; lia). now rewrite H.
Qed.

Lemma max0_teq x x' : teq x x' -> rrel teq (max0 x) (max0 x').
Proof.
  intros (Hr & Hc & H). unfold max0. rewrite <- Hr, <- Hc.
  destruct (rows x) as [|k] eqn:Ek; [reflexivity|].
  simpl. repeat split. intros i j _ Hj. simpl in Hj |- *.
  apply qmax_upto_ext. intros m Hm. apply H; rewrite ?Ek; lia.
Qed.

Lemma set_row_teq {A} (x x' v v' : tensor A) i :
  teq x x' -> teq v v' -> rows v = 1%nat -> rrel teq (set_row x i v) (set_row x' i v').
Proof.
  intros (Hxr & Hxc & Hx) (Hvr & Hvc & Hv) Hv1. unfold set_row.
  rewrite <- Hxr, <- Hxc, <- Hvc.
  destruct (negb (i <? rows x))%nat eqn:E1; [reflexivity|].
  destruct ((cols v =? cols x) || (cols v =? 1))%nat eqn:E2; [|reflexivity].
  simpl. repeat split. simpl. intros a b Ha Hb.
  destruct (a =? i)%nat; [|now apply Hx].
  apply Hv; [lia|]. unfold bidx.
  destruct (Nat.eqb_spec (cols v) (cols x)), (Nat.eqb_spec (cols v) 1);
    simpl in E2; try discriminate E2; lia.
Qed.

Lemma bind_rrel_inv {A B C D} (R : A -> B -> Prop) (S : C -> D -> Prop)
    (m : result A) (m' : result B) k k' :
  rrel R m m' ->
  (forall a b, m = Ok a -> m' = Ok b -> R a b -> rrel S (k a) (k' b)) ->
  rrel S (bind m k) (bind m' k').
Proof.
  destruct m, m'; simpl; intros H Hk; try contradiction; auto.
Qed.

Lemma set_row_shape {A} (x v y : tensor A) i :
  set_row x i v = Ok y -> rows y = rows x /\ cols y = cols x.
Proof.
  unfold set_row. destruct (negb (i <? rows x))%nat; [discriminate|].
  destruct ((cols v =? cols x) || (cols v =? 1))%nat; [|discriminate].
  intros H; injection H as <-. split; reflexivity.
Qed.

Lemma max0_rows x y : max0 x = Ok y -> rows y = 1%nat.
Proof.
  unfold max0. destruct (rows x); [discriminate|]. intros H; now injection H as <-.
Qed.

Lemma dal_body_shape d g nd i y :
  dal_body d g nd i = Ok y -> rows y = rows nd /\ cols y = cols nd.
Proof.
  unfold dal_body. destruct (i =? 0)%nat; [apply set_row_shape|].
  destruct (bcast Qplus (get_row nd (i - 1)) (recip g)) as [a|]; [|discriminate]. simpl.
  destruct (cat0 a (get_row d i)) as [c|]; [|discriminate]. simpl.
  destruct (max0 c) as [mx|]; [|discriminate]. simpl.
  apply set_row_shape.
Qed.

Lemma dal_loop_shape d g k nd :
  dal_loop d g k = Ok nd -> rows nd = rows d /\ cols nd = cols d.
Proof.
  revert nd; induction k as [|k IH]; intros nd H; simpl in H.
  - injection H as <-. split; reflexivity.
  - destruct (dal_loop d g k) as [nd0|] eqn:E; [|discriminate]. simpl in H.
    destruct (IH nd0 eq_refl). destruct (dal_body_shape _ _ _ _ _ H). split; congruence.
Qed.

Lemma dal_body_teq d d' g g' nd nd' i :
  teq d d' -> teq g g' -> teq nd nd' -> (i < rows nd)%nat -> (i < rows d)%nat ->
  rrel teq (dal_body d g nd i) (dal_body d' g' nd' i).
Proof.
  intros Hd Hg Hn Hi Hid. unfold dal_body.
  destruct (i =? 0)%nat.
  - apply set_row_teq; [exact Hn| |reflexivity]. apply get_row_teq; [lia|exact Hd].
  - apply bind_rrel_inv with teq.
    { apply bcast_teq; [apply get_row_teq; [lia|exact Hn] | apply tmap_teq, Hg]. }
    intros a a' _ _ Ha.
    apply bind_rrel_inv with teq; [apply cat0_teq; [exact Ha|apply get_row_teq; auto]|].
    intros c c' _ _ Hc.
    apply bind_rrel_inv with teq; [apply max0_teq, Hc|].
    intros mx mx' Emx _ Hmx.
    apply set_row_teq; [exact Hn|exact Hmx|]. exact (max0_rows _ _ Emx).
Qed.

Lemma dal_loop_teq d d' g g' k :
  teq d d' -> teq g g' -> (k <= rows d)%nat ->
  rrel teq (dal_loop d g k) (dal_loop d' g' k).
Proof.
  intros Hd Hg. induction k as [|k IH]; intros Hk; simpl.
  - destruct Hd as (Hr & Hc & _). unfold zeros_like. rewrite Hr, Hc. apply teq_refl.
  - apply bind_rrel_inv with teq; [apply IH; lia|].
    intros nd nd' End _ Hn.
    destruct (dal_loop_shape _ _ _ _ End) as [Hnr _].
    apply dal_body_teq; auto; lia.
Qed.

Lemma cal_metric_teq M d d' s s' t t' :
  teq d d' -> teq s s' -> teq t t' ->
  rrel teq (cal_metric M d s t None) (cal_metric M d' s' t' None).
Proof.
  intros Hd Hs Ht. pose proof Hd as (Hdr & Hdc & _).
  destruct M; simpl.
  - unfold ap_cal_metric. simpl.
    apply bind_rrel_inv with teq; [apply bcast_teq; assumption|].
    intros den den' _ _ Hden. apply bcast_teq; [apply sum0_teq, Hd | exact Hden].
  - unfold al_cal_metric.
    apply bind_rrel_inv with teq; [apply bcast_teq; assumption|].
    intros l l' _ _ Hl.
    apply bind_rrel_inv with teq; [apply bcast_teq; assumption|].
    intros g g' _ _ Hg. rewrite <- Hdr, <- Hdc.
    apply bind_rrel_inv with teq; [apply expand_teq, teq_refl|].
    intros ar ar' _ _ Har.
    apply bind_rrel_inv with teq; [apply bcast_teq; assumption|].
    intros q q' _ _ Hq.
    apply bind_rrel_inv with teq; [apply bcast_teq; assumption|].
    intros lg lg' _ _ Hlg.
    assert (Hm : teq (drop_last_row (transpose (pad_left1 (transpose l))))
                     (drop_last_row (transpose (pad_left1 (transpose l')))))
      by (apply drop_last_row_teq, transpose_teq, pad_left1_teq, transpose_teq, Hl).
    apply bind_rrel_inv with teq; [apply masked_fill_teq; assumption|].
    intros lg2 lg2' _ _ Hlg2.
    apply bcast_teq; [apply sum0_teq, Hlg2 | apply sum0_teq, tmap_teq, Hm].
  - unfold dal_cal_metric.
    apply bind_rrel_inv with teq; [apply bcast_teq; assumption|].
    intros g g' _ _ Hg. rewrite <- Hdr, <- Hdc.
    apply bind_rrel_inv with teq; [apply dal_loop_teq; auto|].
    intros nd nd' _ _ Hn.
    apply bind_rrel_inv with teq; [apply expand_teq, teq_refl|].
    intros ar ar' _ _ Har.
    apply bind_rrel_inv with teq; [apply bcast_teq; assumption|].
    intros q q' _ _ Hq.
    apply bind_rrel_inv with teq; [apply bcast_teq; assumption|].
    intros D D' _ _ HD. simpl.
    apply bcast_teq; [apply sum0_teq, HD | exact Ht].
Qed.

Lemma metric_call_teq M d d' s s' :
  teq d d' -> teq s s' ->
  rrel teq (metric_call M d s None true true) (metric_call M d' s' None true true).
Proof.
  intros Hd Hs. pose proof Hd as (Hdr & Hdc & _). pose proof Hs as (Hsr & Hsc & _).
  unfold metric_call, prepare_latency_metric. simpl.
  rewrite <- Hdr, <- Hdc, <- Hsr.
  destruct (rows d =? rows s)%nat; simpl; [|reflexivity].
  apply cal_metric_teq.
  - apply transpose_teq, tmap_teq, Hd.
  - apply transpose_teq, Hs.
  - apply teq_refl.
Qed.

Lemma cal_metric_ok M (d s t : tensor Q) :
  rows s = 1%nat -> rows t = 1%nat -> cols s = cols d -> cols t = cols d ->
  exists R, cal_metric M d s t None = Ok R.
Proof.
  intros Hsr Htr Hsc Htc. destruct M; simpl.
  - unfold ap_cal_metric. simpl.
    rewrite (bcast_ok _ _ _ 1 (cols d)) by solve_bdim. simpl.
    rewrite (bcast_ok _ _ _ 1 (cols d)) by solve_bdim. eexists; reflexivity.
  - unfold al_cal_metric.
    rewrite (bcast_ok _ _ _ (rows d) (cols d)) by solve_bdim. simpl.
    rewrite (bcast_ok _ _ _ 1 (cols d)) by solve_bdim. simpl.
    unfold expand; simpl. rewrite Nat.eqb_refl, orb_true_r. simpl.
    rewrite (bcast_ok _ _ _ (rows d) (cols d)) by solve_bdim. simpl.
    rewrite (bcast_ok _ _ _ (rows d) (cols d)) by solve_bdim. simpl.
    unfold masked_fill.
    rewrite (bcast_ok _ _ _ (rows d) (cols d)) by solve_bdim. simpl.
    rewrite (bcast_ok _ _ _ 1 (cols d)) by solve_bdim. eexists; reflexivity.
  - unfold dal_cal_metric.
    rewrite (bcast_ok _ _ _ 1 (cols d)) by solve_bdim. simpl.
    match goal with |- context [dal_loop d ?g (rows d)] => set (gamma := g) end.
    destruct (dal_loop_spec d gamma (rows d) eq_refl ltac:(simpl; congruence) (le_n _))
      as (ND & EN & HNr & HNc & _).
    rewrite EN. simpl.
    unfold expand; simpl. rewrite Nat.eqb_refl, orb_true_r. simpl.
    rewrite (bcast_ok _ _ _ (rows d) (cols d)) by (unfold gamma; solve_bdim). simpl.
    rewrite (bcast_ok _ _ _ (rows d) (cols d)) by solve_bdim. simpl.
    rewrite (bcast_ok _ _ _ 1 (cols d)) by solve_bdim. eexists; reflexivity.
Qed.

Lemma metric_call_ok M (d s : tensor Q) :
  rows s = rows d -> cols s = 1%nat ->
  exists R, metric_call M d s None true true = Ok R.
Proof.
  intros Hsr Hsc. unfold metric_call, prepare_latency_metric. simpl.
  rewrite Hsr, Nat.eqb_refl. simpl.
  apply cal_metric_ok; simpl; auto.
Qed.

Lemma latency_inference_delays ms sl :
  (0 < dim1 ms)%nat -> rows sl = dim0 ms -> cols sl = 1%nat ->
  exists D, teq D (clamped_delays ms sl) /\
    latency_inference true ms sl = fill_dict metric_calculator (to_float D) (to_float sl).
Proof.
  intros H1 Hr Hc. unfold latency_inference, max_dim1.
  destruct (dim1 ms) as [|k] eqn:Ek; [lia|]. cbn [bind].
  rewrite (bcast_ok _ _ _ (dim0 ms) (dim2 ms)) by solve_bdim. cbn [bind].
  unfold masked_fill.
  rewrite (bcast_ok _ _ _ (dim0 ms) (dim2 ms)) by solve_bdim. cbn [bind].
  rewrite (bcast_ok _ _ _ (dim0 ms) (dim2 ms)) by solve_bdim. cbn [bind].
  unfold expand. simpl. rewrite Hr, Hc, !Nat.eqb_refl, orb_true_r. simpl.
  rewrite (bcast_ok _ _ _ (dim0 ms) (dim2 ms)) by solve_bdim. cbn [bind].
  rewrite (bcast_ok _ _ _ (dim0 ms) (dim2 ms)) by solve_bdim. cbn [bind].
  eexists; split; [|reflexivity].
  unfold clamped_delays. rewrite Ek. repeat split. intros b t Hb Ht. simpl in *.
  rewrite !bidx_1, !(bidx_lt _ b Hb), !(bidx_lt _ t Ht), Nat.sub_0_r.
  destruct (Z.leb_spec (ent sl b 0) (zmax_upto k (fun m => ent3 ms b m t)));
  destruct (Z.ltb_spec (zmax_upto k (fun m => ent3 ms b m t)) (ent sl b 0)); lia.
Qed.

Lemma metric_call_pair M (D C sl : tensor Z) :
  teq D C -> rows sl = rows C -> cols sl = 1%nat ->
  exists v w,
    metric_call M (to_float D) (to_float sl) None true true = Ok v /\
    metric_call M (to_float C) (to_float sl) None true true = Ok w /\ teq v w.
Proof.
  intros HD Hr Hc.
  destruct (metric_call_ok M (to_float C) (to_float sl) Hr Hc) as (w & Ew).
  assert (H : rrel teq (metric_call M (to_float D) (to_float sl) None true true)
                       (metric_call M (to_float C) (to_float sl) None true true))
    by (apply metric_call_teq; [apply tmap_teq, HD | apply teq_refl]).
  rewrite Ew in H.
  destruct (metric_call M (to_float D) (to_float sl) None true true) as [v|e];
    [|contradiction].
  exists v, w. auto.
Qed.

(** C4: for a [monotonic_step] of shape [(bsz, m, tgt_len)] with [m > 0] and
    [src_lens] of shape [(bsz, 1)], [LatencyInference(start_from_zero=True)]
    returns the dict with exactly the keys "differentiable_average_lagging",
    "average_lagging" and "average_proportion", in this order, whose values
    are (transposed) the three metrics called with [batch_first=True],
    [start_from_zero=True] and no target padding mask on the delays
    [clamped_delays]: the maximum over the middle dimension, replaced by
    [src_len - 1] where it reaches [src_len]. *)
Theorem latency_inference_metrics : forall ms sl,
  (0 < dim1 ms)%nat -> rows sl = dim0 ms -> cols sl = 1%nat ->
  exists vd va vp wd wa wp,
    latency_inference true ms sl =
      Ok [("differentiable_average_lagging"%string, vd);
          ("average_lagging"%string, va);
          ("average_proportion"%string, vp)] /\
    metric_call DifferentiableAverageLagging
      (to_float (clamped_delays ms sl)) (to_float sl) None true true = Ok wd /\
    metric_call AverageLagging
      (to_float (clamped_delays ms sl)) (to_float sl) None true true = Ok wa /\
    metric_call AverageProportion
      (to_float (clamped_delays ms sl)) (to_float sl) None true true = Ok wp /\
    teq vd (transpose wd) /\ teq va (transpose wa) /\ teq vp (transpose wp).
Proof.
  intros ms sl H1 Hr Hc.
  destruct (latency_inference_delays ms sl H1 Hr Hc) as (D & HD & ->).
  destruct (metric_call_pair DifferentiableAverageLagging D _ sl HD Hr Hc)
    as (vd & wd & Evd & Ewd & Hd).
  destruct (metric_call_pair AverageLagging D _ sl HD Hr Hc)
    as (va & wa & Eva & Ewa & Ha).
  destruct (metric_call_pair AverageProportion D _ sl HD Hr Hc)
    as (vp & wp & Evp & Ewp & Hp).
  exists (transpose vd), (transpose va), (transpose vp), wd, wa, wp.
  simpl fill_dict. rewrite Evd, Eva, Evp. simpl.
  refine (conj eq_refl (conj Ewd (conj Ewa (conj Ewp (conj _ (conj _ _))))));
    apply transpose_teq; assumption.
Qed.

End InferenceFacts.

(** ** The encoder padding mask *)

Module EncoderFacts.
Import Latency BerardEncoder.

Lemma zsum_ge n (l : Z) :
  (0 <= l)%Z ->
  zsum n (fun t => Z.b2z (l <=? Z.of_nat t)%Z) = Z.max 0 (Z.of_nat n - l).
Proof.
  intros Hl. induction n as [|n IH]; cbn [zsum]; [lia|].
  rewrite IH, Nat2Z.inj_succ. destruct (Z.leb_spec l (Z.of_nat n)); simpl; lia.
Qed.

(** C9: for output lengths [0 <= l_b <= T] (as [pad_packed_sequence] gives
    them for a sequence of [T] steps), [BerardEncoder.forward]'s
    [encoder_padding_mask] has shape [(T, B)] and entry [(t, b)] is [true]
    exactly when [t >= l_b]; and for every mask of that shape and content,
    [length_from_padding_mask(mask, batch_first=False)] returns [l_b] for
    each batch element [b]. *)
Theorem encoder_mask_lengths : forall (T : nat) (lens : list Z),
  Forall (fun l => 0 <= l <= Z.of_nat T)%Z lens ->
  (exists m, encoder_padding_mask T (List.length lens) lens = Ok m /\
     rows m = T /\ cols m = List.length lens /\
     forall t b, (t < T)%nat -> (b < List.length lens)%nat ->
       ent m t b = (nth b lens 0 <=? Z.of_nat t)%Z) /\
  (forall m, rows m = T -> cols m = List.length lens ->
     (forall t b, (t < T)%nat -> (b < List.length lens)%nat ->
        ent m t b = (nth b lens 0 <=? Z.of_nat t)%Z) ->
     let L := length_from_padding_mask m false in
     rows L = 1%nat /\ cols L = List.length lens /\
     forall b, (b < List.length lens)%nat -> ent L 0 b = nth b lens 0%Z).
Proof.
  intros T lens Hlens. split.
  - unfold encoder_padding_mask, expand, view_col. simpl.
    rewrite !Nat.eqb_refl, !orb_true_r. simpl. rewrite !Nat.eqb_refl, !orb_true_r. simpl.
    rewrite (bcast_ok _ _ _ (List.length lens) T) by (simpl; apply bdim_same).
    eexists; split; [reflexivity|]. simpl. repeat split.
    intros t b Ht Hb. rewrite !(bidx_lt _ _ Ht), !(bidx_lt _ _ Hb). reflexivity.
  - intros m Hr Hc He. simpl. repeat split; [exact Hc|].
    intros b Hb. rewrite Hr.
    rewrite (zsum_ext T _ (fun t => Z.b2z (nth b lens 0 <=? Z.of_nat t)%Z))
      by (intros t Ht; now rewrite He).
    assert (Hl : (0 <= nth b lens 0 <= Z.of_nat T)%Z)
      by (rewrite Forall_forall in Hlens; apply Hlens, nth_In, Hb).
    rewrite zsum_ge by lia. lia.
Qed.

End EncoderFacts.

(** ** The stacked LSTM decoder *)

Module DecoderFacts.
Import Decoder DecoderSpec.

Lemma last_cons_default {A} (x d : A) (l : list A) : last (x :: l) d = last l x.
Proof.
  revert x d; induction l as [|y l IH]; intros x d; [reflexivity|].
  change (last (x :: y :: l) d) with (last (y :: l) d). now rewrite !IH.
Qed.

Lemma last_map_some {A B} (l : list (A * B)) (d : A) :
  last (map (fun p => Some (fst p)) l) (Some d) = Some (last (map fst l) d).
Proof.
  revert d; induction l as [|x l IH]; intros d; [reflexivity|].
  simpl map. rewrite !last_cons_default. apply IH.
Qed.

Lemma firstn_set {A} (l : list A) i (v : A) :
  (i < List.length l)%nat ->
  firstn (S i) (firstn i l ++ v :: skipn (S i) l) = firstn i l ++ [v] /\
  nth_error (firstn i l ++ v :: skipn (S i) l) i = Some v /\
  List.length (firstn i l ++ v :: skipn (S i) l) = List.length l.
Proof.
  intros Hi.
  assert (Hf : List.length (firstn i l) = i) by (rewrite length_firstn; lia).
  split; [|split].
  - rewrite firstn_app, Hf, firstn_all2 by lia.
    now replace (S i - i)%nat with 1%nat by lia.
  - rewrite nth_error_app2 by lia. now rewrite Hf, Nat.sub_diag.
  - rewrite length_app, Hf. cbn [List.length]. rewrite length_skipn. lia.
Qed.

Lemma zip3_app {A B C D} (f : A -> B -> C -> D) a1 a2 b1 b2 c1 c2 :
  List.length a1 = List.length b1 -> List.length a1 = List.length c1 ->
  zip3 f (a1 ++ a2) (b1 ++ b2) (c1 ++ c2) = zip3 f a1 b1 c1 ++ zip3 f a2 b2 c2.
Proof.
  revert b1 c1; induction a1 as [|x a1 IH]; intros [|y b1] [|z c1] Hb Hc;
    simpl in *; try discriminate; [reflexivity|].
  f_equal. apply IH; lia.
Qed.

Lemma zip3_length {A B C D} (f : A -> B -> C -> D) a b c :
  List.length a = List.length b -> List.length a = List.length c ->
  List.length (zip3 f a b c) = List.length a.
Proof.
  revert b c; induction a as [|x a IH]; intros [|y b] [|z c] Hb Hc;
    simpl in *; try discriminate; [reflexivity|].
  f_equal. apply IH; lia.
Qed.

Section Loops.
Context {Tok V Enc : Type}.
Variable self : lstm_decoder Tok V Enc.
Variable enc : Enc.

Lemma prev_layer_0 : (0 < num_layers self)%nat -> prev_layer self 0 = (num_layers self - 1)%nat.
Proof.
  intros Hn. unfold prev_layer.
  rewrite <- (Z.mod_unique (Z.of_nat 0 - 1) (Z.of_nat (num_layers self)) (-1)
             (Z.of_nat (num_layers self) - 1)) by lia.
  lia.
Qed.

Lemma prev_layer_S i :
  (1 <= i)%nat -> (i < num_layers self)%nat -> prev_layer self i = (i - 1)%nat.
Proof.
  intros H1 H2. unfold prev_layer. rewrite Z.mod_small by lia. lia.
Qed.

Lemma list_set_ok (l : list V) i v :
  (i < List.length l)%nat -> list_set l i v = Ok (firstn i l ++ v :: skipn (S i) l).
Proof.
  intros Hi. unfold list_set. now rewrite (proj2 (Nat.ltb_lt _ _) Hi).
Qed.

Lemma length_upper ls ctx (below : V * V) :
  List.length (upper_layers self ls ctx below) = List.length ls.
Proof.
  revert below; induction ls as [|l ls IH]; intros below; [reflexivity|].
  simpl. destruct (l ctx below). simpl. now rewrite IH.
Qed.

(** The layers above the first, from layer [i >= 1] on. *)
Lemma layer_loop_upper ls i ctx hs cs hid os aos (below : V * V) :
  (1 <= i)%nat -> (i + List.length ls = num_layers self)%nat ->
  List.length hs = num_layers self -> List.length cs = num_layers self ->
  nth_error hs (i - 1) = Some (fst below) -> nth_error cs (i - 1) = Some (snd below) ->
  layer_loop self enc ls i ctx (Some ctx) (FState hs cs hid os aos) =
  Ok (FState (firstn i hs ++ map fst (upper_layers self ls ctx below))
             (firstn i cs ++ map snd (upper_layers self ls ctx below))
             (last (map (fun p => Some (fst p)) (upper_layers self ls ctx below)) hid)
             os aos).
Proof.
  revert i hs cs hid below.
  induction ls as [|l ls IH]; intros i hs cs hid [bh bc] H1 Hn Hh Hc Eh Ec.
  - simpl. rewrite !firstn_all2 by (simpl in Hn; lia). now rewrite !app_nil_r.
  - simpl in Hn. cbn [layer_loop prev_hiddens prev_cells hidden outs attention_outs]. unfold list_get.
    rewrite prev_layer_S by lia. cbn [fst snd] in Eh, Ec. rewrite Eh, Ec. cbn [bind].
    cbn [upper_layers]. destruct (l ctx (bh, bc)) as [h c] eqn:El.
    rewrite !list_set_ok by lia. cbn [bind].
    destruct (firstn_set hs i (apply_dropout self h) ltac:(lia)) as (Fh & Nh & Lh).
    destruct (firstn_set cs i c ltac:(lia)) as (Fc & Nc & Lc).
    rewrite (IH (S i) _ _ _ (apply_dropout self h, c)) by (cbn [fst snd]; rewrite ?Nat.sub_succ, ?Nat.sub_0_r; auto; lia).
    rewrite Fh, Fc. cbn [map]. rewrite last_cons_default. cbn [fst snd].
    now rewrite <- !app_assoc.
Qed.

(** One time step of [forward] is [step_spec]. *)
Lemma time_loop_step l0 ls x xs hs cs hid os aos :
  layers self = l0 :: ls ->
  List.length hs = num_layers self -> List.length cs = num_layers self ->
  forall hs1 cs1 ctx y,
  step_spec self enc l0 ls x hs cs = (hs1, cs1, ctx, y) ->
  time_loop self enc (x :: xs) (FState hs cs hid os aos) =
  time_loop self enc xs (FState hs1 cs1 (Some y) (os ++ [y]) (aos ++ [ctx])) /\
  List.length hs1 = num_layers self /\ List.length cs1 = num_layers self.
Proof.
  intros Hl Hh Hc hs1 cs1 ctx y Es.
  assert (Hn : num_layers self = S (List.length ls)) by (unfold num_layers; now rewrite Hl).
  unfold step_spec in Es.
  set (ph := nth (S (List.length ls) - 1) hs (new_zeros self)) in Es.
  set (pc := nth (S (List.length ls) - 1) cs (new_zeros self)) in Es.
  destruct (l0 x (ph, pc)) as [h0 c0] eqn:El.
  destruct (attention self (apply_dropout self h0) enc) as [a sc] eqn:Ea.
  cbn [fst] in Es.
  injection Es as <- <- <- <-.
  cbn [time_loop]. rewrite Hl.
  cbn [layer_loop prev_hiddens prev_cells hidden outs attention_outs]. unfold list_get.
  rewrite prev_layer_0 by lia. rewrite Hn.
  rewrite (nth_error_nth' hs (new_zeros self)) by lia.
  rewrite (nth_error_nth' cs (new_zeros self)) by lia.
  cbn [bind]. fold ph pc. rewrite El.
  rewrite !list_set_ok by lia. cbn [bind]. rewrite Ea.
  destruct (firstn_set hs 0 (apply_dropout self h0) ltac:(lia)) as (_ & Nh & Lh).
  destruct (firstn_set cs 0 c0 ltac:(lia)) as (_ & Nc & Lc).
  rewrite (layer_loop_upper ls 1 _ _ _ _ _ _ (apply_dropout self h0, c0))
    by (cbn [fst snd Nat.sub]; auto; lia).
  rewrite last_map_some. cbn [bind hidden prev_hiddens prev_cells outs attention_outs].
  split.
  - cbn [firstn app].
    destruct (map fst (upper_layers self ls (apply_dropout self a) (apply_dropout self h0, c0)));
      reflexivity.
  - cbn [List.length]. rewrite !length_map, length_upper. split; lia.
Qed.

Lemma time_loop_steps l0 ls xs hs cs hid os aos :
  layers self = l0 :: ls ->
  List.length hs = num_layers self -> List.length cs = num_layers self ->
  forall hs' cs' ys ctxs,
  steps_spec self enc l0 ls xs hs cs = (hs', cs', ys, ctxs) ->
  time_loop self enc xs (FState hs cs hid os aos) =
    Ok (FState hs' cs' (last (map Some ys) hid) (os ++ ys) (aos ++ ctxs)) /\
  List.length hs' = num_layers self /\ List.length cs' = num_layers self /\
  List.length ys = List.length xs /\ List.length ctxs = List.length xs.
Proof.
  intros Hl. revert hs cs hid os aos.
  induction xs as [|x xs IH]; intros hs cs hid os aos Hh Hc hs' cs' ys ctxs Es.
  - simpl in Es. injection Es as <- <- <- <-. simpl. now rewrite !app_nil_r.
  - simpl in Es.
    destruct (step_spec self enc l0 ls x hs cs) as [[[hs1 cs1] ctx] y] eqn:E1.
    destruct (steps_spec self enc l0 ls xs hs1 cs1) as [[[hs2 cs2] ys2] ctxs2] eqn:E2.
    injection Es as <- <- <- <-.
    destruct (time_loop_step l0 ls x xs hs cs hid os aos Hl Hh Hc _ _ _ _ E1)
      as (-> & Hh1 & Hc1).
    destruct (IH hs1 cs1 (Some y) (os ++ [y]) (aos ++ [ctx]) Hh1 Hc1 _ _ _ _ E2)
      as (-> & ? & ? & ? & ?).
    rewrite <- !app_assoc. simpl map. rewrite last_cons_default.
    repeat split; simpl; auto.
Qed.

Lemma steps_spec_app l0 ls xs1 xs2 hs cs :
  steps_spec self enc l0 ls (xs1 ++ xs2) hs cs =
  let '(hs1, cs1, ys1, c1) := steps_spec self enc l0 ls xs1 hs cs in
  let '(hs2, cs2, ys2, c2) := steps_spec self enc l0 ls xs2 hs1 cs1 in
  (hs2, cs2, ys1 ++ ys2, c1 ++ c2).
Proof.
  revert hs cs. induction xs1 as [|x xs1 IH]; intros hs cs; simpl.
  - destruct (steps_spec self enc l0 ls xs2 hs cs) as [[[? ?] ?] ?]. reflexivity.
  - destruct (step_spec self enc l0 ls x hs cs) as [[[hs1 cs1] ctx] y].
    rewrite IH.
    destruct (steps_spec self enc l0 ls xs1 hs1 cs1) as [[[h3 c3] y3] x3].
    destruct (steps_spec self enc l0 ls xs2 h3 c3) as [[[? ?] ?] ?]. reflexivity.
Qed.

(** The logits of a position from its top hidden state, context and raw
    embedding. *)
Lemma forward_run l0 ls toks (inc : option (option (cache V))) hs0 cs0 :
  layers self = l0 :: ls ->
  List.length hs0 = num_layers self -> List.length cs0 = num_layers self ->
  (match match inc with Some c => c | None => None end with
   | Some c => c
   | None => (repeat (new_zeros self) (num_layers self), repeat (new_zeros self) (num_layers self))
   end) = (hs0, cs0) ->
  let toks' := match inc with
               | Some _ => skipn (List.length toks - 1) toks
               | None => toks end in
  toks' <> [] ->
  forall hs' cs' ys ctxs,
  steps_spec self enc l0 ls (map (apply_dropout self) (map (embed_tokens self) toks')) hs0 cs0
    = (hs', cs', ys, ctxs) ->
  forward self enc toks inc =
  Ok (zip3 (fun h a e => output_projection self
                           (apply_dropout self (vtanh self (deep_output_layer self h a e))))
           ys ctxs (map (embed_tokens self) toks'),
      option_map (fun _ => Some (hs', cs')) inc).
Proof.
  intros Hl Hh Hc Hcache toks' Hne hs' cs' ys ctxs Es.
  unfold Decoder.forward. unfold toks' in *.
  match goal with
  | |- (let '(_, _) := ?m in _) = _ => replace m with (hs0, cs0) by (symmetry; exact Hcache)
  end.
  cbv beta iota.
  destruct (time_loop_steps l0 ls _ hs0 cs0 None [] [] Hl Hh Hc _ _ _ _ Es)
    as (-> & _ & _ & Hys & Hcs).
  rewrite !length_map in Hys, Hcs. cbn [bind prev_hiddens prev_cells outs attention_outs app].
  destruct ys as [|y ys]; [exfalso; apply Hne, length_zero_iff_nil; simpl in Hys; lia|].
  destruct ctxs as [|c ctxs]; [exfalso; apply Hne, length_zero_iff_nil; simpl in Hcs; lia|].
  cbn [py_cat bind]. rewrite Hcs, Nat.eqb_refl. reflexivity.
Qed.

Lemma skipn_last_one (toks : list Tok) t :
  skipn (List.length (toks ++ [t]) - 1) (toks ++ [t]) = [t].
Proof.
  rewrite length_app. simpl. rewrite Nat.add_sub.
  rewrite skipn_app, skipn_all, Nat.sub_diag. reflexivity.
Qed.

(** Incremental decoding from a cache holding the state after [done]. *)
Lemma incremental_run l0 ls rest done (c : option (cache V)) :
  layers self = l0 :: ls ->
  let z := repeat (new_zeros self) (num_layers self) in
  let st := steps_spec self enc l0 ls
              (map (apply_dropout self) (map (embed_tokens self) done)) z z in
  (match c with Some c => c | None => (z, z) end) = (fst (fst (fst st)), snd (fst (fst st))) ->
  exists ys, incremental_decode self enc done rest (Some c) = Ok ys /\
    List.length ys = List.length rest /\
    forall k, (k < List.length rest)%nat ->
      exists full, forward self enc (done ++ firstn (S k) rest) None = Ok (full, None) /\
        List.length full = (List.length done + S k)%nat /\
        nth k ys [] = skipn (List.length done + k) full.
Proof.
  intros Hl z. revert done c.
  induction rest as [|t rest IH]; intros done c S0 Hc.
  - exists []. split; [reflexivity|]. split; [reflexivity|]. simpl; intros; lia.
  - assert (Hz : List.length z = num_layers self) by apply repeat_length.
    unfold S0 in Hc.
    destruct (steps_spec self enc l0 ls (map (apply_dropout self) (map (embed_tokens self) done)) z z)
      as [[[hd cd] yd] cxd] eqn:Ed.
    cbn [fst snd] in Hc.
    destruct (time_loop_steps l0 ls _ z z None [] [] Hl Hz Hz _ _ _ _ Ed)
      as (_ & Lhd & Lcd & Lyd & Lcxd).
    rewrite !length_map in Lyd, Lcxd.
    set (x := apply_dropout self (embed_tokens self t)).
    destruct (step_spec self enc l0 ls x hd cd) as [[[h1 c1] ctx] y] eqn:E1.
    assert (E1' : steps_spec self enc l0 ls [x] hd cd = (h1, c1, [y], [ctx]))
      by (simpl; now rewrite E1).
    set (F := fun h a e => output_projection self
                             (apply_dropout self (vtanh self (deep_output_layer self h a e)))).
    (* the incremental call on [done ++ [t]] *)
    pose proof (forward_run l0 ls (done ++ [t]) (Some c) hd cd Hl Lhd Lcd Hc) as Hinc.
    cbv zeta in Hinc. rewrite skipn_last_one in Hinc.
    specialize (Hinc ltac:(discriminate) h1 c1 [y] [ctx] E1').
    (* the state after [done ++ [t]] *)
    assert (Ea : steps_spec self enc l0 ls
                   (map (apply_dropout self) (map (embed_tokens self) (done ++ [t]))) z z
                 = (h1, c1, yd ++ [y], cxd ++ [ctx])).
    { rewrite !map_app, steps_spec_app, Ed. cbn [map]. fold x. rewrite E1'. reflexivity. }
    destruct (IH (done ++ [t]) (Some (h1, c1))) as (ys & Eys & Lys & Hys).
    { rewrite Ea. reflexivity. }
    exists (zip3 F [y] [ctx] [embed_tokens self t] :: ys).
    split; [|split].
    + cbn [incremental_decode]. fold F in Hinc. rewrite Hinc. cbn [bind snd fst option_map map].
      match goal with
      | |- bind ?m _ = _ => replace m with (Ok ys : result (list (list V))) by (symmetry; exact Eys)
      end.
      reflexivity.
    + simpl. now rewrite Lys.
    + intros [|k] Hk.
      * simpl firstn. rewrite Nat.add_0_r.
        pose proof (forward_run l0 ls (done ++ [t]) None z z Hl Hz Hz eq_refl) as Hfull.
        cbv zeta in Hfull.
        specialize (Hfull ltac:(destruct done; discriminate) _ _ _ _ Ea).
        cbv beta iota in Hfull. fold F in Hfull. rewrite Hfull.
        eexists; split; [reflexivity|].
        rewrite map_app, zip3_app by (rewrite ?length_map; lia).
        assert (Hzl : List.length (zip3 F yd cxd (map (embed_tokens self) done)) = List.length done)
          by (rewrite zip3_length; rewrite ?length_map; lia).
        split.
        -- rewrite length_app, Hzl. reflexivity.
        -- simpl nth. rewrite <- Hzl, skipn_app, skipn_all, Nat.sub_diag. reflexivity.
      * simpl in Hk. destruct (Hys k ltac:(lia)) as (full & Ef & Lf & Nf).
        exists full. rewrite <- app_assoc in Ef. simpl in Ef |- *.
        split; [exact Ef|]. rewrite length_app in Lf, Nf. simpl in Lf, Nf.
        split; [lia|]. rewrite Nf. f_equal. lia.
Qed.

End Loops.

(** C8: with at least one layer and [prev_hiddens], [prev_cells] holding one
    state per layer, one time step of [LSTMDecoder.forward] is [step_spec]:
    layer 0 takes the input and the state of the top layer at the previous
    update ([prev_hiddens[num_layers - 1]]), the attention context is
    computed once from layer 0's new hidden state, every layer [i > 0] takes
    that context as input and the state just emitted by layer [i - 1], and
    the top layer's hidden state is appended to [outs] (the context to
    [attention_outs]). *)
Theorem timestep_layer_wiring :
  forall {Tok V Enc : Type} (self : lstm_decoder Tok V Enc) (encoder_out : Enc)
    (x : V) (xs hs cs : list V) (hid : option V) (os aos : list V),
  layers self <> [] ->
  List.length hs = num_layers self -> List.length cs = num_layers self ->
  exists hs1 cs1 ctx y,
    timestep_spec self encoder_out x hs cs = Some (hs1, cs1, ctx, y) /\
    time_loop self encoder_out (x :: xs) (FState hs cs hid os aos) =
    time_loop self encoder_out xs (FState hs1 cs1 (Some y) (os ++ [y]) (aos ++ [ctx])).
Proof.
  intros Tok V Enc self enc x xs hs cs hid os aos Hne Hh Hc.
  unfold timestep_spec.
  destruct (layers self) as [|l0 ls] eqn:Hl; [contradiction|].
  destruct (step_spec self enc l0 ls x hs cs) as [[[hs1 cs1] ctx] y] eqn:E.
  exists hs1, cs1, ctx, y. split; [reflexivity|].
  exact (proj1 (time_loop_step self enc l0 ls x xs hs cs hid os aos Hl Hh Hc _ _ _ _ E)).
Qed.

(** C7: with at least one layer, feeding [LSTMDecoder.forward] the target
    tokens one at a time with a persistent [incremental_state] (each call
    processes only the last token and reads and writes the cached
    [(prev_hiddens, prev_cells)]) returns at step [k] exactly the logits of
    the last position of one full pass over the prefix of length [k + 1]
    with [incremental_state=None]. The dropout is any fixed function, in
    particular none. *)
Theorem incremental_decoding_full_pass :
  forall {Tok V Enc : Type} (self : lstm_decoder Tok V Enc) (encoder_out : Enc)
    (toks : list Tok),
  layers self <> [] ->
  exists ys,
    incremental_decode self encoder_out [] toks (Some None) = Ok ys /\
    List.length ys = List.length toks /\
    forall k, (k < List.length toks)%nat ->
      exists full,
        forward self encoder_out (firstn (S k) toks) None = Ok (full, None) /\
        List.length full = S k /\ nth k ys [] = skipn k full.
Proof.
  intros Tok V Enc self enc toks Hne.
  destruct (layers self) as [|l0 ls] eqn:Hl; [contradiction|].
  destruct (incremental_run self enc l0 ls toks [] None Hl eq_refl) as (ys & E & L & H).
  exists ys. split; [exact E|]. split; [exact L|].
  intros k Hk. exact (H k Hk).
Qed.

End DecoderFacts.

(** ** The MLP attention *)

Module AttentionFacts.
Import Inference Attention AttentionSpec.
Local Open Scope nat_scope.

Lemma all_upto_false n (p : nat -> bool) i :
  (i < n)%nat -> p i = false -> all_upto n p = false.
Proof.
  induction n as [|n IH]; intros Hi Hp; [lia|]. simpl.
  destruct (Nat.eq_dec i n) as [->|Hne].
  - rewrite Hp. apply andb_false_r.
  - rewrite IH by (auto; lia). reflexivity.
Qed.

Lemma all_upto_true n (p : nat -> bool) :
  (forall i, (i < n)%nat -> p i = true) -> all_upto n p = true.
Proof.
  induction n as [|n IH]; intros H; [reflexivity|]. simpl.
  rewrite IH, H by (auto; lia). reflexivity.
Qed.

(** Row-major index arithmetic. *)
Lemma idx3 (i j k b c : nat) :
  (j < b)%nat -> (k < c)%nat ->
  ((i * b + j) * c + k) / (b * c) = i /\
  (((i * b + j) * c + k) / c) mod b = j /\
  ((i * b + j) * c + k) mod c = k.
Proof.
  intros Hj Hk.
  assert (Hc : ((i * b + j) * c + k) / c = (i * b + j)%nat)
    by (symmetry; apply (Nat.div_unique _ _ _ k); lia).
  split; [|split].
  - symmetry. apply (Nat.div_unique _ _ _ (j * c + k)); nia.
  - rewrite Hc. symmetry. apply (Nat.mod_unique _ _ i); lia.
  - symmetry. apply (Nat.mod_unique _ _ (i * b + j)); lia.
Qed.

Lemma flat3_mk {A} a b c (f : nat -> nat -> nat -> A) i j k :
  (j < b)%nat -> (k < c)%nat -> flat3 (mkT3 a b c f) ((i * b + j) * c + k) = f i j k.
Proof.
  intros Hj Hk. unfold flat3; simpl. destruct (idx3 i j k b c Hj Hk) as (-> & -> & ->).
  reflexivity.
Qed.

Lemma flat2_mk {A} r c (f : nat -> nat -> A) x k :
  (k < c)%nat -> flat2 (mkT r c f) (x * c + k) = f x k.
Proof.
  intros Hk. unfold flat2; simpl.
  rewrite <- (Nat.div_unique (x * c + k) c x k), <- (Nat.mod_unique (x * c + k) c x k) by lia.
  reflexivity.
Qed.

Lemma flat2_mk1 {A} r (f : nat -> nat -> A) x :
  flat2 (mkT r 1 f) x = f x 0%nat.
Proof.
  pose proof (flat2_mk r 1 f x 0 ltac:(lia)) as H. rewrite Nat.mul_1_r, Nat.add_0_r in H.
  exact H.
Qed.

Lemma view3_2_ok {A} (x : tensor3 A) c :
  (0 < c)%nat -> dim2 x = c ->
  view3_2 x c = Ok (mkT (dim0 x * dim1 x) c (fun r j => flat3 x (r * c + j))).
Proof.
  intros Hc Hd. unfold view3_2, numel3. rewrite Hd.
  rewrite (proj2 (Nat.eqb_neq c 0)) by lia. rewrite Nat.Div0.mod_mul, Nat.eqb_refl.
  simpl. rewrite Nat.div_mul by lia. reflexivity.
Qed.

Lemma view2_3_ok {A} (x : tensor A) a b c :
  rows x = (a * b)%nat -> cols x = c ->
  view2_3 x a b c = Ok (mkT3 a b c (fun i j k => flat2 x ((i * b + j) * c + k))).
Proof.
  intros Hr Hc. unfold view2_3. rewrite Hr, Hc, Nat.eqb_refl. reflexivity.
Qed.

Lemma view2_2_ok {A} (x : tensor A) a b :
  rows x = (a * b)%nat -> cols x = 1%nat ->
  view2_2 x a b = Ok (mkT a b (fun i j => flat2 x (i * b + j))).
Proof.
  intros Hr Hc. unfold view2_2. rewrite Hr, Hc, Nat.mul_1_r, Nat.eqb_refl. reflexivity.
Qed.

Local Open Scope R_scope.

Lemma rsum_ext n (f g : nat -> R) :
  (forall i, (i < n)%nat -> f i = g i) -> rsum n f = rsum n g.
Proof.
  induction n as [|n IH]; intros H; simpl; [reflexivity|].
  rewrite IH by (intros; apply H; lia). now rewrite H by lia.
Qed.

Lemma rsum_nonneg n (f : nat -> R) :
  (forall i, (i < n)%nat -> 0 <= f i) -> 0 <= rsum n f.
Proof.
  induction n as [|n IH]; intros H; simpl; [lra|].
  assert (0 <= f n) by (apply H; lia). assert (0 <= rsum n f) by (apply IH; intros; apply H; lia).
  lra.
Qed.

Lemma rsum_pos n (f : nat -> R) i :
  (forall k, (k < n)%nat -> 0 <= f k) -> (i < n)%nat -> 0 < f i -> 0 < rsum n f.
Proof.
  induction n as [|n IH]; intros H Hi Hf; [lia|]. simpl.
  destruct (Nat.eq_dec i n) as [->|Hne].
  - assert (0 <= rsum n f) by (apply rsum_nonneg; intros; apply H; lia). lra.
  - assert (0 < rsum n f) by (apply IH; auto; lia). assert (0 <= f n) by (apply H; lia). lra.
Qed.

Lemma rsum_div n (f : nat -> R) (z : R) :
  rsum n (fun i => f i / z) = rsum n f / z.
Proof.
  induction n as [|n IH]; simpl; [unfold Rdiv; ring|]. rewrite IH. unfold Rdiv; ring.
Qed.

Lemma fsum_some n (f : nat -> fl) (g : nat -> R) :
  (forall i, (i < n)%nat -> f i = Some (g i)) -> fsum n f = Some (rsum n g).
Proof.
  induction n as [|n IH]; intros H; simpl; [reflexivity|].
  rewrite IH by (intros; apply H; lia). now rewrite H by lia.
Qed.

Lemma linear_ok in_f out_f w b (x : tensor R) :
  cols x = in_f ->
  linear in_f out_f w b x =
  Ok (mkT (rows x) out_f (fun r o =>
        rsum in_f (fun i => ent x r i * w o i)
        + match b with Some b => b o | None => 0 end)).
Proof. intros H. unfold linear. now rewrite H, Nat.eqb_refl. Qed.

Lemma bcast3_ok {A B C} (f : A -> B -> C) (x : tensor3 A) (y : tensor3 B) a b c :
  bdim (dim0 x) (dim0 y) = Some a -> bdim (dim1 x) (dim1 y) = Some b ->
  bdim (dim2 x) (dim2 y) = Some c ->
  bcast3 f x y =
  Ok (mkT3 a b c (fun i j k =>
        f (ent3 x (bidx (dim0 x) i) (bidx (dim1 x) j) (bidx (dim2 x) k))
          (ent3 y (bidx (dim0 y) i) (bidx (dim1 y) j) (bidx (dim2 y) k)))).
Proof. intros H0 H1 H2. unfold bcast3. now rewrite H0, H1, H2. Qed.

Lemma flat3_gen {A} (x : tensor3 A) i j k b c :
  b = dim1 x -> c = dim2 x -> (j < b)%nat -> (k < c)%nat ->
  flat3 x ((i * b + j) * c + k)%nat = ent3 x i j k.
Proof.
  intros -> -> Hj Hk. unfold flat3. destruct (idx3 i j k _ _ Hj Hk) as (-> & -> & ->).
  reflexivity.
Qed.

(** The forward pass up to the scores, which are [score]. *)
Lemma forward_scores (self : mlp_attention) (dec : tensor R) (src : tensor3 R) mask :
  (0 < context_dim self)%nat -> (0 < attention_dim self)%nat ->
  dim2 src = context_dim self -> rows dec = dim1 src ->
  cols dec = decoder_hidden_state_dim self ->
  exists SC,
    Attention.forward self dec src mask =
      (attn_scores <- match mask with
                      | Some m => masked_fill (tmap Fin SC) m NegInf
                      | None => Ok (tmap Fin SC)
                      end ;;
       let n := softmax0 attn_scores in
       w <- bcast3 fmul src (unsqueeze2 n) ;;
       Ok (sum_dim0 w, n)) /\
    rows SC = dim0 src /\ cols SC = dim1 src /\
    forall i b, (i < dim0 src)%nat -> (b < dim1 src)%nat ->
      ent SC i b = score self dec src i b.
Proof.
  intros HC HA Hd2 Hdr Hdc.
  unfold Attention.forward.
  rewrite view3_2_ok by assumption. cbn [bind].
  rewrite linear_ok by reflexivity. cbn [bind].
  rewrite view2_3_ok by reflexivity. cbn [bind].
  rewrite linear_ok by exact Hdc. cbn [bind].
  rewrite (bcast3_ok _ _ _ (dim0 src) (dim1 src) (attention_dim self))
    by (simpl; rewrite ?Hdr; first [apply bdim_same | apply bdim_1l]).
  cbn [bind].
  rewrite view3_2_ok by (simpl; auto). cbn [bind].
  rewrite linear_ok by reflexivity. cbn [bind].
  rewrite view2_2_ok by (simpl; auto). cbn [bind].
  eexists; split; [reflexivity|].
  split; [reflexivity|]. split; [reflexivity|].
  intros i b Hi Hb.
  cbn [ent rows cols dim0 dim1 dim2 ent3 unsqueeze0 tmap].
  rewrite flat2_mk1. cbn [ent rows cols dim0 dim1 dim2 ent3 unsqueeze0 tmap].
  rewrite Rplus_0_r. unfold score. apply rsum_ext; intros a Ha.
  rewrite flat3_mk by lia.
  cbn [ent rows cols dim0 dim1 dim2 ent3 unsqueeze0 tmap].
  rewrite Hdr, !bidx_lt by lia.
  rewrite flat2_mk by lia.
  cbn [ent rows cols dim0 dim1 dim2 ent3 unsqueeze0 tmap].
  rewrite (rsum_ext _ (fun i0 => flat3 src ((i * dim1 src + b) * context_dim self + i0)
                                 * encoder_proj_weight self a i0)
                      (fun c => encoder_proj_weight self a c * ent3 src i b c))
    by (intros c Hc; rewrite (flat3_gen src i b c (dim1 src) (context_dim self)) by auto; ring).
  rewrite (rsum_ext _ (fun i0 => ent dec b i0 * decoder_proj_weight self a i0)
                      (fun d => decoder_proj_weight self a d * ent dec b d))
    by (intros; ring).
  rewrite Rmult_comm. f_equal. f_equal. ring.
Qed.

(** The masked scores: [-inf] at the masked positions. *)
Lemma masked_scores (SC : tensor R) (mask : option (tensor bool)) S B :
  rows SC = S -> cols SC = B ->
  (forall m, mask = Some m -> rows m = S /\ cols m = B) ->
  exists X,
    match mask with
    | Some m => masked_fill (tmap Fin SC) m NegInf
    | None => Ok (tmap Fin SC)
    end = Ok X /\
    rows X = S /\ cols X = B /\
    forall i b, (i < S)%nat -> (b < B)%nat ->
      ent X i b = if is_masked mask i b then NegInf else Fin (ent SC i b).
Proof.
  intros Hr Hc Hm. destruct mask as [m|].
  - destruct (Hm m eq_refl) as [Hmr Hmc]. unfold masked_fill.
    rewrite (bcast_ok _ _ _ S B)
      by (simpl; rewrite ?Hr, ?Hc, ?Hmr, ?Hmc; apply bdim_same).
    eexists; split; [reflexivity|]. split; [reflexivity|]. split; [reflexivity|].
    intros i b Hi Hb. simpl. rewrite Hr, Hc, Hmr, Hmc, !bidx_lt by lia.
    destruct (ent m i b); reflexivity.
  - eexists; split; [reflexivity|]. simpl. auto.
Qed.

Lemma xexp_masked (X : tensor xreal) (SC : tensor R) mask i b :
  ent X i b = (if is_masked mask i b then NegInf else Fin (ent SC i b)) ->
  xexp (ent X i b) = if is_masked mask i b then 0 else exp (ent SC i b).
Proof. intros ->. destruct (is_masked mask i b); reflexivity. Qed.

(** C6: for a decoder state of shape [bsz x decoder_hidden_state_dim], source
    hidden states of shape [src_len x bsz x context_dim] and an optional
    padding mask of shape [src_len x bsz], [MLPAttention.forward] succeeds
    and returns the normalized scores [alpha] ([src_len x bsz]) and the
    context ([bsz x context_dim]). For every batch element with some unpadded
    position, [alpha] is the softmax over the source positions of
    [V_a * tanh(W_ae * enc_i + W_ad * dec_j + b_a)] with the padded positions
    at [-inf] ([weight]); these weights are non-negative, are 0 at the padded
    positions, sum to 1, and the context is the sum of the source hidden
    states weighted by them. A batch element whose positions are all padded
    gets NaN scores. *)
Theorem mlp_attention_forward :
  forall (self : mlp_attention) (dec : tensor R) (src : tensor3 R)
         (mask : option (tensor bool)),
  (0 < context_dim self)%nat -> (0 < attention_dim self)%nat ->
  dim2 src = context_dim self -> rows dec = dim1 src ->
  cols dec = decoder_hidden_state_dim self ->
  (forall m, mask = Some m -> rows m = dim0 src /\ cols m = dim1 src) ->
  exists ctx alpha,
    Attention.forward self dec src mask = Ok (ctx, alpha) /\
    rows alpha = dim0 src /\ cols alpha = dim1 src /\
    rows ctx = dim1 src /\ cols ctx = context_dim self /\
    forall b, (b < dim1 src)%nat ->
      ((exists i, (i < dim0 src)%nat /\ is_masked mask i b = false) ->
        (forall i, (i < dim0 src)%nat ->
           ent alpha i b = Some (weight self dec src mask i b) /\
           0 <= weight self dec src mask i b /\
           (is_masked mask i b = true -> weight self dec src mask i b = 0)) /\
        rsum (dim0 src) (fun i => weight self dec src mask i b) = 1 /\
        (forall c, (c < context_dim self)%nat ->
           ent ctx b c =
           Some (rsum (dim0 src) (fun i => ent3 src i b c * weight self dec src mask i b)))) /\
      ((forall i, (i < dim0 src)%nat -> is_masked mask i b = true) ->
        forall i, (i < dim0 src)%nat -> ent alpha i b = None).
Proof.
  intros self dec src mask HC HA Hd2 Hdr Hdc Hm.
  destruct (forward_scores self dec src mask HC HA Hd2 Hdr Hdc) as (SC & Heq & HSr & HSc & HSe).
  rewrite Heq.
  destruct (masked_scores SC mask (dim0 src) (dim1 src) HSr HSc Hm) as (X & HX & HXr & HXc & HXe).
  rewrite HX. cbn [bind].
  rewrite (bcast3_ok _ _ _ (dim0 src) (dim1 src) (context_dim self))
    by (simpl; rewrite ?HXr, ?HXc, ?Hd2; first [apply bdim_same | apply bdim_1r]).
  cbn [bind].
  eexists _, _; split; [reflexivity|].
  cbn [rows cols softmax0 sum_dim0 dim0 dim1 dim2].
  split; [exact HXr|]. split; [exact HXc|]. split; [reflexivity|]. split; [reflexivity|].
  intros b Hb.
  set (den := rsum (dim0 src) (fun k =>
                if is_masked mask k b then 0 else exp (score self dec src k b))).
  assert (Hx : forall k, (k < dim0 src)%nat ->
            xexp (ent X k b) = if is_masked mask k b then 0 else exp (score self dec src k b)).
  { intros k Hk. rewrite (xexp_masked X SC mask k b) by (apply HXe; auto).
    rewrite HSe by auto. reflexivity. }
  assert (Hden : rsum (rows X) (fun k => xexp (ent X k b)) = den).
  { rewrite HXr. apply rsum_ext. exact Hx. }
  split.
  - intros (i0 & Hi0 & Hun).
    assert (Hpos : 0 < den).
    { apply (rsum_pos _ _ i0); auto.
      - intros k _. destruct (is_masked mask k b); [lra|]. apply Rlt_le, exp_pos.
      - rewrite Hun. apply exp_pos. }
    assert (Hall : all_upto (rows X) (fun k => is_neginf (ent X k b)) = false).
    { apply (all_upto_false _ _ i0); [lia|]. rewrite HXe by auto. rewrite Hun. reflexivity. }
    assert (Halpha : forall i, (i < dim0 src)%nat ->
              ent (softmax0 X) i b = Some (weight self dec src mask i b)).
    { intros i Hi. cbn [softmax0 ent]. rewrite Hall, Hden, Hx by auto.
      unfold weight. fold den. destruct (is_masked mask i b); [|reflexivity].
      f_equal. unfold Rdiv. ring. }
    split; [|split].
    + intros i Hi. split; [apply Halpha; auto|]. split.
      * unfold weight. fold den. destruct (is_masked mask i b); [lra|].
        apply Rlt_le, Rdiv_lt_0_compat; [apply exp_pos | exact Hpos].
      * intros Hmi. unfold weight. rewrite Hmi. reflexivity.
    + unfold weight. fold den.
      rewrite (rsum_ext _ _ (fun i => (if is_masked mask i b then 0
                                       else exp (score self dec src i b)) / den))
        by (intros i _; destruct (is_masked mask i b); [unfold Rdiv; ring | reflexivity]).
      rewrite rsum_div. fold den. unfold Rdiv. apply Rinv_r. lra.
    + intros c Hc. cbn [ent sum_dim0 dim0 dim1 dim2].
      apply fsum_some. intros i Hi. cbn [ent3 unsqueeze2 softmax0 rows cols dim0 dim1 dim2].
      rewrite Hd2, HXr, HXc, !bidx_lt by lia.
      change (mkT (rows X) (cols X) _) with (softmax0 X).
      rewrite Halpha by auto. reflexivity.
  - intros Hallm i Hi. cbn [softmax0 ent].
    rewrite all_upto_true; [reflexivity|].
    intros k Hk. rewrite HXr in Hk. rewrite HXe, Hallm by auto. reflexivity.
Qed.

End AttentionFacts.

(** ** More of utils/latency.py *)

Module LatencyMoreFacts.
Import Latency Inference LatencySpec LatencyViews LatencyFacts InferenceFacts.

Lemma zsum_b2z_bounds n (f : nat -> bool) :
  (0 <= Latency.zsum n (fun i => Z.b2z (f i)) <= Z.of_nat n)%Z.
Proof.
  induction n as [|n IH]; cbn [Latency.zsum]; [lia|].
  rewrite Nat2Z.inj_succ. destruct (f n); cbn [Z.b2z]; lia.
Qed.

Lemma prepare_ok d0 s0 mask sfz :
  rows s0 = rows d0 ->
  (forall m, mask = Some m -> rows m = rows d0 /\ cols m = cols d0) ->
  exists p, prepare_latency_metric d0 s0 mask true sfz = Ok p.
Proof.
  intros Hs Hm.
  assert (Hd : exists d1, (if sfz then tmap (fun d => d + 1) d0 else d0) = d1
          /\ rows d1 = rows d0 /\ cols d1 = cols d0)
    by (destruct sfz; eexists; repeat split).
  destruct Hd as (d1 & Ed1 & Hr & Hc).
  unfold prepare_latency_metric. rewrite Ed1.
  destruct mask as [m|]; cbn [size transpose rows cols bind]; rewrite Hr, Hc.
  - destruct (Hm m eq_refl) as [Hmr Hmc].
    rewrite Hmr, Hmc, Hs, !Nat.eqb_refl. cbn [py_assert bind].
    unfold masked_fill.
    rewrite (bcast_ok _ _ _ (cols d0) (rows d0))
      by (simpl; rewrite ?Hr, ?Hc, ?Hmr, ?Hmc; apply bdim_same).
    rewrite ?Nat.eqb_refl. eexists; reflexivity.
  - rewrite Hs, Nat.eqb_refl. cbn [py_assert bind]. eexists; reflexivity.
Qed.

Lemma masked_transpose mask i j :
  masked (option_map transpose mask) i j = masked mask j i.
Proof. destruct mask; reflexivity. Qed.

Lemma qsum_le n (f g : nat -> Q) :
  (forall i, (i < n)%nat -> f i <= g i) -> qsum n f <= qsum n g.
Proof.
  induction n as [|n IH]; intros H; cbn [qsum]; [apply Qle_refl|].
  apply Qplus_le_compat; [apply IH; intros; apply H; lia | apply H; lia].
Qed.

Lemma qsum_nonneg n (f : nat -> Q) :
  (forall i, (i < n)%nat -> 0 <= f i) -> 0 <= qsum n f.
Proof.
  intros H. apply Qle_trans with (qsum n (fun _ => 0)).
  - induction n as [|n IH]; cbn [qsum]; [apply Qle_refl|].
    rewrite Qplus_0_r. apply IH. intros; apply H; lia.
  - apply qsum_le. exact H.
Qed.

Lemma qsum_pos n (f : nat -> Q) k :
  (forall i, (i < n)%nat -> 0 <= f i) -> (k < n)%nat -> 0 < f k -> 0 < qsum n f.
Proof.
  induction n as [|n IH]; intros H Hk Hf; [lia|]. cbn [qsum].
  destruct (Nat.eq_dec k n) as [->|Hne].
  - apply Qlt_le_trans with (0 + f n); [now rewrite Qplus_0_l|].
    apply Qplus_le_compat; [apply qsum_nonneg; intros; apply H; lia | apply Qle_refl].
  - apply Qlt_le_trans with (qsum n f + 0); [rewrite Qplus_0_r; apply IH; auto; lia|].
    apply Qplus_le_compat; [apply Qle_refl | apply H; lia].
Qed.

Lemma qsum_scale n c (f : nat -> Q) :
  qsum n (fun i => c * f i) == c * qsum n f.
Proof. induction n as [|n IH]; cbn [qsum]; [ring|]. rewrite IH. ring. Qed.

Lemma qsum_const n c : qsum n (fun _ => c) == qnat n * c.
Proof.
  induction n as [|n IH]; cbn [qsum]; [reflexivity|]. rewrite IH.
  unfold qnat. rewrite Nat2Z.inj_succ, <- Z.add_1_r, inject_Z_plus. ring.
Qed.

(** The formula of [AverageProportion.cal_metric] on prepared inputs. *)
Lemma ap_formula d0 s0 mask bf sfz p :
  cols s0 = 1%nat ->
  prepare_latency_metric d0 s0 mask bf sfz = Ok p ->
  exists R,
    ap_cal_metric (p_delays p) (p_src_lens p) (p_tgt_lens p) (p_mask p) = Ok R /\
    rows R = 1%nat /\ cols R = rows d0 /\
    forall j, (j < rows d0)%nat ->
      ent R 0 j ==
      1 / (ent s0 j 0 * tgt_length (p_mask p) (cols d0) j)
        * qsum (cols d0) (fun i => if masked (p_mask p) i j then 0 else ent (p_delays p) i j).
Proof.
  intros Hs1 Hp.
  pose proof (prepare_spec _ _ _ _ _ _ Hp) as
    (_ & Hsr & Hsrc & Hm & Hmask & Hdr & Hdc & Htr & Htc & Ht & _).
  destruct p as [d s t pm]; simpl in *; subst s.
  assert (Hsum : exists A, (match pm with
                            | Some m => x <- masked_fill d m 0 ;; Ok (sum0 x)
                            | None => Ok (sum0 d)
                            end) = Ok A /\ rows A = 1%nat /\ cols A = rows d0 /\
                 forall j, (j < rows d0)%nat -> ent A 0 j =
                   qsum (cols d0) (fun i => if masked pm i j then 0 else ent d i j)).
  { destruct pm as [m|].
    - destruct mask as [m0|]; [|discriminate Hm].
      injection Hm as ->. destruct (Hmask m0 eq_refl) as [Hmr Hmc].
      unfold masked_fill.
      rewrite (bcast_ok _ _ _ (cols d0) (rows d0))
        by (simpl; rewrite ?Hdr, ?Hdc, ?Hmr, ?Hmc; apply bdim_same).
      eexists; split; [reflexivity|]. simpl. repeat split; try assumption.
      intros j Hj. apply qsum_ext; intros i Hi. simpl.
      rewrite Hdr, Hdc, Hmr, Hmc, !bidx_lt by lia. reflexivity.
    - eexists; split; [reflexivity|]. simpl. repeat split; try assumption.
      intros j Hj. now rewrite Hdr. }
  destruct Hsum as (A & EA & HAr & HAc & HAe).
  unfold ap_cal_metric. rewrite EA. simpl.
  rewrite (bcast_ok _ _ _ 1 (rows d0))
    by (simpl; rewrite ?Hs1, ?Htr, ?Htc, ?Hsr; apply bdim_same).
  simpl.
  rewrite (bcast_ok _ _ _ 1 (rows d0))
    by (simpl; rewrite ?HAr, ?HAc, ?Hs1; apply bdim_same).
  eexists; split; [reflexivity|]. simpl. repeat split.
  intros j Hj. rewrite HAr, HAc, Hs1, Hsr, Htr, Htc, !bidx_lt by lia. simpl.
  rewrite HAe, Ht by assumption.
  unfold Qdiv; ring.
Qed.

Lemma tgt_length_count mask n j :
  tgt_length (option_map transpose mask) n j
  == qsum n (fun i => if masked mask j i then 0 else 1).
Proof.
  destruct mask as [m|]; simpl.
  - apply qsum_ext_eq. intros i _. now destruct (ent m j i).
  - rewrite qsum_const. ring.
Qed.

Lemma dal_formula : forall (d s t : tensor Q) m,
  rows s = 1%nat -> rows t = 1%nat -> cols s = cols d -> cols t = cols d ->
  (forall mm, m = Some mm -> rows mm = rows d /\ cols mm = cols d) ->
  exists R, dal_cal_metric d s t m = Ok R /\ rows R = 1%nat /\ cols R = cols d /\
    forall j, (j < cols d)%nat ->
      ent R 0 j ==
      1 / ent t 0 j *
      qsum (rows d) (fun i =>
        if masked m i j then 0
        else dal_adjusted (fun i => ent d i j) (ent t 0 j / ent s 0 j) i
             - qnat i / (ent t 0 j / ent s 0 j)).
Proof.
  intros d s t m Hsr Htr Hsc Htc Hm.
  unfold dal_cal_metric.
  rewrite (bcast_ok _ _ _ 1 (cols d)) by solve_bdim. simpl.
  match goal with |- context [dal_loop d ?g (rows d)] => set (gamma := g) end.
  destruct (dal_loop_spec d gamma (rows d) eq_refl ltac:(simpl; congruence) (le_n _))
    as (ND & EN & HNr & HNc & HNe).
  rewrite EN. simpl.
  unfold expand; simpl. rewrite Nat.eqb_refl, orb_true_r. simpl.
  rewrite (bcast_ok _ _ _ (rows d) (cols d)) by (unfold gamma; solve_bdim). simpl.
  rewrite (bcast_ok _ _ _ (rows d) (cols d)) by solve_bdim. simpl.
  match goal with
  | |- context [match m with Some mm => masked_fill ?X mm 0 | None => Ok ?X end] =>
      destruct (opt_masked_fill_ok X m ltac:(simpl; exact Hm)) as (D & ED & HDr & HDc & HDe)
  end.
  rewrite ED. simpl. simpl in HDr, HDc.
  rewrite (bcast_ok _ _ _ 1 (cols d)) by solve_bdim.
  eexists; repeat split. intros j Hj. simpl.
  rewrite HDc, Htr, Htc, !(bidx_lt (cols d) j Hj), bidx_1.
  rewrite HDr.
  rewrite (qsum_ext_eq (rows d) _ (fun i => if masked m i j then 0
      else dal_adjusted (fun i => ent d i j) (ent t 0 j / ent s 0 j) i
           - qnat i / (ent t 0 j / ent s 0 j))).
  - unfold Qdiv. ring.
  - intros i Hi. rewrite HDe by assumption.
    destruct (masked m i j); [reflexivity|]. simpl.
    rewrite HNr, HNc, !(bidx_lt (rows d) i Hi), !(bidx_lt (cols d) j Hj), bidx_1.
    rewrite HNe by assumption. unfold gamma; simpl.
    rewrite Hsr, Htr, Hsc, Htc, !bidx_1, !(bidx_lt (cols d) j Hj). reflexivity.
Qed.

Lemma dal_adjusted_lower (d : nat -> Q) g i :
  0 < g -> d O + qnat i * (1 / g) <= dal_adjusted d g i.
Proof.
  intros Hg. induction i as [|i IH]; cbn [dal_adjusted].
  - unfold qnat. simpl. rewrite Qmult_0_l, Qplus_0_r. apply Qle_refl.
  - apply Qle_trans with (dal_adjusted d g i + 1 / g); [|apply Q.le_max_r].
    setoid_replace (d O + qnat (S i) * (1 / g)) with (d O + qnat i * (1 / g) + 1 / g).
    + apply Qplus_le_compat; [exact IH|apply Qle_refl].
    + unfold qnat. rewrite Nat2Z.inj_succ, <- Z.add_1_r, inject_Z_plus. ring.
Qed.

Lemma Qdiv_pos a b : 0 < a -> 0 < b -> 0 < a / b.
Proof.
  intros Ha Hb. unfold Qdiv. apply Qmult_lt_0_compat; [exact Ha|].
  apply Qinv_lt_0_compat; exact Hb.
Qed.

Lemma zmax_upto_ge k (f : nat -> Z) : (f O <= zmax_upto k f)%Z.
Proof. induction k as [|k IH]; cbn [zmax_upto]; lia. Qed.

Lemma Zrange_Q z y :
  (0 <= z)%Z -> (z + 1 <= y)%Z -> 1 <= inject_Z z + 1 /\ inject_Z z + 1 <= inject_Z y.
Proof.
  intros H0 H1. change (inject_Z z + 1) with (inject_Z z + inject_Z 1).
  rewrite <- inject_Z_plus. change (1 : Q) with (inject_Z 1) at 1.
  rewrite <- !Zle_Qle. lia.
Qed.

Lemma qsum_ge_term n (f : nat -> Q) k :
  (forall i, (i < n)%nat -> 0 <= f i) -> (k < n)%nat -> f k <= qsum n f.
Proof.
  induction n as [|n IH]; intros H Hk; [lia|]. cbn [qsum].
  destruct (Nat.eq_dec k n) as [->|Hne].
  - apply Qle_trans with (0 + f n); [rewrite Qplus_0_l; apply Qle_refl|].
    apply Qplus_le_compat; [apply qsum_nonneg; intros; apply H; lia | apply Qle_refl].
  - apply Qle_trans with (qsum n f + 0); [rewrite Qplus_0_r; apply IH; auto; lia|].
    apply Qplus_le_compat; [apply Qle_refl | apply H; lia].
Qed.

(** [AverageProportion.__call__] on batch-first inputs whose unmasked shifted
    delays lie in [[1, |x|]]. *)
Lemma ap_bounds d0 s0 mask sfz j :
  rows s0 = rows d0 -> cols s0 = 1%nat ->
  (forall m, mask = Some m -> rows m = rows d0 /\ cols m = cols d0) ->
  (j < rows d0)%nat ->
  (exists i, (i < cols d0)%nat /\ masked mask j i = false) ->
  (forall i, (i < cols d0)%nat -> masked mask j i = false ->
     1 <= shift sfz (ent d0 j i) /\ shift sfz (ent d0 j i) <= ent s0 j 0) ->
  exists R, metric_call AverageProportion d0 s0 mask true sfz = Ok R /\
    rows R = 1%nat /\ cols R = rows d0 /\
    1 / ent s0 j 0 <= ent R 0 j /\ ent R 0 j <= 1.
Proof.
  intros Hsr Hsc Hm Hj (k & Hk & Hkm) Hrange.
  destruct (prepare_ok d0 s0 mask sfz Hsr Hm) as (p & Ep).
  pose proof (prepare_spec _ _ _ _ _ _ Ep) as
    (_ & _ & _ & Hpm & _ & _ & _ & _ & _ & _ & Hde).
  destruct (ap_formula d0 s0 mask true sfz p Hsc Ep) as (R & ER & HRr & HRc & HRe).
  exists R. unfold metric_call. rewrite Ep. cbn [bind cal_metric].
  split; [exact ER|]. split; [exact HRr|]. split; [exact HRc|].
  rewrite (HRe j Hj), Hpm, tgt_length_count.
  set (T := qsum (cols d0) (fun i => if masked mask j i then 0 else 1)).
  set (S := qsum (cols d0) (fun i => if masked (option_map transpose mask) i j then 0
                                     else ent (p_delays p) i j)).
  set (x := ent s0 j 0).
  assert (HT : 0 < T).
  { apply (qsum_pos _ _ k); [intros i _; destruct (masked mask j i); discriminate|
      exact Hk| rewrite Hkm; reflexivity]. }
  assert (Hx : 1 <= x) by (apply Qle_trans with (shift sfz (ent d0 j k)); apply Hrange; auto).
  assert (HTS : T <= S).
  { apply qsum_le. intros i Hi. rewrite masked_transpose. rewrite Hde by assumption. rewrite Hpm, masked_transpose.
    destruct (masked mask j i) eqn:E; [apply Qle_refl|]. apply Hrange; auto. }
  assert (HSx : S <= x * T).
  { unfold T. rewrite <- qsum_scale. apply qsum_le. intros i Hi.
    rewrite masked_transpose. rewrite Hde by assumption. rewrite Hpm, masked_transpose.
    destruct (masked mask j i) eqn:E; [rewrite Qmult_0_r; apply Qle_refl|].
    rewrite Qmult_1_r. apply Hrange; auto. }
  assert (HxT : 0 < x * T).
  { apply Qmult_lt_0_compat; [apply Qlt_le_trans with 1; [reflexivity|exact Hx]|exact HT]. }
  assert (E : 1 / (x * T) * S == S / (x * T)) by (unfold Qdiv; ring).
  rewrite E. split.
  - apply Qle_shift_div_l; [exact HxT|].
    setoid_replace (1 / x * (x * T)) with T; [exact HTS|].
    field. apply Qnot_eq_sym, Qlt_not_eq, Qlt_le_trans with 1; [reflexivity|exact Hx].
  - apply Qle_shift_div_r; [exact HxT|]. rewrite Qmult_1_l. exact HSx.
Qed.

(** [LatencyMetric.length_from_padding_mask]: with [batch_first=True] it is
    the transpose of the [batch_first=False] result on the transposed mask;
    with [batch_first=False], entry [j] is the number of [False] entries of
    column [j], between 0 and the number of rows. *)
Theorem length_from_padding_mask_counts (m : tensor bool) :
  teq (length_from_padding_mask m true)
      (transpose (length_from_padding_mask (transpose m) false)) /\
  forall j, (j < cols m)%nat ->
    ent (length_from_padding_mask m false) 0 j
      = Latency.zsum (rows m) (fun i => Z.b2z (negb (ent m i j))) /\
    (0 <= ent (length_from_padding_mask m false) 0 j <= Z.of_nat (rows m))%Z.
Proof.
  split.
  - repeat split.
  - intros j _. simpl. rewrite zsum_count. split; [reflexivity|].
    apply zsum_b2z_bounds.
Qed.

(** [LatencyMetric.prepare_latency_metric] with [batch_first=True] raises
    AssertionError when [src_lens] and [delays] differ in batch size, or when
    a target padding mask does not have the shape of [delays]; so does
    [LatencyMetric.__call__] for each of the three metrics. *)
Theorem prepare_assertion_error d0 s0 mask sfz :
  (rows s0 <> rows d0 \/
   exists m, mask = Some m /\ (rows m <> rows d0 \/ cols m <> cols d0)) ->
  prepare_latency_metric d0 s0 mask true sfz = Err AssertionError /\
  forall M, metric_call M d0 s0 mask true sfz = Err AssertionError.
Proof.
  intros H.
  assert (Hp : prepare_latency_metric d0 s0 mask true sfz = Err AssertionError).
  { assert (Hd : exists d1, (if sfz then tmap (fun d => d + 1) d0 else d0) = d1
            /\ rows d1 = rows d0 /\ cols d1 = cols d0)
      by (destruct sfz; eexists; repeat split).
    destruct Hd as (d1 & Ed1 & Hr & Hc).
    unfold prepare_latency_metric. rewrite Ed1.
    destruct mask as [m|]; cbn [size transpose rows cols bind]; rewrite Hr, Hc.
    - unfold py_assert.
      destruct (Nat.eqb_spec (cols d0) (cols m)); cbn [bind]; [|reflexivity].
      destruct (Nat.eqb_spec (rows d0) (rows m)); cbn [bind]; [|reflexivity].
      destruct (Nat.eqb_spec (rows d0) (rows s0)); cbn [bind]; [|reflexivity].
      exfalso. destruct H as [H|(m' & Em & H)]; [lia|]. injection Em as <-. lia.
    - unfold py_assert.
      destruct (Nat.eqb_spec (rows d0) (rows s0)); cbn [bind]; [|reflexivity].
      exfalso. destruct H as [H|(m' & Em & _)]; [lia|discriminate]. }
  split; [exact Hp|]. intros M. unfold metric_call. rewrite Hp. reflexivity.
Qed.

(** [LatencyMetric.prepare_latency_metric] with [batch_first=True] returns
    normally when [src_lens] has the batch size of [delays] and any target
    padding mask has the shape of [delays]: the delays come back transposed to
    [(tgt_len, bsz)], shifted by one when [start_from_zero] and zeroed where
    masked; [src_lens] and the mask come back transposed; [tgt_lens] is a
    [1 x bsz] row of target lengths. *)
Theorem prepare_batch_first_ok d0 s0 mask sfz :
  rows s0 = rows d0 ->
  (forall m, mask = Some m -> rows m = rows d0 /\ cols m = cols d0) ->
  exists p, prepare_latency_metric d0 s0 mask true sfz = Ok p /\
    p_src_lens p = transpose s0 /\ p_mask p = option_map transpose mask /\
    rows (p_delays p) = cols d0 /\ cols (p_delays p) = rows d0 /\
    rows (p_tgt_lens p) = 1%nat /\ cols (p_tgt_lens p) = rows d0 /\
    (forall j, (j < rows d0)%nat ->
       ent (p_tgt_lens p) 0 j == tgt_length (p_mask p) (cols d0) j) /\
    (forall i j, (i < cols d0)%nat -> (j < rows d0)%nat ->
       ent (p_delays p) i j = if masked mask j i then 0 else shift sfz (ent d0 j i)).
Proof.
  intros Hs Hm. destruct (prepare_ok d0 s0 mask sfz Hs Hm) as (p & Ep).
  exists p. split; [exact Ep|].
  destruct (prepare_spec _ _ _ _ _ _ Ep)
    as (_ & _ & Hsrc & Hpm & _ & Hdr & Hdc & Htr & Htc & Ht & Hde).
  repeat split; try assumption.
  intros i j Hi Hj. rewrite Hde by assumption. now rewrite Hpm, masked_transpose.
Qed.

(** [AverageLagging.cal_metric], for any delays (not assumed monotone) and any
    target padding mask, which it ignores: entry [j] is the sum of
    [delays_i - i / gamma] over the positions [i] not cut by the shifted
    lagging mask, divided by the number of those positions, which is at least
    1 when there is a target position (position 0 is never cut). *)
Theorem average_lagging_general : forall (d s t : tensor Q) m j,
  rows s = 1%nat -> rows t = 1%nat -> cols s = cols d -> cols t = cols d ->
  (j < cols d)%nat ->
  exists R, al_cal_metric d s t m = Ok R /\ rows R = 1%nat /\ cols R = cols d /\
    let gamma := ent t 0 j / ent s 0 j in
    ent R 0 j ==
      qsum (rows d) (fun i => if lagging_padding_mask d s i j then 0 else ent d i j - qnat i / gamma)
      / qsum (rows d) (fun i => if lagging_padding_mask d s i j then 0 else 1) /\
    ((0 < rows d)%nat -> 1 <= qsum (rows d) (fun i => if lagging_padding_mask d s i j then 0 else 1)).
Proof.
  intros d s t m j Hsr Htr Hsc Htc Hj.
  unfold al_cal_metric.
  rewrite (bcast_ok _ _ _ (rows d) (cols d)) by solve_bdim. simpl.
  rewrite (bcast_ok _ _ _ 1 (cols d)) by solve_bdim. simpl.
  unfold expand; simpl. rewrite Nat.eqb_refl, orb_true_r. simpl.
  rewrite (bcast_ok _ _ _ (rows d) (cols d)) by solve_bdim. simpl.
  rewrite (bcast_ok _ _ _ (rows d) (cols d)) by solve_bdim. simpl.
  unfold masked_fill.
  rewrite (bcast_ok _ _ _ (rows d) (cols d)) by solve_bdim. simpl.
  rewrite (bcast_ok _ _ _ 1 (cols d)) by solve_bdim.
  eexists; split; [reflexivity|]. simpl. split; [reflexivity|]. split; [reflexivity|].
  split.
  - rewrite Nat.sub_0_r, Hsr, Htr, Hsc, Htc, !(bidx_lt (cols d) j Hj).
    change (bidx 1) with (fun _ : nat => 0%nat); cbv beta.
    unfold Qdiv. apply Qmult_comp; [|apply Qinv_comp]; apply qsum_ext_eq;
      intros i Hi; unfold lagging_padding_mask; rewrite ?(bidx_lt (rows d) i Hi);
      (destruct i as [|i]; [reflexivity|]); rewrite (bidx_lt (rows d) i) by lia;
      [reflexivity|].
    destruct (Qle_bool (ent s 0 j) (ent d i j)); unfold b2q; ring.
  - intros Hn.
    apply Qle_trans with (if lagging_padding_mask d s 0 j then 0 else 1);
      [apply Qle_refl|].
    apply (qsum_ge_term (rows d) (fun i => if lagging_padding_mask d s i j then 0 else 1) 0);
      [|exact Hn].
    intros i _. destruct (lagging_padding_mask d s i j); discriminate.
Qed.

(** [AverageProportion.__call__] with [batch_first=True]: when the shifted
    delays of the unmasked positions of batch element [j] lie in [[1, |x|]]
    and [j] has an unmasked position, its AP lies in [[1 / |x|, 1]]. *)
Theorem average_proportion_range d0 s0 mask sfz j :
  rows s0 = rows d0 -> cols s0 = 1%nat ->
  (forall m, mask = Some m -> rows m = rows d0 /\ cols m = cols d0) ->
  (j < rows d0)%nat ->
  (exists i, (i < cols d0)%nat /\ masked mask j i = false) ->
  (forall i, (i < cols d0)%nat -> masked mask j i = false ->
     1 <= shift sfz (ent d0 j i) /\ shift sfz (ent d0 j i) <= ent s0 j 0) ->
  exists R, metric_call AverageProportion d0 s0 mask true sfz = Ok R /\
    rows R = 1%nat /\ cols R = rows d0 /\
    1 / ent s0 j 0 <= ent R 0 j /\ ent R 0 j <= 1.
Proof.
  exact (ap_bounds d0 s0 mask sfz j).
Qed.


(** [DifferentiableAverageLagging.__call__] with [batch_first=True], no mask
    and a positive source length: the DAL of a batch element is at least its
    first (shifted) delay. *)
Theorem dal_first_delay_bound d0 s0 sfz j :
  rows s0 = rows d0 -> cols s0 = 1%nat -> (0 < cols d0)%nat -> (j < rows d0)%nat ->
  0 < ent s0 j 0 ->
  exists R, metric_call DifferentiableAverageLagging d0 s0 None true sfz = Ok R /\
    rows R = 1%nat /\ cols R = rows d0 /\ shift sfz (ent d0 j 0) <= ent R 0 j.
Proof.
  intros Hsr Hsc Hn Hj Hs.
  destruct (prepare_ok d0 s0 None sfz Hsr ltac:(discriminate)) as (p & Ep).
  pose proof (prepare_spec _ _ _ _ _ _ Ep) as
    (_ & _ & Hsrc & Hpm & _ & Hdr & Hdc & Htr & Htc & Ht & Hde).
  destruct p as [D S T pm]; simpl in *. subst S pm.
  destruct (dal_formula D (transpose s0) T None ltac:(simpl; exact Hsc) Htr
              ltac:(simpl; congruence) ltac:(congruence) ltac:(discriminate))
    as (R & ER & HRr & HRc & HRe).
  exists R. unfold metric_call. rewrite Ep. cbn [bind cal_metric p_delays p_src_lens p_tgt_lens p_mask].
  split; [exact ER|]. split; [exact HRr|]. split; [congruence|].
  rewrite (HRe j ltac:(lia)). simpl.
  specialize (Ht j Hj). simpl in Ht.
  set (t := ent T 0 j) in *. set (x := ent s0 j 0) in *.
  set (n := cols d0) in *.
  assert (Hnq : 0 < qnat n) by (unfold qnat, Qlt; simpl; lia).
  assert (Htp : 0 < t) by (rewrite Ht; exact Hnq).
  assert (Hg : 0 < t / x) by (apply Qdiv_pos; assumption).
  rewrite Hdr.
  assert (HD0 : ent D 0 j = shift sfz (ent d0 j 0)) by (rewrite Hde; [reflexivity|lia|exact Hj]).
  assert (Hsum : qnat n * shift sfz (ent d0 j 0) <=
                 qsum n (fun i => dal_adjusted (fun i => ent D i j) (t / x) i - qnat i / (t / x))).
  { rewrite <- qsum_const. apply qsum_le. intros i _.
    pose proof (dal_adjusted_lower (fun i => ent D i j) (t / x) i Hg) as L.
    cbv beta in L. rewrite HD0 in L.
    apply Qle_trans with (shift sfz (ent d0 j 0) + qnat i * (1 / (t / x)) - qnat i / (t / x)).
    - apply Qle_lteq. right. unfold Qdiv. ring.
    - apply Qplus_le_compat; [exact L|apply Qle_refl]. }
  apply Qle_trans with (1 / t * (qnat n * shift sfz (ent d0 j 0))).
  - apply Qle_lteq. right. rewrite Ht. field.
    apply Qnot_eq_sym, Qlt_not_eq, Hnq.
  - apply Qmult_le_l; [|exact Hsum].
    unfold Qdiv. rewrite Qmult_1_l. apply Qinv_lt_0_compat, Htp.
Qed.

(** [LatencyInference(start_from_zero=True)]: when [monotonic_step] is
    non-negative and every source length is at least 1, the
    "average_proportion" value of every batch element lies in
    [[1 / src_len, 1]]. *)
Theorem latency_inference_ap_range ms sl :
  (0 < dim1 ms)%nat -> (0 < dim2 ms)%nat -> rows sl = dim0 ms -> cols sl = 1%nat ->
  (forall b k t, (b < dim0 ms)%nat -> (k < dim1 ms)%nat -> (t < dim2 ms)%nat ->
     (0 <= ent3 ms b k t)%Z) ->
  (forall b, (b < dim0 ms)%nat -> (1 <= ent sl b 0)%Z) ->
  exists vd va vp,
    latency_inference true ms sl =
      Ok [("differentiable_average_lagging"%string, vd);
          ("average_lagging"%string, va);
          ("average_proportion"%string, vp)] /\
    rows vp = dim0 ms /\ cols vp = 1%nat /\
    forall b, (b < dim0 ms)%nat ->
      1 / inject_Z (ent sl b 0) <= ent vp b 0 /\ ent vp b 0 <= 1.
Proof.
  intros H1 H2 Hr Hc Hms Hsl.
  destruct (latency_inference_delays ms sl H1 Hr Hc) as (D & HD & ->).
  destruct HD as (HDr & HDc & HDe). simpl in HDr, HDc.
  destruct (metric_call_ok DifferentiableAverageLagging (to_float D) (to_float sl)
              ltac:(simpl; congruence) Hc) as (wd & Ed).
  destruct (metric_call_ok AverageLagging (to_float D) (to_float sl)
              ltac:(simpl; congruence) Hc) as (wa & Ea).
  destruct (metric_call_ok AverageProportion (to_float D) (to_float sl)
              ltac:(simpl; congruence) Hc) as (wp & Ep).
  exists (transpose wd), (transpose wa), (transpose wp).
  simpl fill_dict. rewrite Ed, Ea, Ep. cbn [bind]. split; [reflexivity|].
  assert (Hw : forall b, (b < dim0 ms)%nat ->
            1 / inject_Z (ent sl b 0) <= ent wp 0 b /\ ent wp 0 b <= 1).
  { intros b Hb.
    destruct (ap_bounds (to_float D) (to_float sl) None true b
                ltac:(simpl; congruence) Hc ltac:(discriminate) ltac:(simpl; lia)
                ltac:(exists 0%nat; split; [simpl; lia | reflexivity]))
      as (R & ER & HRr & HRc & Hlo & Hhi).
    - intros i Hi _. simpl in Hi |- *. unfold to_float, tmap. simpl.
      rewrite HDe by lia. unfold clamped_delays. simpl.
      pose proof (zmax_upto_ge (dim1 ms - 1) (fun m => ent3 ms b m i)) as Hz.
      pose proof (Hms b 0%nat i Hb H1 ltac:(lia)) as H0. cbv beta in Hz.
      pose proof (Hsl b Hb) as Hs1.
      apply Zrange_Q;
      destruct (Z.leb_spec (ent sl b 0) (zmax_upto (dim1 ms - 1) (fun m => ent3 ms b m i)));
        lia.
    - rewrite Ep in ER. injection ER as <-. split; assumption. }
  destruct (prepare_ok (to_float D) (to_float sl) None true ltac:(simpl; congruence)
              ltac:(discriminate)) as (p & Epp).
  destruct (ap_formula _ _ _ _ _ _ (ltac:(simpl; exact Hc) : cols (to_float sl) = 1%nat) Epp) as (R & ER & HRr & HRc & _).
  unfold metric_call in Ep. rewrite Epp in Ep. cbn [bind cal_metric] in Ep.
  rewrite Ep in ER. injection ER as <-.
  simpl in HRc. split; [simpl; congruence|]. split; [simpl; exact HRr|].
  intros b Hb. exact (Hw b Hb).
Qed.


End LatencyMoreFacts.

(** ** More of MLPAttention *)

Module AttentionMoreFacts.
Import Inference Attention AttentionSpec AttentionFacts.
Local Open Scope R_scope.

Lemma fsum_ext n (f g : nat -> fl) :
  (forall i, (i < n)%nat -> f i = g i) -> fsum n f = fsum n g.
Proof.
  induction n as [|n IH]; intros H; simpl; [reflexivity|].
  rewrite IH by (intros; apply H; lia). now rewrite H by lia.
Qed.

(** The outputs of [MLPAttention.forward], entry by entry. *)
Lemma forward_entries (self : mlp_attention) (dec : tensor R) (src : tensor3 R) mask :
  (0 < context_dim self)%nat -> (0 < attention_dim self)%nat ->
  dim2 src = context_dim self -> rows dec = dim1 src ->
  cols dec = decoder_hidden_state_dim self ->
  (forall m, mask = Some m -> rows m = dim0 src /\ cols m = dim1 src) ->
  exists ctx alpha,
    Attention.forward self dec src mask = Ok (ctx, alpha) /\
    rows alpha = dim0 src /\ cols alpha = dim1 src /\
    rows ctx = dim1 src /\ cols ctx = context_dim self /\
    (forall i b, (i < dim0 src)%nat -> (b < dim1 src)%nat ->
       ent alpha i b =
       if all_upto (dim0 src) (fun k => is_masked mask k b) then None
       else Some (weight self dec src mask i b)) /\
    (forall b c, (b < dim1 src)%nat -> (c < context_dim self)%nat ->
       ent ctx b c = fsum (dim0 src) (fun i => fmul (ent3 src i b c) (ent alpha i b))).
Proof.
  intros HC HA Hd2 Hdr Hdc Hm.
  destruct (forward_scores self dec src mask HC HA Hd2 Hdr Hdc) as (SC & Heq & HSr & HSc & HSe).
  rewrite Heq.
  destruct (masked_scores SC mask (dim0 src) (dim1 src) HSr HSc Hm) as (X & HX & HXr & HXc & HXe).
  rewrite HX. cbn [bind].
  rewrite (bcast3_ok _ _ _ (dim0 src) (dim1 src) (context_dim self))
    by (simpl; rewrite ?HXr, ?HXc, ?Hd2; first [apply bdim_same | apply bdim_1r]).
  cbn [bind].
  eexists _, _; split; [reflexivity|].
  cbn [rows cols softmax0 sum_dim0 dim0 dim1 dim2].
  split; [exact HXr|]. split; [exact HXc|]. split; [reflexivity|]. split; [reflexivity|].
  assert (Hall : forall b, (b < dim1 src)%nat ->
            all_upto (rows X) (fun k => is_neginf (ent X k b))
            = all_upto (dim0 src) (fun k => is_masked mask k b)).
  { intros b Hb. rewrite HXr.
    assert (G : forall n, (n <= dim0 src)%nat ->
              all_upto n (fun k => is_neginf (ent X k b)) = all_upto n (fun k => is_masked mask k b)).
    { induction n as [|n IH]; intros Hn; [reflexivity|]. simpl. rewrite IH by lia.
      rewrite HXe by lia. destruct (is_masked mask n b); reflexivity. }
    apply G. lia. }
  split.
  - intros i b Hi Hb. cbn [softmax0 ent]. rewrite Hall by exact Hb.
    destruct (all_upto (dim0 src) (fun k => is_masked mask k b)); [reflexivity|].
    f_equal. unfold weight.
    rewrite (xexp_masked X SC mask i b) by (apply HXe; auto).
    rewrite HSe by auto. rewrite HXr.
    rewrite (rsum_ext _ (fun k => xexp (ent X k b))
               (fun k => if is_masked mask k b then 0 else exp (score self dec src k b))).
    + destruct (is_masked mask i b); [unfold Rdiv; ring|reflexivity].
    + intros k Hk. rewrite (xexp_masked X SC mask k b) by (apply HXe; auto).
      rewrite HSe by auto. reflexivity.
  - intros b c Hb Hc. cbn [ent sum_dim0 dim0 dim1 dim2].
    apply fsum_ext. intros i Hi. cbn [ent3 unsqueeze2 rows cols dim0 dim1 dim2].
    cbn [softmax0 rows cols]. rewrite ?Hd2, ?HXr, ?HXc, !bidx_lt by lia. reflexivity.
Qed.

Lemma all_upto_ext n (p q : nat -> bool) :
  (forall i, (i < n)%nat -> p i = q i) -> all_upto n p = all_upto n q.
Proof.
  induction n as [|n IH]; intros H; simpl; [reflexivity|].
  rewrite IH by (intros; apply H; lia). now rewrite H by lia.
Qed.

Lemma score_ext self dec src dec' src' i b b' :
  (forall d, (d < decoder_hidden_state_dim self)%nat -> ent dec b d = ent dec' b' d) ->
  (forall c, (c < context_dim self)%nat -> ent3 src i b c = ent3 src' i b' c) ->
  score self dec src i b = score self dec' src' i b'.
Proof.
  intros Hd Hs. unfold score. apply rsum_ext. intros a _. f_equal. f_equal. f_equal.
  - f_equal; apply rsum_ext; intros; [rewrite Hs | rewrite Hd]; auto.
Qed.

Lemma weight_ext self dec src mask dec' src' mask' i b b' :
  dim0 src' = dim0 src ->
  (forall k, (k < dim0 src)%nat -> is_masked mask k b = is_masked mask' k b') ->
  (forall k, (k < dim0 src)%nat -> is_masked mask k b = false ->
     score self dec src k b = score self dec' src' k b') ->
  (i < dim0 src)%nat ->
  weight self dec src mask i b = weight self dec' src' mask' i b'.
Proof.
  intros H0 Hm Hs Hi. unfold weight. rewrite H0, <- Hm by exact Hi.
  destruct (is_masked mask i b) eqn:E; [reflexivity|].
  rewrite Hs by assumption. f_equal.
  apply rsum_ext. intros k Hk. rewrite <- Hm by exact Hk.
  destruct (is_masked mask k b) eqn:Ek; [reflexivity|]. rewrite Hs by assumption. reflexivity.
Qed.

Lemma forward_locality self dec src mask dec' src' mask' b b' :
  (0 < context_dim self)%nat -> (0 < attention_dim self)%nat ->
  dim2 src = context_dim self -> rows dec = dim1 src ->
  cols dec = decoder_hidden_state_dim self ->
  (forall m, mask = Some m -> rows m = dim0 src /\ cols m = dim1 src) ->
  dim2 src' = context_dim self -> rows dec' = dim1 src' ->
  cols dec' = decoder_hidden_state_dim self ->
  (forall m, mask' = Some m -> rows m = dim0 src' /\ cols m = dim1 src') ->
  dim0 src' = dim0 src -> (b < dim1 src)%nat -> (b' < dim1 src')%nat ->
  (forall d, (d < decoder_hidden_state_dim self)%nat -> ent dec b d = ent dec' b' d) ->
  (forall i, (i < dim0 src)%nat -> is_masked mask i b = is_masked mask' i b') ->
  (forall i c, (i < dim0 src)%nat -> (c < context_dim self)%nat ->
     is_masked mask i b = false -> ent3 src i b c = ent3 src' i b' c) ->
  exists ctx alpha ctx' alpha',
    Attention.forward self dec src mask = Ok (ctx, alpha) /\
    Attention.forward self dec' src' mask' = Ok (ctx', alpha') /\
    (forall i, (i < dim0 src)%nat -> ent alpha i b = ent alpha' i b') /\
    (forall c, (c < context_dim self)%nat -> ent ctx b c = ent ctx' b' c).
Proof.
  intros HC HA Hd2 Hdr Hdc Hm Hd2' Hdr' Hdc' Hm' H0 Hb Hb' Hdec Hmask Hsrc.
  destruct (forward_entries self dec src mask HC HA Hd2 Hdr Hdc Hm)
    as (ctx & alpha & E & _ & _ & _ & _ & Ha & Hc).
  destruct (forward_entries self dec' src' mask' HC HA Hd2' Hdr' Hdc' Hm')
    as (ctx' & alpha' & E' & _ & _ & _ & _ & Ha' & Hc').
  exists ctx, alpha, ctx', alpha'. split; [exact E|]. split; [exact E'|].
  assert (Hall : all_upto (dim0 src) (fun k => is_masked mask k b)
                 = all_upto (dim0 src') (fun k => is_masked mask' k b'))
    by (rewrite H0; apply all_upto_ext; exact Hmask).
  assert (Hw : forall i, (i < dim0 src)%nat ->
            weight self dec src mask i b = weight self dec' src' mask' i b').
  { intros i Hi. apply weight_ext; auto. intros k Hk Hu. apply score_ext; auto. }
  assert (HA' : forall i, (i < dim0 src)%nat -> ent alpha i b = ent alpha' i b').
  { intros i Hi. rewrite Ha, Ha' by lia. rewrite Hall, Hw by exact Hi. reflexivity. }
  split; [exact HA'|].
  intros c Hcc. rewrite Hc, Hc' by assumption. rewrite H0.
  apply fsum_ext. intros i Hi. rewrite <- HA' by exact Hi.
  rewrite Ha by assumption.
  destruct (all_upto (dim0 src) (fun k => is_masked mask k b)); [reflexivity|].
  cbn [fmul option_map].
  destruct (is_masked mask i b) eqn:Em.
  - unfold weight. rewrite Em. rewrite !Rmult_0_r. reflexivity.
  - rewrite Hsrc by assumption. reflexivity.
Qed.

(** [MLPAttention.forward] treats the batch elements independently and
    ignores the padded source positions: the scores of batch element [b] and
    its context depend only on row [b] of [decoder_state], column [b] of the
    padding mask and the unpadded source states of [b]; so an element [b'] of
    another batch (of any batch size, with the same [src_len]) with the same
    such inputs gets the same scores and context. *)
Theorem mlp_attention_locality self dec src mask dec' src' mask' b b' :
  (0 < context_dim self)%nat -> (0 < attention_dim self)%nat ->
  dim2 src = context_dim self -> rows dec = dim1 src ->
  cols dec = decoder_hidden_state_dim self ->
  (forall m, mask = Some m -> rows m = dim0 src /\ cols m = dim1 src) ->
  dim2 src' = context_dim self -> rows dec' = dim1 src' ->
  cols dec' = decoder_hidden_state_dim self ->
  (forall m, mask' = Some m -> rows m = dim0 src' /\ cols m = dim1 src') ->
  dim0 src' = dim0 src -> (b < dim1 src)%nat -> (b' < dim1 src')%nat ->
  (forall d, (d < decoder_hidden_state_dim self)%nat -> ent dec b d = ent dec' b' d) ->
  (forall i, (i < dim0 src)%nat -> is_masked mask i b = is_masked mask' i b') ->
  (forall i c, (i < dim0 src)%nat -> (c < context_dim self)%nat ->
     is_masked mask i b = false -> ent3 src i b c = ent3 src' i b' c) ->
  exists ctx alpha ctx' alpha',
    Attention.forward self dec src mask = Ok (ctx, alpha) /\
    Attention.forward self dec' src' mask' = Ok (ctx', alpha') /\
    (forall i, (i < dim0 src)%nat -> ent alpha i b = ent alpha' i b') /\
    (forall c, (c < context_dim self)%nat -> ent ctx b c = ent ctx' b' c).
Proof.
  exact (forward_locality self dec src mask dec' src' mask' b b').
Qed.

(** [MLPAttention.forward] with a padding mask that pads nothing returns the
    same scores and context as without a mask; without padding and with
    [src_len > 0], every score is a defined, strictly positive number. *)
Theorem mlp_attention_no_padding self dec src m :
  (0 < context_dim self)%nat -> (0 < attention_dim self)%nat ->
  dim2 src = context_dim self -> rows dec = dim1 src ->
  cols dec = decoder_hidden_state_dim self ->
  rows m = dim0 src -> cols m = dim1 src ->
  (forall i b, (i < dim0 src)%nat -> (b < dim1 src)%nat -> ent m i b = false) ->
  (0 < dim0 src)%nat ->
  exists ctx alpha ctx' alpha',
    Attention.forward self dec src None = Ok (ctx, alpha) /\
    Attention.forward self dec src (Some m) = Ok (ctx', alpha') /\
    (forall i b, (i < dim0 src)%nat -> (b < dim1 src)%nat ->
       ent alpha i b = ent alpha' i b /\ exists w, ent alpha i b = Some w /\ 0 < w) /\
    (forall b c, (b < dim1 src)%nat -> (c < context_dim self)%nat ->
       ent ctx b c = ent ctx' b c).
Proof.
  intros HC HA Hd2 Hdr Hdc Hmr Hmc Hf Hn.
  destruct (forward_entries self dec src None HC HA Hd2 Hdr Hdc ltac:(discriminate))
    as (ctx & alpha & E & _ & _ & _ & _ & Ha & Hc).
  destruct (forward_entries self dec src (Some m) HC HA Hd2 Hdr Hdc
              ltac:(intros m' Em; injection Em as <-; auto))
    as (ctx' & alpha' & E' & _ & _ & _ & _ & Ha' & Hc').
  exists ctx, alpha, ctx', alpha'. split; [exact E|]. split; [exact E'|].
  assert (HA' : forall i b, (i < dim0 src)%nat -> (b < dim1 src)%nat ->
             ent alpha i b = ent alpha' i b).
  { intros i b Hi Hb. rewrite Ha, Ha' by assumption.
    rewrite (all_upto_ext _ (fun k => is_masked (Some m) k b) (fun k => is_masked None k b))
      by (intros k Hk; simpl; apply Hf; auto).
    rewrite (weight_ext self dec src None dec src (Some m) i b b); auto.
    intros k Hk. simpl. rewrite Hf; auto. }
  split.
  - intros i b Hi Hb. split; [apply HA'; auto|].
    rewrite Ha by assumption.
    rewrite (all_upto_false _ _ 0%nat Hn eq_refl).
    eexists; split; [reflexivity|]. unfold weight. cbn [is_masked].
    apply Rdiv_lt_0_compat; [apply exp_pos|].
    apply (rsum_pos _ _ 0%nat); [intros; apply Rlt_le, exp_pos | exact Hn | apply exp_pos].
  - intros b c Hb Hcc. rewrite Hc, Hc' by assumption.
    apply fsum_ext. intros i Hi. rewrite HA' by assumption. reflexivity.
Qed.

End AttentionMoreFacts.

(** ** Reordering the encoder output *)

Module ReorderFacts.
Import Inference Attention AttentionSpec AttentionFacts AttentionMoreFacts Reorder.
Local Open Scope R_scope.



End ReorderFacts.

(** ** The shape arithmetic of the encoder *)

Module EncoderShapeFacts.
Import EncoderShapes.
Local Open Scope nat_scope.

Lemma odd_mod2 k : Nat.b2n (Nat.odd k) = k mod 2.
Proof. rewrite <- Nat.bit0_odd. apply Nat.bit0_mod. Qed.

(** [f // s] against [(f - 1) // s]: one more exactly when [s] divides [f]. *)
Lemma div_pred_succ f s :
  0 < s -> 1 <= f ->
  (f / s = (f - 1) / s + 1 /\ f mod s = 0) \/ (f / s = (f - 1) / s /\ f mod s <> 0).
Proof.
  intros Hs Hf.
  pose proof (Nat.div_mod (f - 1) s ltac:(lia)) as E.
  pose proof (Nat.mod_upper_bound (f - 1) s ltac:(lia)) as B.
  destruct (Nat.eq_dec (S ((f - 1) mod s)) s) as [Hr|Hr].
  - left. split.
    + symmetry. apply (Nat.div_unique f s ((f - 1) / s + 1) 0); lia.
    + symmetry. apply (Nat.mod_unique f s ((f - 1) / s + 1) 0); lia.
  - right. split.
    + symmetry. apply (Nat.div_unique f s ((f - 1) / s) (S ((f - 1) mod s))); lia.
    + rewrite <- (Nat.mod_unique f s ((f - 1) / s) (S ((f - 1) mod s))); lia.
Qed.

(** One conv layer: the size [__init__] predicts ([f // s]) never exceeds the
    size the layer produces from [g >= f], and equals it exactly when
    [f = g], the kernel is odd and [s] divides [f]. *)
Lemma conv_step f g k s :
  0 < k -> 0 < s -> 1 <= g -> f <= g ->
  exists g1, conv_out g k s = Ok g1 /\ 1 <= g1 /\ f / s <= g1 /\
    (f / s = g1 <-> f = g /\ Nat.odd k = true /\ f mod s = 0).
Proof.
  intros Hk Hs Hg Hfg.
  pose proof (odd_mod2 k) as Ho.
  pose proof (Nat.div_mod k 2 ltac:(lia)) as Ek.
  pose proof (Nat.mod_upper_bound k 2 ltac:(lia)) as Bk.
  unfold conv_out.
  rewrite (proj2 (Nat.eqb_neq s 0)) by lia.
  rewrite (proj2 (Nat.ltb_ge _ _)) by lia. cbn [orb].
  eexists; split; [reflexivity|].
  destruct (Nat.odd k) eqn:Hodd; cbn [Nat.b2n] in Ho.
  - replace (g + 2 * (k / 2) - k) with (g - 1) by lia.
    split; [lia|].
    destruct (Nat.eq_dec f g) as [<-|Hne].
    + destruct (div_pred_succ f s Hs Hg) as [[E1 E2]|[E1 E2]].
      * split; [lia|]. tauto.
      * split; [lia|]. split; [lia|]. intros (_ & _ & Hf). contradiction.
    + assert (f / s <= (g - 1) / s) by (apply Nat.Div0.div_le_mono; lia).
      split; [lia|]. split; [lia|]. intros (Hf & _). contradiction.
  - replace (g + 2 * (k / 2) - k) with g by lia.
    assert (f / s <= g / s) by (apply Nat.Div0.div_le_mono; lia).
    split; [lia|]. split; [lia|]. split; [lia|]. intros (_ & Hf & _). discriminate.
Qed.

Lemma conv_chain convs : forall f g,
  1 <= g -> f <= g ->
  Forall (fun cl : conv_layer => let '(c, k, s) := cl in 0 < c /\ 0 < k /\ 0 < s) convs ->
  exists g', conv_stack g convs = Ok g' /\
    fold_left (fun w (cl : conv_layer) => let '(_, _, s) := cl in w / s) convs f <= g' /\
    (fold_left (fun w (cl : conv_layer) => let '(_, _, s) := cl in w / s) convs f = g' <->
     f = g /\ exact_convs f convs = true).
Proof.
  induction convs as [|[[c k] s] rest IH]; intros f g Hg Hfg HF.
  - exists g. cbn. split; [reflexivity|]. split; [lia|]. tauto.
  - inversion HF as [|? ? Hcl Hrest]; subst. destruct Hcl as (Hc & Hk & Hs).
    destruct (conv_step f g k s Hk Hs Hg Hfg) as (g1 & E1 & Hg1 & Hle & Hiff).
    destruct (IH (f / s) g1 Hg1 Hle Hrest) as (g' & E' & Hle' & Hiff').
    exists g'. cbn [conv_stack fold_left exact_convs]. rewrite E1. cbn [bind].
    split; [exact E'|]. split; [exact Hle'|].
    rewrite Hiff', Hiff, !andb_true_iff, Nat.eqb_eq. tauto.
Qed.

Lemma py_last_ok {A} (l : list A) d : l <> [] -> py_last l = Ok (last l d).
Proof.
  intros H. destruct (exists_last H) as (l' & a & ->).
  unfold py_last. rewrite rev_unit, last_last. reflexivity.
Qed.

Lemma out_channels_last in_ch l' c k s :
  out_channels_of in_ch (l' ++ [(c, k, s)]) = c.
Proof.
  revert in_ch; induction l' as [|[[c' k'] s'] l' IH]; intros in_ch; simpl; auto.
Qed.

Lemma conv_stack_default T :
  1 <= T -> conv_stack T default_conv_layers = Ok ((T + 3) / 4).
Proof.
  intros HT. unfold default_conv_layers. cbn [conv_stack]. unfold conv_out.
  replace (3 / 2) with 1 by reflexivity.
  rewrite (proj2 (Nat.ltb_ge (T + 2 * 1) 3)) by lia. cbn [orb Nat.eqb bind].
  rewrite (proj2 (Nat.ltb_ge _ 3)) by lia. cbn [orb Nat.eqb bind].
  f_equal.
  replace (T + 2 * 1 - 3) with (T - 1) by lia.
  replace ((T - 1) / 2 + 1 + 2 * 1 - 3) with ((T - 1) / 2) by lia.
  rewrite Nat.Div0.div_div.
  replace (T + 3) with (T - 1 + 1 * (2 * 2)) by lia.
  rewrite Nat.div_add by lia. reflexivity.
Qed.

Lemma Qnat_nonzero n : 0 < n -> ~ qnat n == 0.
Proof. intros H E. unfold qnat, Qeq in E. simpl in E. lia. Qed.

Lemma subsampling_factor_eq T out :
  0 < out ->
  subsampling_factor T out = ((2 * Z.of_nat T + Z.of_nat out) / (2 * Z.of_nat out))%Z.
Proof.
  intros H. pose proof (Qnat_nonzero out H) as Hq.
  unfold subsampling_factor. rewrite Zdiv_Qdiv. apply Qfloor_comp.
  unfold qnat in *. rewrite inject_Z_plus, !inject_Z_mult. field. exact Hq.
Qed.

Lemma input_length_eq a f :
  (0 < f)%Z -> input_length a f = (- ((- a) / f))%Z.
Proof.
  intros H. unfold input_length, Qceiling. f_equal. rewrite Zdiv_Qdiv.
  apply Qfloor_comp. rewrite inject_Z_opp. field.
  intro E. unfold Qeq in E. simpl in E. lia.
Qed.

(** The LSTM input size computed in [BerardEncoder.__init__] (the last input
    layer size divided by every stride, times the channels of the last conv)
    never exceeds the feature size the conv stack of [forward] actually
    produces from that input size (its channels times its width), for positive
    channels, kernels and strides; the two are equal exactly when every kernel
    is odd and every stride divides the running width. *)
Theorem init_lstm_input_dim_conv_output (input_layers : list nat)
  (convs : list conv_layer) (in_channels : nat) :
  input_layers <> [] -> convs <> [] -> 0 < last input_layers 0 ->
  Forall (fun cl : conv_layer => let '(c, k, s) := cl in 0 < c /\ 0 < k /\ 0 < s) convs ->
  exists a b,
    init_lstm_input_dim input_layers convs = Ok a /\
    conv_feature_dim in_channels (last input_layers 0) convs = Ok b /\
    a <= b /\ (a = b <-> exact_convs (last input_layers 0) convs = true).
Proof.
  intros Hil Hcv Hw HF.
  destruct (conv_chain convs (last input_layers 0) (last input_layers 0)
              ltac:(lia) (le_n _) HF) as (g' & E & Hle & Hiff).
  destruct (exists_last Hcv) as (l' & [[c k] s] & Ec). subst convs.
  assert (Hc : 0 < c).
  { apply Forall_app in HF. destruct HF as [_ HF]. inversion HF as [|? ? Hl]. tauto. }
  unfold init_lstm_input_dim, conv_feature_dim.
  rewrite (py_last_ok input_layers 0 Hil). cbn [bind].
  unfold py_last at 1. rewrite rev_unit. cbn [bind].
  rewrite E. cbn [bind]. rewrite out_channels_last.
  eexists _, _. split; [reflexivity|]. split; [reflexivity|].
  split; [nia|].
  split.
  - intros Heq. apply Hiff. rewrite Nat.mul_comm in Heq.
    apply (Nat.mul_cancel_l _ _ c); lia.
  - intros Hx. apply proj2 in Hiff. specialize (Hiff (conj eq_refl Hx)).
    rewrite Hiff. apply Nat.mul_comm.
Qed.

(** With the default conv layers (two 3x3 convs of stride 2), [forward]
    computes the sequence length after the convs as [(T + 3) // 4] for a
    padded length [T], and the input length of a full-length sequence as that
    same value, except for [T] in {10, 13, 17}, where the rounded subsampling
    factor is 3 instead of 4 and the reported length is one too large. *)
Theorem default_conv_input_length (T : nat) :
  1 <= T ->
  exists out il,
    input_lengths default_conv_layers T [Z.of_nat T] = Ok (out, [il]) /\
    out = (T + 3) / 4 /\
    il = (Z.of_nat out + if Nat.eqb T 10 || Nat.eqb T 13 || Nat.eqb T 17 then 1 else 0)%Z.
Proof.
  intros HT. unfold input_lengths. rewrite conv_stack_default by lia. cbn [bind map].
  eexists _, _. split; [reflexivity|]. split; [reflexivity|].
  destruct (Nat.le_gt_cases T 20) as [Hs|Hl].
  - assert (T = 1 \/ T = 2 \/ T = 3 \/ T = 4 \/ T = 5 \/ T = 6 \/ T = 7 \/
            T = 8 \/ T = 9 \/ T = 10 \/ T = 11 \/ T = 12 \/ T = 13 \/ T = 14 \/
            T = 15 \/ T = 16 \/ T = 17 \/ T = 18 \/ T = 19 \/ T = 20) as HT'
      by lia.
    repeat (destruct HT' as [-> | HT']; [vm_compute; reflexivity|]).
    subst T. vm_compute. reflexivity.
  - pose proof (Nat.div_mod (T - 1) 4 ltac:(lia)) as Eq.
    pose proof (Nat.mod_upper_bound (T - 1) 4 ltac:(lia)) as Bq.
    assert (Hout : (T + 3) / 4 = (T - 1) / 4 + 1).
    { replace (T + 3) with (T - 1 + 1 * 4) by lia. apply Nat.div_add. lia. }
    rewrite Hout.
    rewrite subsampling_factor_eq by lia.
    assert (Hf : ((2 * Z.of_nat T + Z.of_nat ((T - 1) / 4 + 1)) /
                  (2 * Z.of_nat ((T - 1) / 4 + 1)))%Z = 4%Z).
    { symmetry.
      apply Z.div_unique with
        (r := (2 * Z.of_nat T + Z.of_nat ((T - 1) / 4 + 1) - 8 * Z.of_nat ((T - 1) / 4 + 1))%Z);
        lia. }
    rewrite Hf, input_length_eq by lia.
    assert (Hd : ((- Z.of_nat T) / 4 = - Z.of_nat ((T - 1) / 4 + 1))%Z).
    { symmetry.
      apply Z.div_unique with (r := (Z.of_nat ((T - 1) / 4 + 1) * 4 - Z.of_nat T)%Z); lia. }
    rewrite Hd.
    rewrite (proj2 (Nat.eqb_neq T 10)), (proj2 (Nat.eqb_neq T 13)),
      (proj2 (Nat.eqb_neq T 17)) by lia.
    cbn [orb]. lia.
Qed.

End EncoderShapeFacts.

(** ** The decoder: errors and the cache *)

Module DecoderMoreFacts.
Import Decoder DecoderSpec DecoderFacts.

Section Errors.
Context {Tok V Enc : Type}.
Variable self : lstm_decoder Tok V Enc.
Variable enc : Enc.

(** The tokens [forward] processes: all of them, or the last one when an
    incremental state is given; never none of a non-empty input. *)
Lemma processed_tokens_cons (toks : list Tok) (inc : option (option (cache V))) :
  toks <> [] ->
  exists t rest,
    match inc with
    | Some _ => skipn (List.length toks - 1) toks
    | None => toks end = t :: rest /\
    List.length (t :: rest) = match inc with Some _ => 1%nat | None => List.length toks end.
Proof.
  intros Hne. destruct inc as [c|].
  - destruct (exists_last Hne) as (l & t & ->).
    exists t, []. rewrite skipn_last_one. split; reflexivity.
  - destruct toks as [|t rest]; [contradiction|]. exists t, rest. split; reflexivity.
Qed.

Lemma time_loop_no_layers x xs hs cs os aos :
  layers self = [] ->
  time_loop self enc (x :: xs) (FState hs cs None os aos) = Err UnboundLocalError.
Proof.
  intros Hl. cbn [time_loop]. rewrite Hl. reflexivity.
Qed.

Lemma time_loop_short_state l0 ls x xs hs cs hid os aos :
  layers self = l0 :: ls ->
  (List.length hs < num_layers self \/ List.length cs < num_layers self)%nat ->
  time_loop self enc (x :: xs) (FState hs cs hid os aos) = Err IndexError.
Proof.
  intros Hl Hs.
  assert (Hn : num_layers self = S (List.length ls)) by (unfold num_layers; now rewrite Hl).
  cbn [time_loop]. rewrite Hl.
  cbn [layer_loop prev_hiddens prev_cells]. unfold list_get.
  rewrite (prev_layer_0 self) by lia. rewrite Hn.
  destruct (nth_error hs (S (List.length ls) - 1)) as [ph|] eqn:Eh.
  - assert (List.length cs <= S (List.length ls) - 1)%nat.
    { assert (S (List.length ls) - 1 < List.length hs)%nat
        by (apply nth_error_Some; congruence). lia. }
    rewrite (proj2 (nth_error_None cs _)) by lia. reflexivity.
  - reflexivity.
Qed.

End Errors.


(** [LSTMDecoder.forward] with no layers ([num_layers = 0]) on a non-empty
    input: [hidden] is never assigned and [outs.append(hidden)] raises
    [UnboundLocalError], whatever the cached state. *)
Theorem decoder_forward_no_layers {Tok V Enc : Type}
    (self : lstm_decoder Tok V Enc) (encoder_out : Enc) (toks : list Tok)
    (incremental_state : option (option (cache V))) :
  layers self = [] -> toks <> [] ->
  Decoder.forward self encoder_out toks incremental_state = Err UnboundLocalError.
Proof.
  intros Hl Hne.
  destruct (processed_tokens_cons toks incremental_state Hne) as (t & rest & Et & _).
  unfold Decoder.forward. rewrite Et. cbn [map].
  destruct incremental_state as [[[hs cs]|]|];
    cbv beta iota; rewrite (time_loop_no_layers self encoder_out) by exact Hl; reflexivity.
Qed.

(** [LSTMDecoder.forward] with at least one layer, a non-empty input and a
    cached [(prev_hiddens, prev_cells)] in which one of the two lists holds
    fewer states than there are layers: the first read
    [prev_hiddens[(0 - 1) % num_layers]] or [prev_cells[...]] is out of
    range and raises [IndexError]. *)
Theorem decoder_forward_short_cache {Tok V Enc : Type}
    (self : lstm_decoder Tok V Enc) (encoder_out : Enc) (toks : list Tok)
    (hs cs : list V) :
  layers self <> [] -> toks <> [] ->
  (List.length hs < num_layers self \/ List.length cs < num_layers self)%nat ->
  Decoder.forward self encoder_out toks (Some (Some (hs, cs))) = Err IndexError.
Proof.
  intros Hne Ht Hs.
  destruct (layers self) as [|l0 ls] eqn:Hl; [contradiction|].
  destruct (processed_tokens_cons toks (Some (Some (hs, cs))) Ht) as (t & rest & Et & _).
  unfold Decoder.forward. rewrite Et. cbn [map].
  cbv beta iota. rewrite (time_loop_short_state self encoder_out l0 ls) by assumption.
  reflexivity.
Qed.

(** [LSTMDecoder.forward] with at least one layer on a non-empty input,
    from no cache or a cache holding one hidden and one cell state per
    layer, succeeds: it returns one output per processed position (all of
    [prev_output_tokens] without an incremental state, the last one with
    it), leaves a missing incremental state missing, and otherwise stores a
    cache that again holds one hidden and one cell state per layer. *)
Theorem decoder_forward_cache_invariant {Tok V Enc : Type}
    (self : lstm_decoder Tok V Enc) (encoder_out : Enc) (toks : list Tok)
    (incremental_state : option (option (cache V))) :
  layers self <> [] -> toks <> [] ->
  (forall hs cs, incremental_state = Some (Some (hs, cs)) ->
     List.length hs = num_layers self /\ List.length cs = num_layers self) ->
  exists ys st,
    Decoder.forward self encoder_out toks incremental_state = Ok (ys, st) /\
    List.length ys = match incremental_state with
                     | Some _ => 1%nat | None => List.length toks end /\
    match incremental_state with
    | None => st = None
    | Some _ => exists hs' cs', st = Some (Some (hs', cs')) /\
        List.length hs' = num_layers self /\ List.length cs' = num_layers self
    end.
Proof.
  intros Hne Ht Hc.
  destruct (layers self) as [|l0 ls] eqn:Hl; [contradiction|].
  destruct (processed_tokens_cons toks incremental_state Ht) as (t & rest & Et & Lt).
  set (z := repeat (new_zeros self) (num_layers self)).
  assert (Hz : List.length z = num_layers self) by apply repeat_length.
  set (c0 := match match incremental_state with Some c => c | None => None end with
             | Some c => c | None => (z, z) end).
  assert (Hc0 : List.length (fst c0) = num_layers self /\ List.length (snd c0) = num_layers self).
  { unfold c0. destruct incremental_state as [[[hs cs]|]|];
      [exact (Hc hs cs eq_refl) | auto | auto]. }
  destruct c0 as [hs0 cs0] eqn:Ec0. cbn [fst snd] in Hc0. destruct Hc0 as [Hh Hcs].
  destruct (steps_spec self encoder_out l0 ls
              (map (apply_dropout self) (map (embed_tokens self) (t :: rest))) hs0 cs0)
    as [[[hs' cs'] ys] ctxs] eqn:Es.
  destruct (time_loop_steps self encoder_out l0 ls _ hs0 cs0 None [] [] Hl Hh Hcs _ _ _ _ Es)
    as (_ & Lh & Lc & Ly & Lx).
  rewrite <- Et in Es.
  pose proof (forward_run self encoder_out l0 ls toks incremental_state hs0 cs0 Hl Hh Hcs Ec0)
    as Hf.
  cbv zeta in Hf. rewrite Et in Hf, Es.
  specialize (Hf ltac:(discriminate) _ _ _ _ Es).
  eexists _, _. split; [exact Hf|]. split.
  - rewrite zip3_length; rewrite ?length_map in *; lia.
  - destruct incremental_state; [|reflexivity]. eexists _, _. split; [reflexivity|]. auto.
Qed.

End DecoderMoreFacts.

(** ** Instances of the theorems on concrete inputs *)

Module LatencyExamples.
Import Latency LatencySpec LatencyFacts.

(** Two sentences of three target steps, batch first. *)
Definition ex_delays : tensor Q := mkT 2 3 (fun b i => qnat (b + i)).
Definition ex_src_lens : tensor Q := mkT 2 1 (fun b _ => qnat (b + 4)).

(** The same, target steps first, as [cal_metric] takes them. *)
Definition ex_d : tensor Q := mkT 3 2 (fun i b => qnat (i + b + 1)).
Definition ex_s : tensor Q := mkT 1 2 (fun _ b => qnat (b + 3)).
Definition ex_t : tensor Q := mkT 1 2 (fun _ _ => 3).

Lemma average_proportion_cal_metric_witness :
  exists p, prepare_latency_metric ex_delays ex_src_lens None true true = Ok p /\
  exists R,
    ap_cal_metric (p_delays p) (p_src_lens p) (p_tgt_lens p) (p_mask p) = Ok R /\
    rows R = 1%nat /\ cols R = rows ex_delays /\
    forall j, (j < rows ex_delays)%nat ->
      ent R 0 j ==
      1 / (ent ex_src_lens j 0 * tgt_length (p_mask p) (cols ex_delays) j)
        * qsum (cols ex_delays) (fun i => if masked (p_mask p) i j then 0 else ent (p_delays p) i j).
Proof.
  eexists. split; [reflexivity|].
  apply (average_proportion_cal_metric ex_delays ex_src_lens None true true); reflexivity.
Defined.

Lemma average_lagging_cal_metric_witness :
  exists R, al_cal_metric ex_d ex_s ex_t None = Ok R /\ rows R = 1%nat /\ cols R = cols ex_d /\
    let tau := al_tau (rows ex_d) (fun i => ent ex_d i 1) (ent ex_s 0 1) in
    let gamma := ent ex_t 0 1 / ent ex_s 0 1 in
    ent R 0 1 == 1 / qnat tau * qsum tau (fun i => ent ex_d i 1 - qnat i / gamma).
Proof.
  apply (average_lagging_cal_metric ex_d ex_s ex_t None 1); try reflexivity.
  - simpl; lia.
  - intros i Hi. simpl in Hi. apply Qle_bool_imp_le.
    destruct i as [|[|i]]; [reflexivity | reflexivity | lia].
  - intros i Hi. simpl in Hi. split; apply Qle_bool_imp_le;
      (destruct i as [|[|[|i]]]; [reflexivity | reflexivity | reflexivity | lia]).
Defined.

Lemma differentiable_average_lagging_cal_metric_witness :
  exists R, dal_cal_metric ex_d ex_s ex_t None = Ok R /\ rows R = 1%nat /\ cols R = cols ex_d /\
    forall j, (j < cols ex_d)%nat ->
      ent R 0 j ==
      1 / ent ex_t 0 j *
      qsum (rows ex_d) (fun i =>
        if masked None i j then 0
        else dal_adjusted (fun i => ent ex_d i j) (ent ex_t 0 j / ent ex_s 0 j) i
             - qnat i / (ent ex_t 0 j / ent ex_s 0 j)).
Proof.
  apply (differentiable_average_lagging_cal_metric ex_d ex_s ex_t None); try reflexivity.
  intros mm H; discriminate H.
Defined.

Lemma dal_adjusted_delays_step_witness :
  exists gamma ND,
    bcast Qdiv ex_t ex_s = Ok gamma /\ dal_loop ex_d gamma (rows ex_d) = Ok ND /\
    forall j, (j < cols ex_d)%nat -> 0 < ent gamma 0 j ->
    forall i, (i < rows ex_d)%nat ->
      ent ex_d i j <= ent ND i j /\
      ((0 < i)%nat ->
         ent ND (i - 1) j + 1 / ent gamma 0 j <= ent ND i j /\
         ent ND (i - 1) j < ent ND i j).
Proof.
  apply (dal_adjusted_delays_step ex_d ex_s ex_t); reflexivity.
Defined.

Lemma metric_call_batch_first_witness :
  prepare_latency_metric ex_delays ex_src_lens None false true = Err UnboundLocalError /\
  metric_call AverageLagging ex_delays ex_src_lens None false true = Err UnboundLocalError /\
  (forall bf r, metric_call AverageLagging ex_delays ex_src_lens None bf true = Ok r ->
     bf = true /\ rows ex_delays = rows ex_src_lens).
Proof.
  exact (metric_call_batch_first AverageLagging ex_delays ex_src_lens None true).
Defined.

End LatencyExamples.

Module InferenceExamples.
Import Latency Inference LatencySpec InferenceFacts.

(** [monotonic_step] of shape [(2, 2, 3)] and [src_lens] of shape [(2, 1)]. *)
Definition ex_ms : tensor3 Z := mkT3 2 2 3 (fun b k i => Z.of_nat (b + k + i)).
Definition ex_sl : tensor Z := mkT 2 1 (fun b _ => Z.of_nat (b + 3)).

Lemma latency_inference_metrics_witness :
  exists vd va vp wd wa wp,
    latency_inference true ex_ms ex_sl =
      Ok [("differentiable_average_lagging"%string, vd);
          ("average_lagging"%string, va);
          ("average_proportion"%string, vp)] /\
    metric_call DifferentiableAverageLagging
      (to_float (clamped_delays ex_ms ex_sl)) (to_float ex_sl) None true true = Ok wd /\
    metric_call AverageLagging
      (to_float (clamped_delays ex_ms ex_sl)) (to_float ex_sl) None true true = Ok wa /\
    metric_call AverageProportion
      (to_float (clamped_delays ex_ms ex_sl)) (to_float ex_sl) None true true = Ok wp /\
    teq vd (transpose wd) /\ teq va (transpose wa) /\ teq vp (transpose wp).
Proof.
  apply (latency_inference_metrics ex_ms ex_sl); [simpl; lia | reflexivity | reflexivity].
Defined.

End InferenceExamples.

Module EncoderExamples.
Import Latency BerardEncoder EncoderFacts.

Lemma encoder_mask_lengths_witness :
  (exists m, encoder_padding_mask 4 3 [2; 4; 0]%Z = Ok m /\
     rows m = 4%nat /\ cols m = 3%nat /\
     forall t b, (t < 4)%nat -> (b < 3)%nat ->
       ent m t b = (nth b [2; 4; 0]%Z 0 <=? Z.of_nat t)%Z) /\
  (forall m, rows m = 4%nat -> cols m = 3%nat ->
     (forall t b, (t < 4)%nat -> (b < 3)%nat ->
        ent m t b = (nth b [2; 4; 0]%Z 0 <=? Z.of_nat t)%Z) ->
     let L := length_from_padding_mask m false in
     rows L = 1%nat /\ cols L = 3%nat /\
     forall b, (b < 3)%nat -> ent L 0 b = nth b [2; 4; 0]%Z 0%Z).
Proof.
  apply (encoder_mask_lengths 4 [2; 4; 0]%Z).
  repeat constructor; simpl; lia.
Defined.

End EncoderExamples.

Module DecoderExamples.
Import Decoder DecoderSpec DecoderFacts.

(** A two-layer decoder over integers, each component a distinct affine map. *)
Definition ex_decoder : lstm_decoder Z Z unit :=
  LSTMDecoder (fun t => 10 * t + 1)%Z (Some (fun v => v + 7)%Z)
    [(fun x hc => (x + 2 * fst hc + 3 * snd hc, x + snd hc + 1));
     (fun x hc => (2 * x + fst hc + 5, snd hc + 3 * x))]%Z
    0%Z (fun h _ => (h + 100, h))%Z
    (fun h a e => h + 3 * a + 5 * e)%Z (fun v => v - 1)%Z (fun v => 2 * v)%Z.

Lemma incremental_decoding_full_pass_witness :
  exists ys,
    incremental_decode ex_decoder tt [] [4; 2; 9]%Z (Some None) = Ok ys /\
    List.length ys = 3%nat /\
    forall k, (k < 3)%nat ->
      exists full,
        Decoder.forward ex_decoder tt (firstn (S k) [4; 2; 9]%Z) None = Ok (full, None) /\
        List.length full = S k /\ nth k ys [] = skipn k full.
Proof.
  apply (incremental_decoding_full_pass ex_decoder tt [4; 2; 9]%Z).
  discriminate.
Defined.

Lemma timestep_layer_wiring_witness :
  exists hs1 cs1 ctx y,
    timestep_spec ex_decoder tt 3%Z [1; 2]%Z [5; 6]%Z = Some (hs1, cs1, ctx, y) /\
    time_loop ex_decoder tt [3; 8]%Z (FState [1; 2]%Z [5; 6]%Z None [] []) =
    time_loop ex_decoder tt [8]%Z (FState hs1 cs1 (Some y) ([] ++ [y]) ([] ++ [ctx])).
Proof.
  apply (timestep_layer_wiring ex_decoder tt 3%Z [8]%Z [1; 2]%Z [5; 6]%Z None [] []);
    [discriminate | reflexivity | reflexivity].
Defined.

End DecoderExamples.

Module AttentionExamples.
Import Inference Attention AttentionSpec AttentionFacts.
Local Open Scope R_scope.

(** One-dimensional states, two source positions, a batch of two, the second
    source position of the second batch element padded. *)
Definition ex_attention : mlp_attention :=
  MLPAttention 1 1 1 (fun _ _ => 1) (fun _ => 0) (fun _ _ => 2) (fun _ _ => 1).
Definition ex_dec : tensor R := mkT 2 1 (fun b _ => INR b).
Definition ex_src : tensor3 R := mkT3 2 2 1 (fun i b _ => INR (i + b)).
Definition ex_mask : tensor bool := mkT 2 2 (fun i b => (b =? 1)%nat && (i =? 1)%nat).

Lemma mlp_attention_forward_witness :
  exists ctx alpha,
    Attention.forward ex_attention ex_dec ex_src (Some ex_mask) = Ok (ctx, alpha) /\
    rows alpha = 2%nat /\ cols alpha = 2%nat /\
    rows ctx = 2%nat /\ cols ctx = 1%nat /\
    forall b, (b < 2)%nat ->
      ((exists i, (i < 2)%nat /\ is_masked (Some ex_mask) i b = false) ->
        (forall i, (i < 2)%nat ->
           ent alpha i b = Some (weight ex_attention ex_dec ex_src (Some ex_mask) i b) /\
           0 <= weight ex_attention ex_dec ex_src (Some ex_mask) i b /\
           (is_masked (Some ex_mask) i b = true ->
            weight ex_attention ex_dec ex_src (Some ex_mask) i b = 0)) /\
        rsum 2 (fun i => weight ex_attention ex_dec ex_src (Some ex_mask) i b) = 1 /\
        (forall c, (c < 1)%nat ->
           ent ctx b c =
           Some (rsum 2 (fun i => ent3 ex_src i b c *
                                  weight ex_attention ex_dec ex_src (Some ex_mask) i b)))) /\
      ((forall i, (i < 2)%nat -> is_masked (Some ex_mask) i b = true) ->
        forall i, (i < 2)%nat -> ent alpha i b = None).
Proof.
  apply (mlp_attention_forward ex_attention ex_dec ex_src (Some ex_mask));
    try reflexivity; try (simpl; lia).
  intros m Hm. injection Hm as <-. split; reflexivity.
Defined.

End AttentionExamples.

(** ** Instances of the further properties on concrete inputs *)

Module LatencyMoreExamples.
Import Latency Inference LatencySpec LatencyViews LatencyMoreFacts LatencyExamples InferenceExamples.

(** Source lengths for three sentences, against two rows of delays. *)
Definition ex_src_lens3 : tensor Q := mkT 3 1 (fun b _ => qnat (b + 4)).

Lemma prepare_assertion_error_witness :
  prepare_latency_metric ex_delays ex_src_lens3 None true true = Err AssertionError /\
  forall M, metric_call M ex_delays ex_src_lens3 None true true = Err AssertionError.
Proof.
  apply (prepare_assertion_error ex_delays ex_src_lens3 None true).
  left. discriminate.
Defined.

Lemma prepare_batch_first_ok_witness :
  exists p, prepare_latency_metric ex_delays ex_src_lens None true true = Ok p /\
    p_src_lens p = transpose ex_src_lens /\ p_mask p = option_map transpose None /\
    rows (p_delays p) = cols ex_delays /\ cols (p_delays p) = rows ex_delays /\
    rows (p_tgt_lens p) = 1%nat /\ cols (p_tgt_lens p) = rows ex_delays /\
    (forall j, (j < rows ex_delays)%nat ->
       ent (p_tgt_lens p) 0 j == tgt_length (p_mask p) (cols ex_delays) j) /\
    (forall i j, (i < cols ex_delays)%nat -> (j < rows ex_delays)%nat ->
       ent (p_delays p) i j =
       if masked None j i then 0 else shift true (ent ex_delays j i)).
Proof.
  apply (prepare_batch_first_ok ex_delays ex_src_lens None true).
  - reflexivity.
  - intros m Hm. discriminate Hm.
Defined.

Lemma average_lagging_general_witness :
  exists R, al_cal_metric ex_d ex_s ex_t None = Ok R /\ rows R = 1%nat /\ cols R = cols ex_d /\
    let gamma := ent ex_t 0 1 / ent ex_s 0 1 in
    ent R 0 1 ==
      qsum (rows ex_d) (fun i => if lagging_padding_mask ex_d ex_s i 1 then 0
                                 else ent ex_d i 1 - qnat i / gamma)
      / qsum (rows ex_d) (fun i => if lagging_padding_mask ex_d ex_s i 1 then 0 else 1) /\
    ((0 < rows ex_d)%nat ->
       1 <= qsum (rows ex_d) (fun i => if lagging_padding_mask ex_d ex_s i 1 then 0 else 1)).
Proof.
  apply (average_lagging_general ex_d ex_s ex_t None 1); try reflexivity.
  simpl; lia.
Defined.

Lemma average_proportion_range_witness :
  exists R, metric_call AverageProportion ex_delays ex_src_lens None true true = Ok R /\
    rows R = 1%nat /\ cols R = rows ex_delays /\
    1 / ent ex_src_lens 1 0 <= ent R 0 1 /\ ent R 0 1 <= 1.
Proof.
  apply (average_proportion_range ex_delays ex_src_lens None true 1); try reflexivity.
  - intros m Hm. discriminate Hm.
  - simpl; lia.
  - exists 0%nat. split; [simpl; lia | reflexivity].
  - intros i Hi _. simpl in Hi. split; apply Qle_bool_imp_le;
      (destruct i as [|[|[|i]]]; [reflexivity | reflexivity | reflexivity | lia]).
Defined.

Lemma dal_first_delay_bound_witness :
  exists R, metric_call DifferentiableAverageLagging ex_delays ex_src_lens None true true = Ok R /\
    rows R = 1%nat /\ cols R = rows ex_delays /\ shift true (ent ex_delays 1 0) <= ent R 0 1.
Proof.
  apply (dal_first_delay_bound ex_delays ex_src_lens true 1); try reflexivity.
  - simpl; lia.
  - simpl; lia.
Defined.

Lemma latency_inference_ap_range_witness :
  exists vd va vp,
    latency_inference true ex_ms ex_sl =
      Ok [("differentiable_average_lagging"%string, vd);
          ("average_lagging"%string, va);
          ("average_proportion"%string, vp)] /\
    rows vp = dim0 ex_ms /\ cols vp = 1%nat /\
    forall b, (b < dim0 ex_ms)%nat ->
      1 / inject_Z (ent ex_sl b 0) <= ent vp b 0 /\ ent vp b 0 <= 1.
Proof.
  apply (latency_inference_ap_range ex_ms ex_sl); try reflexivity.
  - simpl; lia.
  - simpl; lia.
  - intros b k t _ _ _. simpl. lia.
  - intros b _. simpl. lia.
Defined.


End LatencyMoreExamples.

Module AttentionMoreExamples.
Import Inference Attention Reorder AttentionMoreFacts ReorderFacts AttentionExamples.
Local Open Scope R_scope.

(** A batch of one whose only column agrees with column 1 of [ex_src] at
    its unpadded source position and differs at the padded one. *)
Definition ex_dec1 : tensor R := mkT 1 1 (fun _ _ => 1).
Definition ex_src1 : tensor3 R := mkT3 2 1 1 (fun i _ _ => INR (1 + 4 * i)).
Definition ex_mask1 : tensor bool := mkT 2 1 (fun i _ => (i =? 1)%nat).
Definition ex_nopad : tensor bool := mkT 2 2 (fun _ _ => false).

Lemma mlp_attention_locality_witness :
  exists ctx alpha ctx' alpha',
    Attention.forward ex_attention ex_dec ex_src (Some ex_mask) = Ok (ctx, alpha) /\
    Attention.forward ex_attention ex_dec1 ex_src1 (Some ex_mask1) = Ok (ctx', alpha') /\
    (forall i, (i < dim0 ex_src)%nat -> ent alpha i 1 = ent alpha' i 0) /\
    (forall c, (c < context_dim ex_attention)%nat -> ent ctx 1 c = ent ctx' 0 c).
Proof.
  apply (mlp_attention_locality ex_attention ex_dec ex_src (Some ex_mask)
           ex_dec1 ex_src1 (Some ex_mask1) 1 0); try reflexivity; try (simpl; lia).
  - intros m Hm. injection Hm as <-. split; reflexivity.
  - intros m Hm. injection Hm as <-. split; reflexivity.
  - intros i c Hi Hc Hm. simpl in Hi, Hc.
    destruct c as [|c]; [|lia]. destruct i as [|[|i]]; [reflexivity | discriminate Hm | lia].
Defined.

Lemma mlp_attention_no_padding_witness :
  exists ctx alpha ctx' alpha',
    Attention.forward ex_attention ex_dec ex_src None = Ok (ctx, alpha) /\
    Attention.forward ex_attention ex_dec ex_src (Some ex_nopad) = Ok (ctx', alpha') /\
    (forall i b, (i < dim0 ex_src)%nat -> (b < dim1 ex_src)%nat ->
       ent alpha i b = ent alpha' i b /\ exists w, ent alpha i b = Some w /\ 0 < w) /\
    (forall b c, (b < dim1 ex_src)%nat -> (c < context_dim ex_attention)%nat ->
       ent ctx b c = ent ctx' b c).
Proof.
  apply (mlp_attention_no_padding ex_attention ex_dec ex_src ex_nopad);
    try reflexivity; try (simpl; lia).
Defined.


End AttentionMoreExamples.

Module EncoderShapeExamples.
Import EncoderShapes EncoderShapeFacts.
Local Open Scope nat_scope.

Lemma init_lstm_input_dim_conv_output_witness :
  exists a b,
    init_lstm_input_dim [256; 128] default_conv_layers = Ok a /\
    conv_feature_dim 1 (last [256; 128] 0) default_conv_layers = Ok b /\
    a <= b /\ (a = b <-> exact_convs (last [256; 128] 0) default_conv_layers = true).
Proof.
  apply (init_lstm_input_dim_conv_output [256; 128] default_conv_layers 1).
  - discriminate.
  - discriminate.
  - simpl; lia.
  - unfold default_conv_layers. repeat constructor.
Defined.

Lemma default_conv_input_length_witness :
  exists out il,
    input_lengths default_conv_layers 10 [Z.of_nat 10] = Ok (out, [il]) /\
    out = (10 + 3) / 4 /\
    il = (Z.of_nat out + if Nat.eqb 10 10 || Nat.eqb 10 13 || Nat.eqb 10 17 then 1 else 0)%Z.
Proof.
  apply (default_conv_input_length 10). lia.
Defined.

End EncoderShapeExamples.

Module DecoderMoreExamples.
Import Decoder DecoderMoreFacts DecoderExamples.

(** [ex_decoder] with its layers removed ([num_layers = 0]). *)
Definition ex_decoder_nolayers : lstm_decoder Z Z unit :=
  LSTMDecoder (embed_tokens ex_decoder) (dropout ex_decoder) [] (new_zeros ex_decoder)
    (attention ex_decoder) (deep_output_layer ex_decoder) (vtanh ex_decoder)
    (output_projection ex_decoder).

Lemma decoder_forward_no_layers_witness :
  Decoder.forward ex_decoder_nolayers tt [4; 2]%Z None = Err UnboundLocalError.
Proof.
  apply (decoder_forward_no_layers ex_decoder_nolayers tt [4; 2]%Z None);
    [reflexivity | discriminate].
Defined.

Lemma decoder_forward_short_cache_witness :
  Decoder.forward ex_decoder tt [4; 2]%Z (Some (Some ([1]%Z, [5; 6]%Z))) = Err IndexError.
Proof.
  apply (decoder_forward_short_cache ex_decoder tt [4; 2]%Z [1]%Z [5; 6]%Z);
    [discriminate | discriminate | left; unfold num_layers; simpl; lia].
Defined.

Lemma decoder_forward_cache_invariant_witness :
  exists ys st,
    Decoder.forward ex_decoder tt [4; 2; 9]%Z (Some (Some ([1; 2]%Z, [5; 6]%Z))) = Ok (ys, st) /\
    List.length ys = 1%nat /\
    exists hs' cs', st = Some (Some (hs', cs')) /\
      List.length hs' = num_layers ex_decoder /\ List.length cs' = num_layers ex_decoder.
Proof.
  apply (decoder_forward_cache_invariant ex_decoder tt [4; 2; 9]%Z
           (Some (Some ([1; 2]%Z, [5; 6]%Z)))); [discriminate | discriminate |].
  intros hs cs H. injection H as <- <-. split; reflexivity.
Defined.

End DecoderMoreExamples.
